(** * Storage: one logical volume over a single file or a multi-file spec

    A shallow embedding of [src/storage.cpp] (class [Storage], the
    constructor and the destructor of class [StorageFile]) together with
    the properties of the volume's life cycle, of the multi-file spec
    parser and of the offset index.

    Conventions of the embedding.
    - The C++ integer types ([int], [size_t], [ssize_t], [int64_t]) are
      all read as [Z].  What is computed from the sizes written in a
      spec is computed as on the machine: [sscanf] stores the nearest
      bound for a number that an [int64_t] does not hold, and the sums of
      [ParseSpec] and of the constructor of [StorageFile] wrap around
      ([to_int64]; signed overflow is undefined in C++, a two's
      complement machine wraps).  All other arithmetic is exact: there
      the embedding describes the executions in which no value leaves
      the range of its type and no negative number is converted to an
      unsigned type.  The section on the ranges of the C++ integer types
      gives the bounds that keep an execution among those.
    - [std::string] is [string]; raw buffers ([const void *buf], the
      contents of a file) are [list byte].  A buffer converted to a C
      string stops at its first NUL byte, see [cstr].
    - The object is passed explicitly: every member function takes the
      [Storage] value and the state of the operating system ([world]) and
      returns its result with the new [Storage] and the new [world].
    - [Storage::Write] and [Storage::Read] are recursive without a
      structural argument; they take the depth of the C++ call stack
      that is available as [fuel] and return [None] when it is exhausted.
      [None] is also the outcome of the two places where the C++ code
      has no defined behaviour ([sfs_[0]] on an empty vector, [fread] on
      a NULL stream). *)

From Stdlib Require Import ZArith Lia List Ascii String Bool.
From Stdlib Require Import Strings.Byte.
From stdpp Require Import base option list gmap strings.
From Equations Require Import Equations.
Import ListNotations.

Local Open Scope Z_scope.

(** ** Strings and C library routines *)

(** [errno.h] values used by the code. *)
Definition ENOENT : Z := 2.
Definition EINVAL : Z := 22.

(** The bounds of [int] and of [int64_t], the value that a sum of
    [int64_t] has on the machine (two's complement: the sum wraps
    around), and the number nearest to [x] that an [int64_t] holds. *)
Definition INT_MAX : Z := 2 ^ 31 - 1.
Definition INT64_MAX : Z := 2 ^ 63 - 1.
Definition INT64_MIN : Z := - 2 ^ 63.
Definition to_int64 (x : Z) : Z := (x + 2 ^ 63) mod 2 ^ 64 - 2 ^ 63.
Definition sat_int64 (x : Z) : Z := Z.max INT64_MIN (Z.min x INT64_MAX).

(** A [char *] read as a C string: the bytes before the first NUL. *)
Fixpoint cstr (bs : list byte) : string :=
  match bs with
  | [] => EmptyString
  | b :: r =>
      if Byte.eqb b x00 then EmptyString
      else String (ascii_of_byte b) (cstr r)
  end.

(** [s.rfind(c, s.length()-1)]: the last index of [c] in [s], [None] for
    [std::string::npos]. *)
Fixpoint str_rfind (c : ascii) (s : string) : option nat :=
  match s with
  | EmptyString => None
  | String a s' =>
      match str_rfind c s' with
      | Some i => Some (S i)
      | None => if Ascii.eqb a c then Some 0%nat else None
      end
  end.

(** [s.find(pat, pos)] is [String.index pos pat s] and [s.substr(pos, n)]
    is [String.substring pos n s] (both clamp [n] at the end of [s]). *)
Definition str_find (pat s : string) (pos : nat) : option nat :=
  String.index pos pat s.
Definition substr (s : string) (pos n : nat) : string :=
  String.substring pos n s.

(** [isspace] in the C locale. *)
Definition isspace (c : ascii) : bool :=
  let n := nat_of_ascii c in
  Nat.eqb n 32 || (Nat.leb 9 n && Nat.leb n 13).

Definition digit_val (c : ascii) : option Z :=
  let n := Z.of_nat (nat_of_ascii c) in
  if (48 <=? n) && (n <=? 57) then Some (n - 48) else None.

Fixpoint skip_spaces (s : string) : string :=
  match s with
  | EmptyString => EmptyString
  | String c r => if isspace c then skip_spaces r else s
  end.

Fixpoint scan_digits (s : string) (acc : Z) : Z :=
  match s with
  | EmptyString => acc
  | String c r =>
      match digit_val c with
      | Some d => scan_digits r (10 * acc + d)
      | None => acc
      end
  end.

(** A nonempty run of decimal digits at the head of [s]. *)
Definition scan_number (s : string) : option Z :=
  match s with
  | EmptyString => None
  | String c r =>
      match digit_val c with
      | Some d => Some (scan_digits r d)
      | None => None
      end
  end.

(** [sscanf(s, "%lld", &v)]: white space is skipped; the end of the input
    before any character of the number is an input failure (the call
    returns [EOF]); an optional sign and at least one digit are a match;
    anything else is a matching failure (the call returns 0).  A number
    that an [int64_t] does not hold is stored as the nearest bound, as
    [strtoll] converts it. *)
Inductive scan_result :=
| ScanEOF
| ScanNoMatch
| ScanOK (v : Z).

Definition sscanf_lld (s : string) : scan_result :=
  match skip_spaces s with
  | EmptyString => ScanEOF
  | String c r =>
      if Ascii.eqb c "-" then
        match scan_number r with
        | Some v => ScanOK (sat_int64 (- v))
        | None => ScanNoMatch
        end
      else if Ascii.eqb c "+" then
        match scan_number r with
        | Some v => ScanOK (sat_int64 v)
        | None => ScanNoMatch
        end
      else
        match scan_number (String c r) with
        | Some v => ScanOK (sat_int64 v)
        | None => ScanNoMatch
        end
  end.

(** The value [sscanf] returns, and the variable it was given: assigned
    only on a match. *)
Definition scan_count (r : scan_result) : Z :=
  match r with
  | ScanEOF => -1
  | ScanNoMatch => 0
  | ScanOK _ => 1
  end.

Definition scan_store (old : Z) (r : scan_result) : Z :=
  match r with
  | ScanOK v => v
  | _ => old
  end.

(** [fgets(line, n + 1, fp)] on the unread part [s] of a stream: at most
    [n] bytes, ending after the first newline; the result is the line and
    the rest of the stream. *)
Fixpoint fgets (n : nat) (s : list byte) : list byte * list byte :=
  match n, s with
  | S n', c :: s' =>
      if Byte.eqb c x0a then ([c], s')
      else let '(l, r) := fgets n' s' in (c :: l, r)
  | _, _ => ([], s)
  end.

(** The lines that successive calls of [fgets] return until it returns
    NULL at the end of the stream.  Every call with [1 <= n] consumes a
    byte, so [fuel = length s] calls reach the end. *)
Fixpoint fgets_lines (fuel n : nat) (s : list byte) : list (list byte) :=
  match fuel with
  | O => []
  | S f =>
      match s with
      | [] => []
      | _ :: _ => let '(l, r) := fgets n s in l :: fgets_lines f n r
      end
  end.

(** [strncmp(buf, s, strlen(s)) == 0] for a string [s] without NUL: the
    first [strlen(s)] bytes of [buf] are those of [s]. *)
Definition strncmp_eq (buf : list byte) (s : string) : bool :=
  String.eqb (string_of_list_byte (firstn (String.length s) buf)) s.

(** The two fields of a line of the multi-file spec, "specpath filesize":
    [idx = pline.rfind(' ', pline.length()-1)], then
    [specpath = pline.substr(0, idx)] and
    [sizestr = pline.substr(idx+1, pline.length())].  Without a space
    [idx] is [npos], [idx+1] wraps to 0 and both fields are the line. *)
Definition split_line (pline : string) : string * string :=
  match str_rfind " " pline with
  | Some idx =>
      (substr pline 0 idx, substr pline (idx + 1) (String.length pline))
  | None => (pline, pline)
  end.

(** Modelled from the spec: [swift::stringreplace] is not part of
    storage.cpp; section 6.3 describes the two path helpers as
    "substituting the manifest separator", so it replaces every
    occurrence of [search] in [src] by [repl], left to right. *)
Fixpoint string_drop (n : nat) (s : string) : string :=
  match n, s with
  | S n', String _ s' => string_drop n' s'
  | _, _ => s
  end.

Fixpoint stringreplace_go (fuel : nat) (src search repl : string) : string :=
  match fuel with
  | O => src
  | S f =>
      match src with
      | EmptyString => EmptyString
      | String c rest =>
          if String.prefix search src then
            repl ++ stringreplace_go f (string_drop (String.length search) src)
                      search repl
          else String c (stringreplace_go f rest search repl)
      end
  end.

Definition stringreplace (src search repl : string) : string :=
  match search with
  | EmptyString => src
  | _ => stringreplace_go (String.length src) src search repl
  end.

(** ** The operating system *)

(** What storage.cpp asks of the platform ([compat.h] and the C library).
    Each call takes the state of the system and returns the new one;
    [errno] is part of that state.  [sys_open] is
    [open(path, OPENFLAGS, S_IRUSR|S_IWUSR|S_IRGRP|S_IROTH)];
    [sys_stat] returns the status and whether [st_mode] has [S_IFDIR];
    [sys_fopen_rb] returns the contents of the stream opened by
    [fopen(path, "rb")], [None] for NULL.  [FILE_SEP] and
    [MULTIFILE_MAX_LINE] are constants of headers that are not part of
    storage.cpp. *)
Class Platform := {
  world : Type;
  FILE_SEP : string;
  MULTIFILE_MAX_LINE : nat;
  errno : world -> Z;
  set_errno : Z -> world -> world;
  sys_open : string -> world -> Z * world;
  sys_pwrite : Z -> list byte -> Z -> Z -> world -> Z * world;
  sys_pread : Z -> Z -> Z -> world -> Z * list byte * world;
  sys_stat : string -> world -> Z * bool * world;
  sys_mkdir : string -> world -> Z * world;
  sys_fopen_rb : string -> world -> option (list byte) * world;
  file_size : Z -> world -> Z * world;
  file_size_by_path : string -> world -> Z * world;
  file_resize : Z -> Z -> world -> Z * world
}.

(** ** The data model *)

Definition MULTIFILE_PATHNAME : string := "META-INF-multifilespec.txt".
Definition MULTIFILE_PATHNAME_FILE_SEP : string := "/".

Inductive storage_state_t :=
| STOR_STATE_INIT
| STOR_STATE_MFSPEC_SIZE_KNOWN
| STOR_STATE_MFSPEC_COMPLETE
| STOR_STATE_SINGLE_FILE.

#[export] Instance storage_state_eq_dec : EqDecision storage_state_t.
Proof. solve_decision. Defined.

Record StorageFile := mkStorageFile {
  spec_pathname_ : string;
  start_ : Z;
  end_ : Z;
  fd_ : Z
}.

Record Storage := mkStorage {
  state_ : storage_state_t;
  spec_size_ : Z;
  single_fd_ : Z;
  reserved_size_ : Z;
  os_pathname_ : string;
  sfs_ : list StorageFile
}.

(** The members as the initialisers of the constructor and its first
    statement leave them: [state_(STOR_STATE_INIT)], [spec_size_(0)],
    [single_fd_(-1)], [reserved_size_(-1)], [os_pathname_ = pathname]. *)
Definition st_init (pathname : string) : Storage :=
  mkStorage STOR_STATE_INIT 0 (-1) (-1) pathname [].

Definition set_state (s : storage_state_t) (st : Storage) : Storage :=
  mkStorage s (spec_size_ st) (single_fd_ st) (reserved_size_ st)
            (os_pathname_ st) (sfs_ st).
Definition set_spec_size (v : Z) (st : Storage) : Storage :=
  mkStorage (state_ st) v (single_fd_ st) (reserved_size_ st)
            (os_pathname_ st) (sfs_ st).
Definition set_single_fd (v : Z) (st : Storage) : Storage :=
  mkStorage (state_ st) (spec_size_ st) v (reserved_size_ st)
            (os_pathname_ st) (sfs_ st).
Definition set_reserved_size (v : Z) (st : Storage) : Storage :=
  mkStorage (state_ st) (spec_size_ st) (single_fd_ st) v
            (os_pathname_ st) (sfs_ st).
Definition push_back (sf : StorageFile) (st : Storage) : Storage :=
  mkStorage (state_ st) (spec_size_ st) (single_fd_ st) (reserved_size_ st)
            (os_pathname_ st) (sfs_ st ++ [sf]).

(** Accessors of [StorageFile].
    Modelled from the spec: the member functions of [StorageFile] other
    than its constructor are declared in swift.h, which is not part of
    storage.cpp; section 3 gives [size = end - start + 1]. *)
Definition GetStart (sf : StorageFile) : Z := start_ sf.
Definition GetEnd (sf : StorageFile) : Z := end_ sf.
Definition GetSize (sf : StorageFile) : Z := end_ sf + 1 - start_ sf.
Definition GetSpecPathName (sf : StorageFile) : string := spec_pathname_ sf.

(** ** The offset index: [Storage::FindStorageFile] *)

(** The [while (imax >= imin)] loop.  [sfs_[imid]] is read with the
    list lookup; the index is always inside the vector (see
    [FindStorageFile_loop_index] below), an index outside would have no
    defined behaviour and ends the search here. *)
Equations FindStorageFile_loop (sfs : list StorageFile) (offset imin imax : Z)
  : option StorageFile by wf (Z.to_nat (imax - imin + 1)) lt :=
FindStorageFile_loop sfs offset imin imax with Z_le_dec imin imax := {
  | right _ => None
  | left _ with sfs !! Z.to_nat ((imin + imax) `quot` 2) := {
      | None => None
      | Some sf with Z_le_dec (GetEnd sf + 1) offset := {
          | left _ =>
              FindStorageFile_loop sfs offset ((imin + imax) `quot` 2 + 1) imax
          | right _ with Z_lt_dec offset (GetStart sf) := {
              | left _ =>
                  FindStorageFile_loop sfs offset imin
                                       ((imin + imax) `quot` 2 - 1)
              | right _ => Some sf } } } }.
Next Obligation.
  intros. Z.to_euclidean_division_equations. lia.
Qed.
Next Obligation.
  intros. Z.to_euclidean_division_equations. lia.
Qed.

Definition FindStorageFile (sfs : list StorageFile) (offset : Z)
  : option StorageFile :=
  FindStorageFile_loop sfs offset 0 (Z.of_nat (length sfs) - 1).

(** ** The operations of [StorageFile] and [Storage] *)

Section Operations.
Context {P : Platform}.

Definition spec2ospn (specpn : string) : string :=
  if String.eqb MULTIFILE_PATHNAME_FILE_SEP FILE_SEP then specpn
  else stringreplace specpn MULTIFILE_PATHNAME_FILE_SEP FILE_SEP.

Definition os2specpn (ospn : string) : string :=
  if String.eqb MULTIFILE_PATHNAME_FILE_SEP FILE_SEP then ospn
  else stringreplace ospn FILE_SEP MULTIFILE_PATHNAME_FILE_SEP.

(** The loop of the constructor that makes the directories of a path:
    [i] is the position of the last separator that was handled.  The
    result is [false] when the constructor returns from inside the loop.
    Every round moves [i] forward, [fuel] bounds the rounds by the length
    of the path. *)
Fixpoint make_dirs (fuel : nat) (ospathname : string) (i : nat) (w : world)
  : bool * world :=
  match fuel with
  | O => (true, w)
  | S f =>
      match str_find FILE_SEP ospathname (i + 1) with
      | None => (true, w)
      | Some i' =>
          let path := substr ospathname 0 i' in
          let '(ret, isdir, w1) := sys_stat path w in
          if (ret <? 0) && (errno w1 =? ENOENT) then
            let '(ret', w2) := sys_mkdir path w1 in
            if ret' <? 0 then (false, w2) else make_dirs f ospathname i' w2
          else if (ret =? 0) && negb isdir then (false, w1)
          else make_dirs f ospathname i' w1
      end
  end.

(** [StorageFile::StorageFile(utf8path, start, size)]; [end_] is the
    [int64_t] sum [start+size-1]. *)
Definition new_StorageFile (utf8path : string) (start size : Z) (w : world)
  : StorageFile * world :=
  let ospathname := spec2ospn utf8path in
  let '(ok, w1) :=
    match str_find FILE_SEP ospathname 0 with
    | Some _ => make_dirs (S (String.length ospathname)) ospathname 0 w
    | None => (true, w)
    end in
  if ok then
    let '(fd, w2) := sys_open ospathname w1 in
    (mkStorageFile utf8path start (to_int64 (start + size - 1)) fd, w2)
  else (mkStorageFile utf8path start (to_int64 (start + size - 1)) (-1), w1).

(** Modelled from the spec: [StorageFile::Write], [StorageFile::Read] and
    [StorageFile::ResizeReserved] are defined in swift.h, which is not
    part of storage.cpp.  Section 4.1: a positional write and a positional
    read at a file-local offset, and "extend the file to exactly [size]
    bytes". *)
Definition StorageFile_Write (sf : StorageFile) (buf : list byte)
  (nbyte offset : Z) (w : world) : Z * world :=
  sys_pwrite (fd_ sf) buf nbyte offset w.

Definition StorageFile_Read (sf : StorageFile) (nbyte offset : Z) (w : world)
  : Z * list byte * world :=
  sys_pread (fd_ sf) nbyte offset w.

Definition StorageFile_ResizeReserved (sf : StorageFile) (w : world)
  : Z * world :=
  file_resize (fd_ sf) (GetSize sf) w.

(** [Storage::WriteBuffer]: the pair is (head, tail).  The test of line
    225 is evaluated in [Z]; the machine compares its two sides as
    unsigned numbers, which gives the same value when neither side is
    negative (see [covers_unsigned]). *)
Definition WriteBuffer (sf : StorageFile) (buf : list byte)
  (nbyte offset : Z) (w : world) : (Z * Z) * world :=
  if offset + nbyte <=? GetEnd sf + 1 then
    let '(ret, w') := StorageFile_Write sf buf nbyte (offset - GetStart sf) w in
    if ret <? 0 then ((-1, -1), w') else ((nbyte, 0), w')
  else
    let head := GetEnd sf + 1 - offset in
    let tail := nbyte - head in
    let '(ret, w') := StorageFile_Write sf buf head (offset - GetStart sf) w in
    if ret <? 0 then ((-1, -1), w') else ((head, tail), w').

(** The body of the [while(1)] loop of [Storage::ParseSpec], run over the
    lines that [fgets] returns; the result is [ret].  The running
    [offset] is an [int64_t]. *)
Fixpoint ParseSpec_loop (sf : StorageFile) (lines : list (list byte))
  (offset : Z) (st : Storage) (w : world) : Z * Storage * world :=
  match lines with
  | [] => (0, st, w)
  | line :: rest =>
      let pline := cstr line in
      let '(specpath, sizestr) := split_line pline in
      let scan := sscanf_lld sizestr in
      let fsize := scan_store 0 scan in
      if scan_count scan =? 0 then (-1, st, w)
      else if String.eqb (substr specpath 0 1) MULTIFILE_PATHNAME_FILE_SEP
      then (-1, st, w)
      else
        match str_find ".." specpath 0 with
        | Some _ => (-1, st, w)
        | None =>
            if offset =? 0 then
              ParseSpec_loop sf rest (to_int64 (offset + GetSize sf)) st w
            else
              let '(sf', w') := new_StorageFile specpath offset fsize w in
              ParseSpec_loop sf rest (to_int64 (offset + fsize))
                             (push_back sf' st) w'
        end
  end.

Definition ParseSpec (sf : StorageFile) (st : Storage) (w : world)
  : Z * Storage * world :=
  match sys_fopen_rb (GetSpecPathName sf) w with
  | (None, w1) => (-1, st, w1)
  | (Some content, w1) =>
      ParseSpec_loop sf
        (fgets_lines (length content) (MULTIFILE_MAX_LINE - 1) content)
        0 st w1
  end.

(** [Storage::GetReservedSize]: the loop over [sfs_] adds the sizes on
    disk to [totaldisksize]. *)
Fixpoint GetReservedSize_loop (sfs : list StorageFile) (totaldisksize : Z)
  (w : world) : Z * world :=
  match sfs with
  | [] => (totaldisksize, w)
  | sf :: rest =>
      let '(fsize, w1) := file_size_by_path (GetSpecPathName sf) w in
      if fsize <? 0 then (fsize, w1)
      else GetReservedSize_loop rest (totaldisksize + fsize) w1
  end.

Definition GetReservedSize (st : Storage) (w : world) : Z * Storage * world :=
  match state_ st with
  | STOR_STATE_SINGLE_FILE =>
      let '(r, w1) := file_size (single_fd_ st) w in (r, st, w1)
  | STOR_STATE_MFSPEC_COMPLETE =>
      let '(r, w1) := GetReservedSize_loop (sfs_ st) 0 w in (r, st, w1)
  | _ => (-1, st, w)
  end.

(** [Storage::ResizeReserved]: the loop over [sfs_]. *)
Fixpoint ResizeReserved_loop (sfs : list StorageFile) (w : world) : Z * world :=
  match sfs with
  | [] => (0, w)
  | sf :: rest =>
      let '(ret, w1) := StorageFile_ResizeReserved sf w in
      if ret <? 0 then (ret, w1) else ResizeReserved_loop rest w1
  end.

Definition ResizeReserved (size : Z) (st : Storage) (w : world)
  : Z * Storage * world :=
  match state_ st with
  | STOR_STATE_SINGLE_FILE =>
      let '(r, w1) := file_resize (single_fd_ st) size w in (r, st, w1)
  | STOR_STATE_INIT => (0, set_reserved_size size st, w)
  | STOR_STATE_MFSPEC_SIZE_KNOWN => (-1, st, w)
  | STOR_STATE_MFSPEC_COMPLETE =>
      let '(cur, st1, w1) := GetReservedSize st w in
      if size >? cur then
        let '(r, w2) := ResizeReserved_loop (sfs_ st1) w1 in (r, st1, w2)
      else (0, st1, w1)
  end.

(** [Storage::OpenSingleFile]. *)
Definition OpenSingleFile (st : Storage) (w : world) : Z * Storage * world :=
  let st1 := set_state STOR_STATE_SINGLE_FILE st in
  let '(fd, w1) := sys_open (os_pathname_ st1) w in
  let st2 := set_single_fd (if fd <? 0 then -1 else fd) st1 in
  if negb (reserved_size_ st2 =? -1) then
    let '(ret, st3, w2) := ResizeReserved (reserved_size_ st2) st2 w1 in
    if ret <? 0 then (ret, st3, w2) else (single_fd_ st3, st3, w2)
  else (single_fd_ st2, st2, w1).

(** The result of [Write]: the byte count or -1, the object and the
    system afterwards. *)
Definition io_result : Type := option (Z * Storage * world).

(** [Storage::WriteSpecPart], the call of [Write] at its end given as
    [Write_rec]. *)
Definition WriteSpecPart
  (Write_rec : list byte -> Z -> Z -> Storage -> world -> io_result)
  (sf : StorageFile) (buf : list byte) (nbyte offset : Z)
  (st : Storage) (w : world) : io_result :=
  let '(ht, w1) := WriteBuffer sf buf nbyte offset w in
  if fst ht =? -1 then Some (-1, st, set_errno EINVAL w1)
  else if offset + fst ht =? GetEnd sf + 1 then
    let st1 := set_state STOR_STATE_MFSPEC_COMPLETE st in
    let '(r, st2, w2) := ParseSpec sf st1 w1 in
    if r <? 0 then Some (-1, st2, set_errno EINVAL w2)
    else
      match Write_rec (skipn (Z.to_nat (fst ht)) buf) (snd ht)
                      (offset + fst ht) st2 w2 with
      | None => None
      | Some (ret, st3, w3) =>
          if ret <? 0 then Some (ret, st3, w3)
          else Some (fst ht + ret, st3, w3)
      end
  else Some (fst ht, set_state STOR_STATE_MFSPEC_SIZE_KNOWN st, w1).

(** [Storage::Write].  The count of the tail is kept as it is; [int ret]
    holds it as long as it is at most [INT_MAX]. *)
Fixpoint Write (fuel : nat) (buf : list byte) (nbyte offset : Z)
  (st : Storage) (w : world) : io_result :=
  match fuel with
  | O => None
  | S g =>
      match state_ st with
      | STOR_STATE_SINGLE_FILE =>
          let '(r, w1) := sys_pwrite (single_fd_ st) buf nbyte offset w in
          Some (r, st, w1)
      | STOR_STATE_INIT =>
          if negb (offset =? 0) then Some (-1, st, set_errno EINVAL w)
          else if strncmp_eq buf MULTIFILE_PATHNAME then
            let scan :=
              sscanf_lld
                (cstr (skipn (String.length MULTIFILE_PATHNAME + 1) buf)) in
            let st1 := set_spec_size (scan_store (spec_size_ st) scan) st in
            if negb (scan_count scan =? 1)
            then Some (-1, st1, set_errno EINVAL w)
            else
              let '(sf, w1) :=
                new_StorageFile MULTIFILE_PATHNAME 0 (spec_size_ st1) w in
              let st2 := push_back sf st1 in
              WriteSpecPart (Write g) sf buf nbyte offset st2 w1
          else
            let '(ret, st1, w1) := OpenSingleFile st w in
            if ret <? 0 then Some (-1, st1, w1)
            else Write g buf nbyte offset st1 w1
      | STOR_STATE_MFSPEC_SIZE_KNOWN =>
          match sfs_ st with
          | [] => None
          | sf :: _ => WriteSpecPart (Write g) sf buf nbyte offset st w
          end
      | STOR_STATE_MFSPEC_COMPLETE =>
          match FindStorageFile (sfs_ st) offset with
          | None => Some (-1, st, set_errno EINVAL w)
          | Some sf =>
              let '(ht, w1) := WriteBuffer sf buf nbyte offset w in
              if fst ht =? -1 then Some (-1, st, set_errno EINVAL w1)
              else if snd ht >? 0 then
                match Write g (skipn (Z.to_nat (fst ht)) buf) (snd ht)
                            (offset + fst ht) st w1 with
                | None => None
                | Some (ret, st2, w2) =>
                    if ret <? 0 then Some (ret, st2, w2)
                    else Some (fst ht + ret, st2, w2)
                end
              else Some (fst ht, st, w1)
          end
      end
  end.

(** [Storage::Read].  The result carries the byte count (or the negative
    status) and the bytes stored at the start of [buf]; [ht_size] is
    the value of [ht_->size()], the size of the content according to the
    hash tree of the swarm. *)
Fixpoint Read (fuel : nat) (ht_size : Z) (nbyte offset : Z)
  (st : Storage) (w : world) : option (Z * list byte * Storage * world) :=
  match fuel with
  | O => None
  | S g =>
      match state_ st with
      | STOR_STATE_SINGLE_FILE =>
          let '(r, data, w1) := sys_pread (single_fd_ st) nbyte offset w in
          Some (r, data, st, w1)
      | STOR_STATE_INIT => Some (-1, [], st, set_errno EINVAL w)
      | _ =>
          match FindStorageFile (sfs_ st) offset with
          | None => Some (-1, [], st, set_errno EINVAL w)
          | Some sf =>
              let '(ret, data, w1) :=
                StorageFile_Read sf nbyte (offset - GetStart sf) w in
              if ret <? 0 then Some (ret, data, st, w1)
              else if (ret <? nbyte) && negb (offset + ret =? ht_size) then
                match Read g ht_size (nbyte - ret) (offset + ret) st w1 with
                | None => None
                | Some (newret, data', st2, w2) =>
                    if newret <? 0 then Some (newret, data ++ data', st2, w2)
                    else Some (ret + newret, data ++ data', st2, w2)
                end
              else Some (ret, data, st, w1)
          end
      end
  end.

(** [Storage::Storage(pathname)].  [readbuf] is the content of the local
    array of that name before [fread] fills its head: when the file is
    shorter than the name of the spec, [strncmp] reads bytes that were
    never written.  [fread] does not return a negative count, so the
    test [ret < 0] has no branch here. *)
Definition new_Storage (pathname : string) (readbuf : list byte) (w : world)
  : option (Storage * world) :=
  let st := st_init pathname in
  let '(fsize, w1) := file_size_by_path pathname w in
  if (fsize <? 0) && (errno w1 =? ENOENT) then Some (st, w1)
  else
    match sys_fopen_rb pathname w1 with
    | (None, _) => None
    | (Some content, w2) =>
        let got := firstn (String.length MULTIFILE_PATHNAME) content in
        let readbuf' := got ++ skipn (length got) readbuf in
        if strncmp_eq readbuf' MULTIFILE_PATHNAME then
          let st1 := set_state STOR_STATE_MFSPEC_COMPLETE st in
          let '(sf, w3) := new_StorageFile pathname 0 fsize w2 in
          let st2 := push_back sf st1 in
          let '(_, st3, w4) := ParseSpec sf st2 w3 in
          Some (st3, w4)
        else
          let '(_, st1, w3) := OpenSingleFile st w2 in
          Some (st1, w3)
    end.

End Operations.

(** ** The notions the properties are stated with *)

(** The half-closed interval [[start, end+1)] of a file. *)
Definition contains (sf : StorageFile) (o : Z) : Prop :=
  GetStart sf <= o < GetEnd sf + 1.

Fixpoint sorted_by_start (l : list StorageFile) : Prop :=
  match l with
  | a :: (b :: _) as r => GetStart a <= GetStart b /\ sorted_by_start r
  | _ => True
  end.

Fixpoint contiguous (l : list StorageFile) : Prop :=
  match l with
  | a :: (b :: _) as r => GetEnd a + 1 = GetStart b /\ contiguous r
  | _ => True
  end.

(** A path that starts with the separator of the spec, and a path that
    contains [..]. *)
Definition starts_with_sep (p : string) : Prop :=
  exists r, p = (MULTIFILE_PATHNAME_FILE_SEP ++ r)%string.
Definition contains_dotdot (p : string) : Prop :=
  exists a b, p = (a ++ ".." ++ b)%string.
Definition unsafe_path (p : string) : Prop :=
  starts_with_sep p \/ contains_dotdot p.

(** What a size field can hold, after its leading white space: nothing
    (the field is blank); or something that is not a number, which is a
    character that is neither a digit nor a sign, or a sign that no
    digit follows. *)
Definition is_digit (c : ascii) : bool :=
  match digit_val c with
  | Some _ => true
  | None => false
  end.

Definition is_sign (c : ascii) : bool := Ascii.eqb c "-" || Ascii.eqb c "+".

Definition blank (s : string) : Prop := skip_spaces s = EmptyString.

Definition not_a_number (s : string) : Prop :=
  match skip_spaces s with
  | EmptyString => False
  | String c r =>
      if is_sign c then
        match r with
        | EmptyString => True
        | String d _ => is_digit d = false
        end
      else is_digit c = false
  end.

(** The fields of a line as the loop of [ParseSpec] computes them, and
    the three tests a line passes before it is used. *)
Definition line_specpath (line : list byte) : string :=
  fst (split_line (cstr line)).
Definition line_sizestr (line : list byte) : string :=
  snd (split_line (cstr line)).
Definition line_fsize (line : list byte) : Z :=
  scan_store 0 (sscanf_lld (line_sizestr line)).

Definition line_ok (line : list byte) : bool :=
  negb (scan_count (sscanf_lld (line_sizestr line)) =? 0)
  && negb (String.eqb (substr (line_specpath line) 0 1)
                      MULTIFILE_PATHNAME_FILE_SEP)
  && match str_find ".." (line_specpath line) 0 with
     | Some _ => false
     | None => true
     end.

Definition terminal (s : storage_state_t) : Prop :=
  s = STOR_STATE_SINGLE_FILE \/ s = STOR_STATE_MFSPEC_COMPLETE.

(** The calls a user of the volume makes. *)
Inductive call :=
| CallWrite (fuel : nat) (buf : list byte) (nbyte offset : Z)
| CallRead (fuel : nat) (ht_size nbyte offset : Z)
| CallResizeReserved (size : Z)
| CallGetReservedSize.

Section Notions.
Context {P : Platform}.

(** The lines [ParseSpec] reads for the spec file of [sf]. *)
Definition spec_lines (sf : StorageFile) (w : world) : list (list byte) :=
  match sys_fopen_rb (GetSpecPathName sf) w with
  | (Some content, _) =>
      fgets_lines (length content) (MULTIFILE_MAX_LINE - 1) content
  | (None, _) => []
  end.

(** What the loop keeps true of the running [offset]: it is 0 while only
    the entry of the spec itself is present, and one past the end of the
    last file afterwards. *)
Definition offset_tracks (sf : StorageFile) (sfs : list StorageFile)
  (offset : Z) : Prop :=
  (offset = 0 /\ sfs = [sf]) \/
  (0 < offset /\
   exists l, last sfs = Some l /\ offset = GetEnd l + 1 /\ GetStart l <= offset).

(** A volume that waits for the spec: it is fresh, or it knows the size
    of the spec and holds the entry of the spec file alone. *)
Definition awaits_spec (st : Storage) : Prop :=
  (state_ st = STOR_STATE_INIT /\ sfs_ st = []) \/
  (state_ st = STOR_STATE_MFSPEC_SIZE_KNOWN /\
   exists sf, sfs_ st = [sf] /\ GetStart sf = 0).

(** The object is parsed from: [ParseSpec] ran on an object that held
    the entry of the spec file alone, at start 0, and left [st']. *)
Definition parsed_from_spec_entry (st' : Storage) : Prop :=
  exists sf st0 w0,
    sfs_ st0 = [sf] /\ GetStart sf = 0 /\ st' = (ParseSpec sf st0 w0).1.2.

(** The effect of one call on the object and the system; [None] when the
    call does not return. *)
Definition do_call (c : call) (st : Storage) (w : world)
  : option (Storage * world) :=
  match c with
  | CallWrite fuel buf nbyte offset =>
      match Write fuel buf nbyte offset st w with
      | Some (_, st', w') => Some (st', w')
      | None => None
      end
  | CallRead fuel ht_size nbyte offset =>
      match Read fuel ht_size nbyte offset st w with
      | Some (_, _, st', w') => Some (st', w')
      | None => None
      end
  | CallResizeReserved size =>
      let '(_, st', w') := ResizeReserved size st w in Some (st', w')
  | CallGetReservedSize =>
      let '(_, st', w') := GetReservedSize st w in Some (st', w')
  end.

Fixpoint do_calls (cs : list call) (st : Storage) (w : world)
  : option (Storage * world) :=
  match cs with
  | [] => Some (st, w)
  | c :: rest =>
      match do_call c st w with
      | Some (st', w') => do_calls rest st' w'
      | None => None
      end
  end.

(** A successful [file_resize] gives the file the requested size, and
    [pwrite] never makes a file shorter. *)
Definition file_resize_law : Prop :=
  forall fd size w r w',
    file_resize fd size w = (r, w') -> 0 <= r -> (file_size fd w').1 = size.

Definition pwrite_grows_law : Prop :=
  forall fd fd' buf nbyte offset w,
    (file_size fd w).1
    <= (file_size fd (sys_pwrite fd' buf nbyte offset w).2).1.

(** The result of a call with [reserved_size_] set in the object it
    returns. *)
Definition with_reserved (size : Z) (x : Z * Storage * world)
  : Z * Storage * world :=
  (x.1.1, set_reserved_size size x.1.2, x.2).

(** After a [pwrite] that wrote all of [buf] at an offset, a [pread]
    of that many bytes at that offset returns [buf]. *)
Definition pwrite_pread_law : Prop :=
  forall fd buf nbyte offset w w',
    sys_pwrite fd buf nbyte offset w = (nbyte, w') ->
    Z.of_nat (length buf) = nbyte ->
    (sys_pread fd nbyte offset w').1 = (nbyte, buf).

End Notions.

(** ** A platform: files in memory

    A small file system that the properties of the volume are run on: a
    tree of regular files and directories addressed by path, a table of
    open descriptors, and [errno].  Regular files are byte sequences;
    a write past the end fills the gap with NUL bytes, as [pwrite]
    does. *)
Module MemFS.

Definition EBADF : Z := 9.
Definition EEXIST : Z := 17.
Definition EISDIR : Z := 21.

Inductive node :=
| RegFile (content : list byte)
| Directory.

Record t := mk {
  nodes : gmap string node;
  fds : gmap Z string;
  next_fd : Z;
  err : Z
}.

Definition with_err (e : Z) (w : t) : t := mk (nodes w) (fds w) (next_fd w) e.
Definition with_node (p : string) (n : node) (w : t) : t :=
  mk (<[p := n]> (nodes w)) (fds w) (next_fd w) (err w).

(** The path and the content behind an open descriptor. *)
Definition file_of (fd : Z) (w : t) : option (string * list byte) :=
  match fds w !! fd with
  | Some p =>
      match nodes w !! p with
      | Some (RegFile c) => Some (p, c)
      | _ => None
      end
  | None => None
  end.

Definition write_at (c : list byte) (off : nat) (data : list byte)
  : list byte :=
  firstn off c ++ repeat x00 (off - length c) ++ data
    ++ skipn (off + length data) c.

Definition resize_to (c : list byte) (size : nat) : list byte :=
  firstn size c ++ repeat x00 (size - length c).

Definition open (path : string) (w : t) : Z * t :=
  if String.eqb path "" then (-1, with_err ENOENT w)
  else
    match nodes w !! path with
    | Some Directory => (-1, with_err EISDIR w)
    | Some (RegFile _) =>
        (next_fd w,
         mk (nodes w) (<[next_fd w := path]> (fds w)) (next_fd w + 1) (err w))
    | None =>
        (next_fd w,
         mk (<[path := RegFile []]> (nodes w)) (<[next_fd w := path]> (fds w))
            (next_fd w + 1) (err w))
    end.

Definition pwrite (fd : Z) (buf : list byte) (nbyte offset : Z) (w : t)
  : Z * t :=
  match file_of fd w with
  | None => (-1, with_err EBADF w)
  | Some (p, c) =>
      if (offset <? 0) || (nbyte <? 0) then (-1, with_err EINVAL w)
      else
        let data := firstn (Z.to_nat nbyte) buf in
        (Z.of_nat (length data),
         with_node p (RegFile (write_at c (Z.to_nat offset) data)) w)
  end.

Definition pread (fd : Z) (nbyte offset : Z) (w : t) : Z * list byte * t :=
  match file_of fd w with
  | None => (-1, [], with_err EBADF w)
  | Some (p, c) =>
      if (offset <? 0) || (nbyte <? 0) then (-1, [], with_err EINVAL w)
      else
        let data := firstn (Z.to_nat nbyte) (skipn (Z.to_nat offset) c) in
        (Z.of_nat (length data), data, w)
  end.

Definition stat (path : string) (w : t) : Z * bool * t :=
  match nodes w !! path with
  | Some Directory => (0, true, w)
  | Some (RegFile _) => (0, false, w)
  | None => (-1, false, with_err ENOENT w)
  end.

Definition mkdir (path : string) (w : t) : Z * t :=
  match nodes w !! path with
  | Some _ => (-1, with_err EEXIST w)
  | None => (0, with_node path Directory w)
  end.

Definition fopen_rb (path : string) (w : t) : option (list byte) * t :=
  match nodes w !! path with
  | Some (RegFile c) => (Some c, w)
  | Some Directory => (None, with_err EISDIR w)
  | None => (None, with_err ENOENT w)
  end.

Definition fsize (fd : Z) (w : t) : Z * t :=
  match file_of fd w with
  | Some (_, c) => (Z.of_nat (length c), w)
  | None => (-1, with_err EBADF w)
  end.

Definition fsize_by_path (path : string) (w : t) : Z * t :=
  match nodes w !! path with
  | Some (RegFile c) => (Z.of_nat (length c), w)
  | Some Directory => (0, w)
  | None => (-1, with_err ENOENT w)
  end.

Definition fresize (fd : Z) (size : Z) (w : t) : Z * t :=
  match file_of fd w with
  | None => (-1, with_err EBADF w)
  | Some (p, c) =>
      if size <? 0 then (-1, with_err EINVAL w)
      else (0, with_node p (RegFile (resize_to c (Z.to_nat size))) w)
  end.

(** A system with the given regular files, nothing open. *)
Definition init (files : list (string * list byte)) : t :=
  mk (list_to_map (map (fun pc => (fst pc, RegFile (snd pc))) files)) ∅ 3 0.

End MemFS.

#[export] Instance MemPlatform : Platform := {|
  world := MemFS.t;
  FILE_SEP := "/";
  MULTIFILE_MAX_LINE := 2082;
  errno := MemFS.err;
  set_errno := MemFS.with_err;
  sys_open := MemFS.open;
  sys_pwrite := MemFS.pwrite;
  sys_pread := MemFS.pread;
  sys_stat := MemFS.stat;
  sys_mkdir := MemFS.mkdir;
  sys_fopen_rb := MemFS.fopen_rb;
  file_size := MemFS.fsize;
  file_size_by_path := MemFS.fsize_by_path;
  file_resize := MemFS.fresize
|}.

(** ** Scenarios *)

Definition nl : string := String "010" EmptyString.
Definition bytes (s : string) : list byte := list_byte_of_string s.

(** A multi-file spec of 40 bytes for the files [a/b] and [c], and the
    chunk in which a leecher receives the spec and the content of both
    files at once. *)
Definition s2_spec : string :=
  "META-INF-multifilespec.txt 40" ++ nl ++ "a/b 3" ++ nl ++ "c 5" ++ nl.
Definition s2_chunk : list byte := bytes (s2_spec ++ "xyzHELLO").

(** A spec with a size of twenty digits, which no [int64_t] holds. *)
Definition overflow_spec : string :=
  "META-INF-multifilespec.txt 57" ++ nl ++ "b 99999999999999999999" ++ nl
    ++ "c 1" ++ nl.

(** A spec with a negative size, and one with a blank size. *)
Definition negative_spec : string :=
  "META-INF-multifilespec.txt 39" ++ nl ++ "a -5" ++ nl ++ "b 7" ++ nl.
Definition blank_size_spec : string :=
  "META-INF-multifilespec.txt 33" ++ nl ++ "a " ++ nl.

(** A seeder: the volume the constructor makes of a spec file on disk. *)
Definition seeded (pathname : string) (spec : string)
  : option (Storage * MemFS.t) :=
  new_Storage pathname [] (MemFS.init [(pathname, bytes spec)]).

(** The state of the constructor of [Storage] at its call of [ParseSpec]:
    the entry for the spec file has been pushed. *)
Definition at_parse (pathname : string) (spec : string)
  : StorageFile * Storage * MemFS.t :=
  let w := MemFS.init [(pathname, bytes spec)] in
  let '(sf, w1) :=
    new_StorageFile pathname 0 (Z.of_nat (String.length spec)) w in
  (sf, push_back sf (set_state STOR_STATE_MFSPEC_COMPLETE (st_init pathname)),
   w1).

(** A volume opened on a spec whose last file, [a/b], cannot be created:
    [a] is a regular file, so the constructor of [StorageFile] leaves the
    descriptor of [a/b] at -1. *)
Definition blocked_spec : string :=
  "META-INF-multifilespec.txt 40" ++ nl ++ "c 4" ++ nl ++ "a/b 4" ++ nl.
Definition blocked_volume : Storage * MemFS.t :=
  default (st_init "", MemFS.init [])
    (new_Storage "m.spec" []
       (MemFS.init [("m.spec"%string, bytes blocked_spec);
                    ("a"%string, bytes "x")])).

(** A leecher after the chunk [s2_chunk]. *)
Definition s2_volume : Storage * MemFS.t :=
  match Write 10 s2_chunk 48 0 (st_init "/tmp/m") (MemFS.init []) with
  | Some (_, st, w) => (st, w)
  | None => (st_init "", MemFS.init [])
  end.

(** A leecher after the first 32 bytes of [s2_chunk]. *)
Definition s3_volume : Storage * MemFS.t :=
  match Write 10 (firstn 32 s2_chunk) 32 0 (st_init "/tmp/m") (MemFS.init [])
  with
  | Some (_, st, w) => (st, w)
  | None => (st_init "", MemFS.init [])
  end.

(** A system in which [d] is a directory. *)
Definition dir_world : MemFS.t := (MemFS.mkdir "d" (MemFS.init [])).2.

(** A leecher of a single file after its first chunk. *)
Definition s1_volume : Storage * MemFS.t :=
  match Write 10 (bytes "ABCDEFGH") 8 0 (st_init "/tmp/v") (MemFS.init []) with
  | Some (_, st, w) => (st, w)
  | None => (st_init "", MemFS.init [])
  end.

(** ** Destruction: [StorageFile::~StorageFile] and [Storage::~Storage] *)

Section Destructors.
Context {P : Platform}.

(** [close(fd)] is not among the calls of [Platform]; the destructors
    take it as a parameter. *)
Variable sys_close : Z -> world -> Z * world.

(** [StorageFile::~StorageFile]: [if (fd_ < 0) close(fd_);]. *)
Definition delete_StorageFile (sf : StorageFile) (w : world) : world :=
  if fd_ sf <? 0 then (sys_close (fd_ sf) w).2 else w.

(** The loop of [Storage::~Storage] over [sfs_]. *)
Fixpoint delete_loop (sfs : list StorageFile) (w : world) : world :=
  match sfs with
  | [] => w
  | sf :: rest => delete_loop rest (delete_StorageFile sf w)
  end.

(** [Storage::~Storage]; [sfs_.clear()] leaves the vector empty. *)
Definition delete_Storage (st : Storage) (w : world) : Storage * world :=
  let w1 :=
    if negb (single_fd_ st =? -1) then (sys_close (single_fd_ st) w).2
    else w in
  (mkStorage (state_ st) (spec_size_ st) (single_fd_ st) (reserved_size_ st)
             (os_pathname_ st) [],
   delete_loop (sfs_ st) w1).

End Destructors.

(** [close] on the files in memory: the descriptor leaves the table. *)
Definition MemFS_close (fd : Z) (w : MemFS.t) : Z * MemFS.t :=
  match MemFS.fds w !! fd with
  | Some _ =>
      (0, MemFS.mk (MemFS.nodes w) (delete fd (MemFS.fds w))
                   (MemFS.next_fd w) (MemFS.err w))
  | None => (-1, MemFS.with_err MemFS.EBADF w)
  end.

(** ** The bytes of a multi-file volume in memory *)





(** A spec whose third line has an unsafe path. *)
Definition unsafe_tail_spec : string :=
  "META-INF-multifilespec.txt 47" ++ nl ++ "c 4" ++ nl ++ "../x 4" ++ nl
    ++ "d 4" ++ nl.

(** ** Further notions *)

(** A call other than the [Write] of a first chunk (one at offset 0),
    and a call that has the stack to run. *)
Definition not_first_chunk (c : call) : Prop :=
  match c with
  | CallWrite _ _ _ offset => offset <> 0
  | _ => True
  end.

Definition has_fuel (c : call) : Prop :=
  match c with
  | CallWrite fuel _ _ _ => (0 < fuel)%nat
  | CallRead fuel _ _ _ => (0 < fuel)%nat
  | _ => True
  end.

(** What a file stands for in the volume: its path in the spec and the
    first and the last offset it holds. *)
Definition file_extent (sf : StorageFile) : string * Z * Z :=
  (GetSpecPathName sf, GetStart sf, GetEnd sf).

(** The layout that the lines of a spec describe from [offset] on: each
    line is a file that starts where the one before it ends. *)
Fixpoint spec_layout (lines : list (list byte)) (offset : Z)
  : list (string * Z * Z) :=
  match lines with
  | [] => []
  | line :: rest =>
      (line_specpath line, offset, offset + line_fsize line - 1)
        :: spec_layout rest (offset + line_fsize line)
  end.

(** A string with a space in it. *)
Definition has_space (s : string) : Prop :=
  exists a b, s = (a ++ " " ++ b)%string.

(** What the calls keep true of a volume: in the multi-file states
    [sfs_] holds a file, and [single_fd_] is -1 outside
    [STOR_STATE_SINGLE_FILE]. *)
Definition volume_ok (st : Storage) : Prop :=
  (state_ st = STOR_STATE_MFSPEC_SIZE_KNOWN \/
   state_ st = STOR_STATE_MFSPEC_COMPLETE -> sfs_ st <> []) /\
  (state_ st <> STOR_STATE_SINGLE_FILE -> single_fd_ st = -1).

(** How a call may change the object: the path of the volume stays,
    [sfs_] grows at its end, and [volume_ok] is kept. *)
Definition evolves (st st' : Storage) : Prop :=
  os_pathname_ st' = os_pathname_ st /\
  sfs_ st `prefix_of` sfs_ st' /\
  (volume_ok st -> volume_ok st').

Section FurtherNotions.
Context {P : Platform}.

(** [stat] on the path of a file of the volume succeeds with the size
    [s] and leaves the system as it is. *)
Definition stat_gives (w : world) (sf : StorageFile) (s : Z) : Prop :=
  file_size_by_path (GetSpecPathName sf) w = (s, w) /\ 0 <= s.

(** [pread] returns a negative status, or the number of bytes it stored,
    which is at most the number asked for. *)
Definition pread_bounded_law : Prop :=
  forall fd nbyte offset w,
    let '(r, data, _) := sys_pread fd nbyte offset w in
    r < 0 \/ (r = Z.of_nat (length data) /\ r <= nbyte).

(** [path] is a directory: [stat] succeeds and reports [S_IFDIR]. *)
Definition is_dir (path : string) (w : world) : Prop :=
  (sys_stat path w).1 = (0, true).

(** What the constructor of [StorageFile] needs of [stat], [mkdir] and
    [open]: [stat] returns 0 or fails with [ENOENT]; none of the calls
    removes a directory; a successful [mkdir] makes one. *)
Record dir_laws : Prop := {
  stat_status : forall path w,
    (sys_stat path w).1.1 = 0 \/
    ((sys_stat path w).1.1 < 0 /\ errno (sys_stat path w).2 = ENOENT);
  stat_keeps : forall path q w, is_dir q w -> is_dir q (sys_stat path w).2;
  mkdir_makes : forall path w,
    0 <= (sys_mkdir path w).1 -> is_dir path (sys_mkdir path w).2;
  mkdir_keeps : forall path q w, is_dir q w -> is_dir q (sys_mkdir path w).2;
  open_keeps : forall path q w, is_dir q w -> is_dir q (sys_open path w).2
}.

(** The separator of the platform stands at position [j] of [p]. *)
Definition sep_at (p : string) (j : nat) : Prop :=
  substr p j (String.length FILE_SEP) = FILE_SEP.

End FurtherNotions.

(** ** The ranges of the C++ integer types

    Outside the parser the embedding computes in [Z].  In two places
    storage.cpp computes something else than [Z] does when a number is
    negative or large: the test [offset+nbyte <= sf->GetEnd()+1] of
    [WriteBuffer] has an operand of type [size_t], so that its two sides
    are compared as unsigned 64-bit numbers; and [int ret] keeps the low
    32 bits of the count it is assigned.  The notions below delimit
    executions in which the machine computes what [Z] computes, and
    parses in which no sum wraps around. *)

(** The value of an expression of the unsigned 64-bit type [size_t] that
    has the value [x] in [Z]. *)
Definition to_size_t (x : Z) : Z := x mod 2 ^ 64.

(** The value that an [int] holds of the count [x]. *)
Definition to_int (x : Z) : Z := (x + 2 ^ 31) mod 2 ^ 32 - 2 ^ 31.

(** The test of line 225, [offset+nbyte <= sf->GetEnd()+1], as the
    machine evaluates it: [nbyte] is a [size_t], so [offset] and
    [sf->GetEnd()+1] are converted to [size_t] and the comparison is one
    of unsigned numbers. *)
Definition covers_unsigned (sf : StorageFile) (nbyte offset : Z) : bool :=
  to_size_t (offset + nbyte) <=? to_size_t (GetEnd sf + 1).

(** The sizes of a spec fit [int64_t]: no size that the loop of
    [ParseSpec] adds to its running [offset] (the size of the spec file
    while [offset] is 0, the size read from the line afterwards) is
    negative, and [offset] never exceeds [INT64_MAX].  Then no start, no
    end and no offset wraps around (and no size was cut by [sscanf]: a
    size of [INT64_MAX] does not fit after the first file). *)
Fixpoint sizes_fit (sf : StorageFile) (lines : list (list byte)) (offset : Z)
  : Prop :=
  match lines with
  | [] => True
  | line :: rest =>
      let size := if offset =? 0 then GetSize sf else line_fsize line in
      0 <= size /\ offset + size <= INT64_MAX /\
      sizes_fit sf rest (offset + size)
  end.

(** The size that the calls [cs] leave reserved on a volume on which
    [size] was reserved before them: the size of the last
    [ResizeReserved] among them. *)
Fixpoint last_reserved (cs : list call) (size : Z) : Z :=
  match cs with
  | [] => size
  | CallResizeReserved size' :: rest => last_reserved rest size'
  | _ :: rest => last_reserved rest size
  end.

(** The number of calls of [Write] and [Read] among [cs]. *)
Fixpoint writes_and_reads (cs : list call) : nat :=
  match cs with
  | [] => O
  | CallWrite _ _ _ _ :: rest => S (writes_and_reads rest)
  | CallRead _ _ _ _ :: rest => S (writes_and_reads rest)
  | _ :: rest => writes_and_reads rest
  end.

Section RangeNotions.
Context {P : Platform}.

(** [pwrite] returns -1 or the number of bytes it wrote, which is at
    most the number it was given. *)
Definition pwrite_bounded_law : Prop :=
  forall fd buf nbyte offset w,
    (sys_pwrite fd buf nbyte offset w).1 = -1 \/
    0 <= (sys_pwrite fd buf nbyte offset w).1 <= nbyte.

End RangeNotions.

(** ** A first chunk that is sent again *)

Definition MemFS_ENOTDIR : Z := 20.

(** [rmdir] on the files in memory. *)
Definition MemFS_rmdir (path : string) (w : MemFS.t) : Z * MemFS.t :=
  match MemFS.nodes w !! path with
  | Some MemFS.Directory =>
      (0, MemFS.mk (delete path (MemFS.nodes w)) (MemFS.fds w)
                   (MemFS.next_fd w) (MemFS.err w))
  | Some (MemFS.RegFile _) => (-1, MemFS.with_err MemFS_ENOTDIR w)
  | None => (-1, MemFS.with_err ENOENT w)
  end.

(** A system in which a directory stands at the path of the spec
    file: the spec file cannot be opened, and the first chunk of a
    leecher fails. *)
Definition spec_is_dir_world : MemFS.t :=
  (MemFS.mkdir MULTIFILE_PATHNAME (MemFS.init [])).2.

(** The leecher after the chunk [s2_chunk] failed on
    [spec_is_dir_world]. *)
Definition failed_first_chunk : Storage * MemFS.t :=
  match Write 10 s2_chunk 48 0 (st_init "/tmp/m") spec_is_dir_world with
  | Some (_, st, w) => (st, w)
  | None => (st_init "", MemFS.init [])
  end.

(** The same leecher after the directory was removed and the chunk was
    sent again. *)
Definition retried_volume : Storage * MemFS.t :=
  match Write 10 s2_chunk 48 0 failed_first_chunk.1
          (MemFS_rmdir MULTIFILE_PATHNAME failed_first_chunk.2).2 with
  | Some (_, st, w) => (st, w)
  | None => (st_init "", MemFS.init [])
  end.

(** * Properties *)

(** ** Properties of the offset index *)

Lemma quot_mid (imin imax : Z) :
  imin <= imax -> imin <= (imin + imax) `quot` 2 <= imax.
Proof.
  intros H. destruct (Z_le_gt_dec 0 (imin + imax)) as [Hs|Hs].
  - rewrite Z.quot_div_nonneg by lia. split.
    + apply Z.div_le_lower_bound; lia.
    + apply Z.div_le_upper_bound; lia.
  - pose proof (Z.quot_opp_l (- (imin + imax)) 2 ltac:(lia)) as E.
    rewrite Z.opp_involutive in E. rewrite E.
    rewrite Z.quot_div_nonneg by lia.
    assert (- (imin + imax) / 2 <= - imin)
      by (apply Z.div_le_upper_bound; lia).
    assert (- imax <= - (imin + imax) / 2)
      by (apply Z.div_le_lower_bound; lia).
    lia.
Qed.







Lemma FindStorageFile_loop_sound sfs o imin imax sf :
  FindStorageFile_loop sfs o imin imax = Some sf ->
  sf ∈ sfs /\ contains sf o.
Proof.
  funelim (FindStorageFile_loop sfs o imin imax);
    try discriminate; try (now auto).
  intros E. injection E as E. subst. split.
  - eapply list_elem_of_lookup_2; eassumption.
  - unfold contains. lia.
Qed.


(** The index the loop reads is inside the vector whenever the bounds
    are: the search of [FindStorageFile] never leaves [sfs_]. *)
Lemma FindStorageFile_loop_index (sfs : list StorageFile) (imin imax : Z) :
  0 <= imin -> imin <= imax -> imax < Z.of_nat (length sfs) ->
  is_Some (sfs !! Z.to_nat ((imin + imax) `quot` 2)).
Proof.
  intros H0 Hle Hlt. pose proof (quot_mid imin imax Hle).
  apply lookup_lt_is_Some. lia.
Qed.




(** ** Properties of the parser of the multi-file spec *)

Lemma substr_head_sep (p : string) :
  String.eqb (substr p 0 1) MULTIFILE_PATHNAME_FILE_SEP = true <->
  starts_with_sep p.
Proof.
  unfold starts_with_sep, substr, MULTIFILE_PATHNAME_FILE_SEP. split.
  - destruct p as [|c p]; simpl; [discriminate|].
    replace (substring 0 0 p) with EmptyString by (destruct p; reflexivity).
    destruct (Ascii.eqb_spec c "/") as [->|]; [|discriminate].
    intros _. exists p. reflexivity.
  - intros [r ->]. destruct r; reflexivity.
Qed.

Lemma prefix_dotdot (s : string) :
  String.prefix ".." s = true <-> exists b, s = (".." ++ b)%string.
Proof.
  split.
  - destruct s as [|c1 [|c2 s]]; cbn [String.prefix]; try discriminate.
    + destruct (ascii_dec "." c1); intros; discriminate.
    + destruct (ascii_dec "." c1) as [<-|]; [|intros; discriminate].
      destruct (ascii_dec "." c2) as [<-|]; [|intros; discriminate].
      intros _. exists s. reflexivity.
  - intros [b ->]. destruct b; reflexivity.
Qed.

Lemma find_dotdot_spec (p : string) :
  match str_find ".." p 0 with
  | Some _ => contains_dotdot p
  | None => ~ contains_dotdot p
  end.
Proof.
  unfold str_find, contains_dotdot. induction p as [|c p IH].
  - simpl. intros (a & b & H). destruct a; discriminate.
  - cbn [index]. destruct (String.prefix ".." (String c p)) eqn:Hp.
    + apply prefix_dotdot in Hp as [b Hb]. exists EmptyString, b. exact Hb.
    + destruct (index 0 ".." p) as [n|] eqn:Hi.
      * destruct IH as (a & b & ->). exists (String c a), b. reflexivity.
      * intros (a & b & H). destruct a as [|c' a].
        -- assert (String.prefix ".." (String c p) = true)
             by (apply prefix_dotdot; exists b; exact H).
           congruence.
        -- injection H as -> ->. apply IH. eauto.
Qed.

Lemma find_dotdot_none (p : string) :
  str_find ".." p 0 = None <-> ~ contains_dotdot p.
Proof.
  pose proof (find_dotdot_spec p) as H.
  destruct (str_find ".." p 0); split; auto; try discriminate.
  intros Hn. contradiction.
Qed.

Lemma scan_number_none (s : string) :
  scan_number s = None <->
  match s with
  | EmptyString => True
  | String d _ => is_digit d = false
  end.
Proof.
  unfold scan_number, is_digit. destruct s as [|d r]; [tauto|].
  destruct (digit_val d); split; intros; congruence.
Qed.

(** [sscanf] returns 0 on the fields that hold something that is not a
    number, and [EOF] on the blank ones. *)
Lemma sscanf_no_match (s : string) :
  scan_count (sscanf_lld s) = 0 <-> not_a_number s.
Proof.
  unfold sscanf_lld, not_a_number, is_sign.
  destruct (skip_spaces s) as [|c r]; [cbn; split; [discriminate|tauto]|].
  destruct (Ascii.eqb c "-") eqn:Hm; cbn [orb].
  - rewrite <- scan_number_none.
    destruct (scan_number r); cbn; split; congruence.
  - destruct (Ascii.eqb c "+") eqn:Hp; cbn [orb].
    + rewrite <- scan_number_none.
      destruct (scan_number r); cbn; split; congruence.
    + change (is_digit c = false)
        with (match String c r with
              | EmptyString => True
              | String d _ => is_digit d = false
              end).
      rewrite <- scan_number_none.
      destruct (scan_number (String c r)); cbn; split; congruence.
Qed.

Lemma sscanf_eof (s : string) :
  scan_count (sscanf_lld s) = -1 <-> blank s.
Proof.
  unfold sscanf_lld, blank.
  destruct (skip_spaces s) as [|c r]; [cbn; tauto|].
  split; [|discriminate].
  destruct (Ascii.eqb c "-"); [destruct (scan_number r); discriminate|].
  destruct (Ascii.eqb c "+"); [destruct (scan_number r); discriminate|].
  destruct (scan_number (String c r)); discriminate.
Qed.

Lemma not_a_number_not_ok (line : list byte) :
  not_a_number (line_sizestr line) -> line_ok line = false.
Proof.
  intros H. apply sscanf_no_match in H. unfold line_ok. rewrite H. reflexivity.
Qed.

Lemma line_ok_safe (line : list byte) :
  line_ok line = true -> ~ unsafe_path (line_specpath line).
Proof.
  unfold line_ok. intros H.
  apply andb_true_iff in H as [H Hdd]. apply andb_true_iff in H as [_ Hsep].
  intros [Hu|Hu].
  - apply substr_head_sep in Hu. rewrite Hu in Hsep. discriminate.
  - pose proof (find_dotdot_spec (line_specpath line)) as Hs.
    destruct (str_find ".." (line_specpath line) 0); [discriminate|].
    contradiction.
Qed.

Lemma unsafe_line_not_ok (line : list byte) :
  unsafe_path (line_specpath line) -> line_ok line = false.
Proof.
  intros Hu. destruct (line_ok line) eqn:E; [|reflexivity].
  exfalso. exact (line_ok_safe line E Hu).
Qed.

Section Parser.
Context {P : Platform}.

Lemma new_StorageFile_fields utf8path start size w sf w' :
  new_StorageFile utf8path start size w = (sf, w') ->
  spec_pathname_ sf = utf8path /\ start_ sf = start /\
  end_ sf = to_int64 (start + size - 1).
Proof.
  unfold new_StorageFile. intros H.
  destruct (match str_find FILE_SEP (spec2ospn utf8path) 0 with
            | Some _ => _ | None => _ end) as [ok w1].
  destruct ok.
  - destruct (sys_open _ w1) as [fd w2]. injection H as <- _. auto.
  - injection H as <- _. auto.
Qed.

(** One round of the loop. *)
Lemma ParseSpec_loop_cons sf line rest offset st w :
  ParseSpec_loop sf (line :: rest) offset st w =
  if line_ok line then
    if offset =? 0
    then ParseSpec_loop sf rest (to_int64 (offset + GetSize sf)) st w
    else
      let '(sf', w') :=
        new_StorageFile (line_specpath line) offset (line_fsize line) w in
      ParseSpec_loop sf rest (to_int64 (offset + line_fsize line))
                     (push_back sf' st) w'
  else (-1, st, w).
Proof.
  cbn [ParseSpec_loop]. unfold line_ok, line_fsize, line_specpath, line_sizestr.
  destruct (split_line (cstr line)) as [specpath sizestr]. cbn [fst snd].
  destruct (scan_count (sscanf_lld sizestr) =? 0); [reflexivity|].
  destruct (String.eqb (substr specpath 0 1) MULTIFILE_PATHNAME_FILE_SEP);
    [reflexivity|].
  destruct (str_find ".." specpath 0); reflexivity.
Qed.

(** The loop only appends to [sfs_], every file it appends has a safe
    path, and its status is 0 or -1. *)
Lemma ParseSpec_loop_appends sf lines offset st w r st' w' :
  ParseSpec_loop sf lines offset st w = (r, st', w') ->
  exists added,
    st' = mkStorage (state_ st) (spec_size_ st) (single_fd_ st)
                    (reserved_size_ st) (os_pathname_ st) (sfs_ st ++ added) /\
    Forall (fun f => ~ unsafe_path (spec_pathname_ f)) added /\
    (r = 0 \/ r = -1).
Proof.
  revert offset st w. induction lines as [|line rest IH]; intros offset st w H.
  - injection H as <- <- <-. exists []. rewrite app_nil_r.
    destruct st; auto.
  - rewrite ParseSpec_loop_cons in H. destruct (line_ok line) eqn:Hok.
    + destruct (offset =? 0).
      * eauto.
      * destruct (new_StorageFile _ _ _ w) as [sf' w1] eqn:Hnew.
        apply IH in H as (added & -> & Hsafe & Hr).
        exists (sf' :: added). cbn. rewrite <- app_assoc. split; [reflexivity|].
        split; [|exact Hr]. constructor; [|exact Hsafe].
        apply new_StorageFile_fields in Hnew as (-> & _).
        exact (line_ok_safe line Hok).
    + injection H as <- <- <-. exists []. rewrite app_nil_r.
      destruct st; auto.
Qed.

Lemma ParseSpec_appends sf st w r st' w' :
  ParseSpec sf st w = (r, st', w') ->
  exists added,
    st' = mkStorage (state_ st) (spec_size_ st) (single_fd_ st)
                    (reserved_size_ st) (os_pathname_ st) (sfs_ st ++ added) /\
    Forall (fun f => ~ unsafe_path (spec_pathname_ f)) added /\
    (r = 0 \/ r = -1).
Proof.
  unfold ParseSpec. destruct (sys_fopen_rb _ w) as [[content|] w1].
  - apply ParseSpec_loop_appends.
  - intros H. injection H as <- <- <-. exists []. rewrite app_nil_r.
    destruct st; auto.
Qed.

Lemma ParseSpec_state sf st w r st' w' :
  ParseSpec sf st w = (r, st', w') -> state_ st' = state_ st.
Proof.
  intros H. apply ParseSpec_appends in H as (added & -> & _). reflexivity.
Qed.

(** A line with an unsafe path ends the loop with -1 and appends
    nothing. *)
Lemma ParseSpec_loop_unsafe_head sf line rest offset st w :
  unsafe_path (line_specpath line) ->
  ParseSpec_loop sf (line :: rest) offset st w = (-1, st, w).
Proof.
  intros Hu. rewrite ParseSpec_loop_cons, (unsafe_line_not_ok line Hu).
  reflexivity.
Qed.

(** With a line anywhere among the lines that does not pass the tests,
    the status is -1. *)
Lemma ParseSpec_loop_bad_line_fails sf lines offset st w :
  Exists (fun line => line_ok line = false) lines ->
  (ParseSpec_loop sf lines offset st w).1.1 = -1.
Proof.
  revert offset st w. induction lines as [|line rest IH]; intros offset st w Hex.
  - inversion Hex.
  - rewrite ParseSpec_loop_cons. destruct (line_ok line) eqn:Hok; [|reflexivity].
    assert (Hrest : Exists (fun l => line_ok l = false) rest).
    { inversion Hex as [? ? Hu|]; subst; [congruence|assumption]. }
    destruct (offset =? 0); [auto|].
    destruct (new_StorageFile _ _ _ w) as [sf' w1]. auto.
Qed.

Lemma ParseSpec_bad_line_fails sf st w :
  Exists (fun line => line_ok line = false) (spec_lines sf w) ->
  (ParseSpec sf st w).1.1 = -1.
Proof.
  unfold ParseSpec, spec_lines.
  destruct (sys_fopen_rb (GetSpecPathName sf) w) as [[content|] w1].
  - apply ParseSpec_loop_bad_line_fails.
  - reflexivity.
Qed.

End Parser.

Lemma sorted_by_start_snoc (l : list StorageFile) (x : StorageFile) :
  sorted_by_start l ->
  (forall y, last l = Some y -> GetStart y <= GetStart x) ->
  sorted_by_start (l ++ [x]).
Proof.
  induction l as [|a l IH]; intros Hs Hlast; [exact I|].
  destruct l as [|b l].
  - simpl. split; [|exact I]. apply Hlast. reflexivity.
  - destruct Hs as [Hab Hs]. split; [exact Hab|].
    apply IH; [exact Hs|]. intros y Hy. apply Hlast. exact Hy.
Qed.

Lemma contiguous_snoc (l : list StorageFile) (x : StorageFile) :
  contiguous l ->
  (forall y, last l = Some y -> GetEnd y + 1 = GetStart x) ->
  contiguous (l ++ [x]).
Proof.
  induction l as [|a l IH]; intros Hc Hlast; [exact I|].
  destruct l as [|b l].
  - simpl. split; [|exact I]. apply Hlast. reflexivity.
  - destruct Hc as [Hab Hc]. split; [exact Hab|].
    apply IH; [exact Hc|]. intros y Hy. apply Hlast. exact Hy.
Qed.

Section ParserInvariant.
Context {P : Platform}.

(** A sum that an [int64_t] holds is the sum the machine computes. *)
Lemma to_int64_small (x : Z) : INT64_MIN <= x <= INT64_MAX -> to_int64 x = x.
Proof.
  unfold to_int64, INT64_MIN, INT64_MAX. intros H.
  rewrite Z.mod_small by lia. lia.
Qed.

Lemma ParseSpec_loop_invariant sf lines offset st w r st' w' :
  GetStart sf = 0 ->
  sorted_by_start (sfs_ st) -> contiguous (sfs_ st) ->
  sfs_ st !! 0%nat = Some sf ->
  offset_tracks sf (sfs_ st) offset ->
  sizes_fit sf lines offset ->
  ParseSpec_loop sf lines offset st w = (r, st', w') ->
  sorted_by_start (sfs_ st') /\ contiguous (sfs_ st') /\
  sfs_ st' !! 0%nat = Some sf.
Proof.
  intros Hstart. revert offset st w.
  induction lines as [|line rest IH]; intros offset st w Hs Hc Hhd Htr Hfit H.
  - injection H as _ <- _. auto.
  - rewrite ParseSpec_loop_cons in H.
    destruct (line_ok line); [|injection H as _ <- _; auto].
    cbn [sizes_fit] in Hfit.
    destruct (offset =? 0) eqn:Hoff; destruct Hfit as (Hsize & Hmax & Hfit).
    + apply Z.eqb_eq in Hoff. subst offset.
      rewrite to_int64_small in H by (unfold INT64_MIN; lia).
      apply (IH _ _ _ Hs Hc Hhd) in H; [exact H| |exact Hfit].
      destruct Htr as [[_ Hone]|[Hpos _]]; [|lia].
      unfold offset_tracks. rewrite Hone.
      destruct (Z.eq_dec (GetSize sf) 0) as [Hz|Hnz].
      * left. split; [lia|reflexivity].
      * right. split; [lia|]. exists sf. unfold GetSize, GetStart in *.
        cbn. unfold GetEnd. repeat split; lia.
    + apply Z.eqb_neq in Hoff.
      destruct Htr as [[Hzero _]|(Hpos & l & Hlast & Hend & Hle)]; [lia|].
      destruct (new_StorageFile _ _ _ w) as [sf' w1] eqn:Hnew.
      apply new_StorageFile_fields in Hnew as (_ & Hst' & Hend').
      rewrite to_int64_small in Hend' by (unfold INT64_MIN; lia).
      rewrite to_int64_small in H by (unfold INT64_MIN; lia).
      apply IH in H; [exact H| | | | |exact Hfit]; cbn [push_back sfs_].
      * apply sorted_by_start_snoc; [exact Hs|].
        intros y Hy. unfold GetStart. rewrite Hst'.
        rewrite Hlast in Hy. injection Hy as <-. exact Hle.
      * apply contiguous_snoc; [exact Hc|].
        intros y Hy. unfold GetStart. rewrite Hst'.
        rewrite Hlast in Hy. injection Hy as <-. lia.
      * apply lookup_app_l_Some. exact Hhd.
      * right. split; [lia|]. exists sf'. rewrite last_snoc.
        unfold GetEnd, GetStart. rewrite Hst', Hend'.
        repeat split; lia.
Qed.

Lemma ParseSpec_invariant sf st w :
  sfs_ st = [sf] -> GetStart sf = 0 ->
  sizes_fit sf (spec_lines sf w) 0 ->
  sorted_by_start (sfs_ (ParseSpec sf st w).1.2) /\
  contiguous (sfs_ (ParseSpec sf st w).1.2) /\
  sfs_ (ParseSpec sf st w).1.2 !! 0%nat = Some sf.
Proof.
  intros Hone Hstart. unfold ParseSpec, spec_lines.
  destruct (sys_fopen_rb (GetSpecPathName sf) w) as [[content|] w1].
  - destruct (ParseSpec_loop sf _ 0 st w1) as [[r st'] w'] eqn:E.
    cbn [fst snd]. intros Hfit.
    apply (ParseSpec_loop_invariant _ _ _ _ _ _ _ _ Hstart) in E;
      rewrite ?Hone; cbn; auto.
    left. auto.
  - cbn. rewrite Hone. cbn. auto.
Qed.

End ParserInvariant.

(** ** The parser: what holds of [sfs_] after [ParseSpec] *)

Section ParserTheorems.
Context {P : Platform}.

(** C3, amended.  A line whose path starts with [/] or contains [..]
    ends the parse with -1 and is not appended; the parse of a spec with
    such a line returns -1; and every file that [ParseSpec] appends to
    [sfs_] has a path that neither starts with [/] nor contains [..].
    (The first entry of [sfs_] is not appended by [ParseSpec]: it carries
    the path the volume was opened with.) *)
Theorem ParseSpec_rejects_unsafe_paths (sf : StorageFile) (st : Storage)
  (w : world) :
  (forall line rest offset st0 w0,
     unsafe_path (line_specpath line) ->
     ParseSpec_loop sf (line :: rest) offset st0 w0 = (-1, st0, w0)) /\
  (Exists (fun line => unsafe_path (line_specpath line)) (spec_lines sf w) ->
   (ParseSpec sf st w).1.1 = -1) /\
  (exists added,
     sfs_ (ParseSpec sf st w).1.2 = sfs_ st ++ added /\
     Forall (fun f => ~ unsafe_path (spec_pathname_ f)) added).
Proof.
  split; [|split].
  - intros. apply ParseSpec_loop_unsafe_head. assumption.
  - intros Hex. apply ParseSpec_bad_line_fails.
    apply (Exists_impl _ _ _ Hex). intros line. apply unsafe_line_not_ok.
  - destruct (ParseSpec sf st w) as [[r st'] w'] eqn:E.
    apply ParseSpec_appends in E as (added & -> & Hsafe & _).
    exists added. auto.
Qed.

(** C4, amended.  A line whose size field holds, after its leading white
    space, something that is not a number (a character that is neither a
    digit nor a sign, or a sign that no digit follows) ends the parse with
    -1 and is not appended; the parse of a spec with such a line returns
    -1. *)
Theorem ParseSpec_rejects_size_without_number (sf : StorageFile)
  (st : Storage) (w : world) :
  (forall line rest offset st0 w0,
     not_a_number (line_sizestr line) ->
     ParseSpec_loop sf (line :: rest) offset st0 w0 = (-1, st0, w0)) /\
  (Exists (fun line => not_a_number (line_sizestr line)) (spec_lines sf w) ->
   (ParseSpec sf st w).1.1 = -1).
Proof.
  split.
  - intros line rest offset st0 w0 H.
    rewrite ParseSpec_loop_cons, (not_a_number_not_ok line H). reflexivity.
  - intros Hex. apply ParseSpec_bad_line_fails.
    apply (Exists_impl _ _ _ Hex). intros line. apply not_a_number_not_ok.
Qed.

(** A blank size field, on which [sscanf] returns [EOF], passes the test
    [n == 0]: the line is used with the size 0. *)
Lemma ParseSpec_loop_blank_size sf line rest offset st w :
  blank (line_sizestr line) ->
  ~ unsafe_path (line_specpath line) ->
  offset <> 0 ->
  ParseSpec_loop sf (line :: rest) offset st w =
  let '(sf', w') := new_StorageFile (line_specpath line) offset 0 w in
  ParseSpec_loop sf rest (to_int64 (offset + 0)) (push_back sf' st) w'.
Proof.
  intros H Hsafe Hoff. rewrite ParseSpec_loop_cons.
  apply sscanf_eof in H.
  assert (Heof : sscanf_lld (line_sizestr line) = ScanEOF)
    by (destruct (sscanf_lld (line_sizestr line)); cbn in H; congruence).
  assert (Hok : line_ok line = true).
  { unfold line_ok. rewrite Heof. cbn.
    destruct (String.eqb _ _) eqn:Hsep.
    - exfalso. apply Hsafe. left. apply substr_head_sep. exact Hsep.
    - pose proof (find_dotdot_spec (line_specpath line)) as Hdd.
      destruct (str_find ".." (line_specpath line) 0); [|reflexivity].
      exfalso. apply Hsafe. right. exact Hdd. }
  rewrite Hok. apply Z.eqb_neq in Hoff. rewrite Hoff.
  unfold line_fsize. rewrite Heof. reflexivity.
Qed.

End ParserTheorems.

(** ** The life cycle of the volume *)

Section LifeCycle.
Context {P : Platform}.

Lemma GetReservedSize_object st w r st' w' :
  GetReservedSize st w = (r, st', w') -> st' = st.
Proof.
  unfold GetReservedSize. intros H. destruct (state_ st).
  - injection H as _ <- _. reflexivity.
  - injection H as _ <- _. reflexivity.
  - destruct (GetReservedSize_loop _ _ _). injection H as _ <- _. reflexivity.
  - destruct (file_size _ _). injection H as _ <- _. reflexivity.
Qed.

Lemma ResizeReserved_state size st w r st' w' :
  ResizeReserved size st w = (r, st', w') -> state_ st' = state_ st.
Proof.
  unfold ResizeReserved. intros H. destruct (state_ st) eqn:Hst.
  - injection H as _ <- _. exact Hst.
  - injection H as _ <- _. exact Hst.
  - destruct (GetReservedSize st w) as [[cur st1] w1] eqn:Hg.
    apply GetReservedSize_object in Hg as ->.
    destruct (size >? cur).
    + destruct (ResizeReserved_loop _ _). injection H as _ <- _. exact Hst.
    + injection H as _ <- _. exact Hst.
  - destruct (file_resize _ _ _). injection H as _ <- _. exact Hst.
Qed.

Lemma Read_object fuel ht_size nbyte offset st w r data st' w' :
  Read fuel ht_size nbyte offset st w = Some (r, data, st', w') -> st' = st.
Proof.
  revert nbyte offset w r data st' w'.
  induction fuel as [|g IH]; intros nbyte offset w r data st' w' H;
    [discriminate|].
  cbn [Read] in H.
  assert (Hmulti :
    match FindStorageFile (sfs_ st) offset with
    | None => Some (-1, [], st, set_errno EINVAL w)
    | Some sf =>
        let '(ret, data, w1) :=
          StorageFile_Read sf nbyte (offset - GetStart sf) w in
        if ret <? 0 then Some (ret, data, st, w1)
        else if (ret <? nbyte) && negb (offset + ret =? ht_size) then
          match Read g ht_size (nbyte - ret) (offset + ret) st w1 with
          | None => None
          | Some (newret, data', st2, w2) =>
              if newret <? 0 then Some (newret, data ++ data', st2, w2)
              else Some (ret + newret, data ++ data', st2, w2)
          end
        else Some (ret, data, st, w1)
    end = Some (r, data, st', w') -> st' = st).
  { clear H. intros H.
    destruct (FindStorageFile (sfs_ st) offset) as [sf|];
      [|injection H as _ _ <- _; reflexivity].
    destruct (StorageFile_Read sf nbyte _ w) as [[ret d] w1].
    destruct (ret <? 0); [injection H as _ _ <- _; reflexivity|].
    destruct ((ret <? nbyte) && negb (offset + ret =? ht_size));
      [|injection H as _ _ <- _; reflexivity].
    destruct (Read g ht_size _ _ st w1) as [[[[newret d'] st2] w2]|] eqn:E;
      [|discriminate].
    apply IH in E as ->.
    destruct (newret <? 0); injection H as _ _ <- _; reflexivity. }
  destruct (state_ st); auto.
  - injection H as _ _ <- _. reflexivity.
  - destruct (sys_pread _ _ _ _) as [[? ?] ?].
    injection H as _ _ <- _. reflexivity.
Qed.

(** In a terminal state [Write] leaves the object as it is. *)
Lemma Write_terminal_object fuel buf nbyte offset st w r st' w' :
  terminal (state_ st) ->
  Write fuel buf nbyte offset st w = Some (r, st', w') -> st' = st.
Proof.
  intros Hterm. revert buf nbyte offset w r st' w'.
  induction fuel as [|g IH]; intros buf nbyte offset w r st' w' H;
    [discriminate|].
  cbn [Write] in H. destruct Hterm as [Hs|Hs]; rewrite Hs in H.
  - destruct (sys_pwrite _ _ _ _ _). injection H as _ <- _. reflexivity.
  - destruct (FindStorageFile (sfs_ st) offset) as [sf|];
      [|injection H as _ <- _; reflexivity].
    destruct (WriteBuffer sf buf nbyte offset w) as [ht w1].
    destruct (ht.1 =? -1); [injection H as _ <- _; reflexivity|].
    destruct (ht.2 >? 0); [|injection H as _ <- _; reflexivity].
    destruct (Write g _ _ _ st w1) as [[[ret st2] w2]|] eqn:E; [|discriminate].
    apply IH in E as ->.
    destruct (ret <? 0); injection H as _ <- _; reflexivity.
Qed.

Lemma do_call_terminal c st w st' w' :
  terminal (state_ st) -> do_call c st w = Some (st', w') ->
  state_ st' = state_ st.
Proof.
  intros Hterm H. destruct c as [fuel buf nbyte offset|fuel ht nbyte offset|size|];
    cbn [do_call] in H.
  - destruct (Write fuel buf nbyte offset st w) as [[[r st1] w1]|] eqn:E;
      [|discriminate].
    injection H as <- _. apply Write_terminal_object in E as ->; auto.
  - destruct (Read fuel ht nbyte offset st w) as [[[[r d] st1] w1]|] eqn:E;
      [|discriminate].
    injection H as <- _. apply Read_object in E as ->. reflexivity.
  - destruct (ResizeReserved size st w) as [[r st1] w1] eqn:E.
    injection H as <- _. exact (ResizeReserved_state _ _ _ _ _ _ E).
  - destruct (GetReservedSize st w) as [[r st1] w1] eqn:E.
    injection H as <- _. apply GetReservedSize_object in E as ->. reflexivity.
Qed.

(** The file [FindStorageFile] returns contains the offset, so a write
    that reaches past its end has a head of at least one byte. *)
Lemma WriteBuffer_tail sf buf nbyte offset w ht w1 :
  contains sf offset ->
  WriteBuffer sf buf nbyte offset w = (ht, w1) ->
  0 < ht.2 -> ht.2 < nbyte.
Proof.
  unfold contains, WriteBuffer. intros [_ Hlt] H Htail.
  destruct (offset + nbyte <=? GetEnd sf + 1).
  - destruct (StorageFile_Write _ _ _ _ _) as [ret w'].
    destruct (ret <? 0); injection H as <- _; cbn in *; lia.
  - destruct (StorageFile_Write _ _ _ _ _) as [ret w'].
    destruct (ret <? 0); injection H as <- _; cbn in *; lia.
Qed.

(** In the state [STOR_STATE_MFSPEC_COMPLETE] the recursion of [Write]
    is at most [nbyte] calls deep: with more fuel than that, [Write]
    returns. *)
Lemma Write_complete_returns fuel buf nbyte offset st w :
  state_ st = STOR_STATE_MFSPEC_COMPLETE ->
  (Z.to_nat nbyte < fuel)%nat ->
  is_Some (Write fuel buf nbyte offset st w).
Proof.
  intros Hst. revert buf nbyte offset w.
  induction fuel as [|g IH]; intros buf nbyte offset w Hfuel; [lia|].
  cbn [Write]. rewrite Hst.
  destruct (FindStorageFile (sfs_ st) offset) as [sf|] eqn:Hfind; [|eauto].
  apply FindStorageFile_loop_sound in Hfind as [_ Hin].
  destruct (WriteBuffer sf buf nbyte offset w) as [ht w1] eqn:Hwb.
  destruct (ht.1 =? -1); [eauto|].
  destruct (ht.2 >? 0) eqn:Htail; [|eauto].
  apply Z.gtb_lt in Htail.
  pose proof (WriteBuffer_tail _ _ _ _ _ _ _ Hin Hwb Htail) as Hlt.
  destruct (IH (skipn (Z.to_nat ht.1) buf) ht.2 (offset + ht.1) w1
              ltac:(lia)) as [[[ret st2] w2] ->].
  destruct (ret <? 0); eauto.
Qed.

Lemma Write_single_file fuel buf nbyte offset st w :
  state_ st = STOR_STATE_SINGLE_FILE ->
  Write (S fuel) buf nbyte offset st w =
  let '(r, w1) := sys_pwrite (single_fd_ st) buf nbyte offset w in
  Some (r, st, w1).
Proof. intros Hst. cbn [Write]. rewrite Hst. reflexivity. Qed.

(** The first chunk of a multi-file swarm: in [STOR_STATE_INIT] a [Write]
    at offset 0 of bytes that start with the name of the spec and its
    size [v] records [v], creates the entry of the spec file and calls
    [WriteSpecPart] on it. *)
Lemma Write_init_spec fuel buf nbyte st w v :
  state_ st = STOR_STATE_INIT ->
  strncmp_eq buf MULTIFILE_PATHNAME = true ->
  sscanf_lld (cstr (skipn (String.length MULTIFILE_PATHNAME + 1) buf))
  = ScanOK v ->
  Write (S fuel) buf nbyte 0 st w =
  let '(sf, w1) := new_StorageFile MULTIFILE_PATHNAME 0 v w in
  WriteSpecPart (Write fuel) sf buf nbyte 0
                (push_back sf (set_spec_size v st)) w1.
Proof.
  intros Hst Hcmp Hscan. cbn [Write]. rewrite Hst, Hcmp, Hscan. reflexivity.
Qed.

Lemma Read_single_file fuel ht_size nbyte offset st w :
  state_ st = STOR_STATE_SINGLE_FILE ->
  Read (S fuel) ht_size nbyte offset st w =
  let '(r, data, w1) := sys_pread (single_fd_ st) nbyte offset w in
  Some (r, data, st, w1).
Proof. intros Hst. cbn [Read]. rewrite Hst. reflexivity. Qed.

(** C9.  From a terminal state ([STOR_STATE_SINGLE_FILE] or
    [STOR_STATE_MFSPEC_COMPLETE]) every sequence of calls of [Write],
    [Read], [ResizeReserved] and [GetReservedSize] ends in the same
    state; and [Write] does return there once the fuel exceeds the
    number of bytes. *)
Theorem terminal_states_absorbing (cs : list call) (st : Storage) (w : world) :
  terminal (state_ st) ->
  (forall st' w', do_calls cs st w = Some (st', w') ->
                  state_ st' = state_ st) /\
  (forall fuel buf nbyte offset,
     (Z.to_nat nbyte < fuel)%nat ->
     is_Some (Write fuel buf nbyte offset st w)).
Proof.
  intros Hterm. split.
  - revert st w Hterm. induction cs as [|c rest IH]; intros st w Hterm st' w' H.
    + injection H as <- _. reflexivity.
    + cbn [do_calls] in H.
      destruct (do_call c st w) as [[st1 w1]|] eqn:E; [|discriminate].
      pose proof (do_call_terminal _ _ _ _ _ Hterm E) as Hst1.
      rewrite <- Hst1. eapply IH; [rewrite Hst1; exact Hterm|exact H].
  - intros fuel buf nbyte offset Hfuel. destruct Hterm as [Hs|Hs].
    + destruct fuel as [|g]; [lia|]. rewrite (Write_single_file _ _ _ _ _ _ Hs).
      destruct (sys_pwrite _ _ _ _ _). eauto.
    + apply Write_complete_returns; assumption.
Qed.

End LifeCycle.

Section OpenAndWrite.
Context {P : Platform}.

Lemma OpenSingleFile_state st w :
  state_ (OpenSingleFile st w).1.2 = STOR_STATE_SINGLE_FILE.
Proof.
  unfold OpenSingleFile. destruct (sys_open _ w) as [fd w1].
  cbn [set_single_fd set_state reserved_size_].
  destruct (negb (reserved_size_ st =? -1)); [|reflexivity].
  destruct (ResizeReserved _ _ w1) as [[ret st3] w2] eqn:E.
  apply ResizeReserved_state in E.
  destruct (ret <? 0); cbn; rewrite E; reflexivity.
Qed.

Lemma OpenSingleFile_open_failed st w :
  (sys_open (os_pathname_ st) w).1 < 0 ->
  single_fd_ (OpenSingleFile st w).1.2 = -1 /\
  (OpenSingleFile st w).1.1 < 0.
Proof.
  unfold OpenSingleFile. cbn [set_state os_pathname_].
  destruct (sys_open _ w) as [fd w1]. cbn [fst]. intros Hfd.
  apply Z.ltb_lt in Hfd. rewrite Hfd.
  cbn [set_single_fd set_state reserved_size_].
  destruct (negb (reserved_size_ st =? -1)); [|cbn; lia].
  unfold ResizeReserved. cbn [state_ single_fd_].
  destruct (file_resize _ _ _) as [ret w2].
  cbn. destruct (ret <? 0) eqn:Hret; cbn; [|lia].
  apply Z.ltb_lt in Hret. lia.
Qed.

(** C10.  [OpenSingleFile] always leaves the object in the state
    [STOR_STATE_SINGLE_FILE].  When [open] fails, [single_fd_] is -1 and
    the status is negative; a [Write] in [STOR_STATE_INIT] that took this
    path returns -1 and leaves the object in that state; the constructor
    keeps whatever [OpenSingleFile] left; and the calls of [Write] and
    [Read] that follow are [pwrite] and [pread] on the descriptor -1. *)
Theorem OpenSingleFile_failure_is_terminal (st : Storage) (w : world) :
  let st' := (OpenSingleFile st w).1.2 in
  state_ st' = STOR_STATE_SINGLE_FILE /\
  (forall pathname readbuf w0 st0 w0',
     new_Storage pathname readbuf w0 = Some (st0, w0') ->
     state_ st0 = STOR_STATE_SINGLE_FILE ->
     exists w1, st0 = (OpenSingleFile (st_init pathname) w1).1.2) /\
  ((sys_open (os_pathname_ st) w).1 < 0 ->
   single_fd_ st' = -1 /\
   (OpenSingleFile st w).1.1 < 0 /\
   (forall fuel buf nbyte,
      state_ st = STOR_STATE_INIT ->
      strncmp_eq buf MULTIFILE_PATHNAME = false ->
      Write (S fuel) buf nbyte 0 st w
      = Some (-1, st', (OpenSingleFile st w).2)) /\
   (forall fuel buf nbyte offset w2,
      Write (S fuel) buf nbyte offset st' w2 =
      let '(r, w3) := sys_pwrite (-1) buf nbyte offset w2 in
      Some (r, st', w3)) /\
   (forall fuel ht_size nbyte offset w2,
      Read (S fuel) ht_size nbyte offset st' w2 =
      let '(r, data, w3) := sys_pread (-1) nbyte offset w2 in
      Some (r, data, st', w3))).
Proof.
  intros st'. subst st'. split; [apply OpenSingleFile_state|]. split.
  - intros pathname readbuf w0 st0 w0' H Hs. unfold new_Storage in H.
    destruct (file_size_by_path pathname w0) as [fsize w1].
    destruct ((fsize <? 0) && (errno w1 =? ENOENT)).
    { injection H as <- _. discriminate. }
    destruct (sys_fopen_rb pathname w1) as [[content|] w2]; [|discriminate].
    destruct (strncmp_eq _ _).
    + destruct (new_StorageFile pathname 0 fsize w2) as [sf w3].
      destruct (ParseSpec sf _ w3) as [[r st3] w4] eqn:E.
      apply ParseSpec_state in E. injection H as <- _.
      rewrite E in Hs. discriminate.
    + exists w2. unfold st_init.
      destruct (OpenSingleFile _ w2) as [[r st1] w3]. injection H as <- _.
      reflexivity.
  - intros Hfail.
    destruct (OpenSingleFile_open_failed st w Hfail) as [Hfd Hret].
    split; [exact Hfd|]. split; [exact Hret|]. split; [|split].
    + intros fuel buf nbyte Hinit Hcmp. cbn [Write]. rewrite Hinit, Hcmp.
      cbn [Z.eqb negb].
      destruct (OpenSingleFile st w) as [[ret st1] w1]. cbn in *.
      apply Z.ltb_lt in Hret. rewrite Hret. reflexivity.
    + intros fuel buf nbyte offset w2.
      rewrite (Write_single_file _ _ _ _ _ _ (OpenSingleFile_state st w)).
      rewrite Hfd. reflexivity.
    + intros fuel ht_size nbyte offset w2.
      rewrite (Read_single_file _ _ _ _ _ _ (OpenSingleFile_state st w)).
      rewrite Hfd. reflexivity.
Qed.

(** C1, amended.  When the head of a write that reaches past the end of
    a file was written and the recursive [Write] of the tail returns a
    negative status, the call returns that status, not the count of the
    head: in [Write] in the state [STOR_STATE_MFSPEC_COMPLETE], and in
    [WriteSpecPart] when the write completes the spec. *)
Theorem Write_tail_failure_propagates :
  (forall fuel buf nbyte offset st w sf head tail w1 ret st2 w2,
     state_ st = STOR_STATE_MFSPEC_COMPLETE ->
     FindStorageFile (sfs_ st) offset = Some sf ->
     WriteBuffer sf buf nbyte offset w = ((head, tail), w1) ->
     head <> -1 -> 0 < tail ->
     Write fuel (skipn (Z.to_nat head) buf) tail (offset + head) st w1
       = Some (ret, st2, w2) ->
     ret < 0 ->
     Write (S fuel) buf nbyte offset st w = Some (ret, st2, w2)) /\
  (forall Write_rec sf buf nbyte offset st w head tail w1 r st2 w2 ret st3 w3,
     WriteBuffer sf buf nbyte offset w = ((head, tail), w1) ->
     head <> -1 -> offset + head = GetEnd sf + 1 ->
     ParseSpec sf (set_state STOR_STATE_MFSPEC_COMPLETE st) w1 = (r, st2, w2) ->
     0 <= r ->
     Write_rec (skipn (Z.to_nat head) buf) tail (offset + head) st2 w2
       = Some (ret, st3, w3) ->
     ret < 0 ->
     WriteSpecPart Write_rec sf buf nbyte offset st w = Some (ret, st3, w3)).
Proof.
  split.
  - intros fuel buf nbyte offset st w sf head tail w1 ret st2 w2
      Hst Hfind Hwb Hhead Htail Hrec Hret.
    cbn [Write]. rewrite Hst, Hfind, Hwb. cbn [fst snd].
    apply Z.eqb_neq in Hhead. rewrite Hhead.
    replace (tail >? 0) with true by (symmetry; apply Z.gtb_lt; lia).
    rewrite Hrec. apply Z.ltb_lt in Hret. rewrite Hret. reflexivity.
  - intros Write_rec sf buf nbyte offset st w head tail w1 r st2 w2 ret st3 w3
      Hwb Hhead Hend Hparse Hr Hrec Hret.
    unfold WriteSpecPart. rewrite Hwb. cbn [fst snd].
    apply Z.eqb_neq in Hhead. rewrite Hhead.
    apply Z.eqb_eq in Hend. rewrite Hend. rewrite Hparse.
    replace (r <? 0) with false by (symmetry; apply Z.ltb_ge; lia).
    rewrite Hrec. apply Z.ltb_lt in Hret. rewrite Hret. reflexivity.
Qed.

(** C6.  After [WriteBuffer] wrote the head [head_len] of the bytes into
    the spec file [sf]: when [offset + head_len] is [sf->GetEnd() + 1] the
    state becomes [STOR_STATE_MFSPEC_COMPLETE] and the spec is parsed;
    unless the parse fails, [Write] is called on the tail at
    [offset + head_len], it returns for every fuel above the length of the
    tail and leaves the state as it is, and the call returns the status of
    the tail when that is negative and [head_len] plus the count of the
    tail otherwise.  When [offset + head_len] is another offset the state
    becomes [STOR_STATE_MFSPEC_SIZE_KNOWN] and the call returns
    [head_len].  In the state [STOR_STATE_MFSPEC_SIZE_KNOWN], [Write] is
    this call with [sf = sfs_[0]]. *)
Theorem WriteSpecPart_transitions (fuel : nat) (sf : StorageFile)
  (buf : list byte) (nbyte offset : Z) (st : Storage) (w : world)
  (head_len tail_len : Z) (w1 : world) :
  WriteBuffer sf buf nbyte offset w = ((head_len, tail_len), w1) ->
  head_len <> -1 ->
  (offset + head_len = GetEnd sf + 1 ->
   exists r st2 w2,
     ParseSpec sf (set_state STOR_STATE_MFSPEC_COMPLETE st) w1 = (r, st2, w2) /\
     state_ st2 = STOR_STATE_MFSPEC_COMPLETE /\
     (r < 0 ->
      WriteSpecPart (Write fuel) sf buf nbyte offset st w
      = Some (-1, st2, set_errno EINVAL w2)) /\
     (0 <= r -> (Z.to_nat tail_len < fuel)%nat ->
      exists ret st3 w3,
        Write fuel (skipn (Z.to_nat head_len) buf) tail_len
              (offset + head_len) st2 w2 = Some (ret, st3, w3) /\
        state_ st3 = STOR_STATE_MFSPEC_COMPLETE /\
        WriteSpecPart (Write fuel) sf buf nbyte offset st w
        = Some (if ret <? 0 then ret else head_len + ret, st3, w3))) /\
  (offset + head_len <> GetEnd sf + 1 ->
   WriteSpecPart (Write fuel) sf buf nbyte offset st w
   = Some (head_len, set_state STOR_STATE_MFSPEC_SIZE_KNOWN st, w1)) /\
  (state_ st = STOR_STATE_MFSPEC_SIZE_KNOWN -> sfs_ st !! 0%nat = Some sf ->
   Write (S fuel) buf nbyte offset st w
   = WriteSpecPart (Write fuel) sf buf nbyte offset st w).
Proof.
  intros Hwb Hhead. apply Z.eqb_neq in Hhead. split; [|split].
  - intros Hend. apply Z.eqb_eq in Hend.
    destruct (ParseSpec sf (set_state STOR_STATE_MFSPEC_COMPLETE st) w1)
      as [[r st2] w2] eqn:Hparse.
    pose proof (ParseSpec_state _ _ _ _ _ _ Hparse) as Hst2. cbn in Hst2.
    exists r, st2, w2. split; [reflexivity|]. split; [exact Hst2|]. split.
    + intros Hr. unfold WriteSpecPart.
      rewrite Hwb. cbn [fst snd]. rewrite Hhead, Hend, Hparse.
      apply Z.ltb_lt in Hr. rewrite Hr. reflexivity.
    + intros Hr Hfuel.
      destruct (Write_complete_returns fuel (skipn (Z.to_nat head_len) buf)
                  tail_len (offset + head_len) st2 w2 Hst2 Hfuel)
        as [[[ret st3] w3] Hrec].
      exists ret, st3, w3. split; [exact Hrec|]. split.
      * apply Write_terminal_object in Hrec as ->; [exact Hst2|].
        right. exact Hst2.
      * unfold WriteSpecPart.
        rewrite Hwb. cbn [fst snd]. rewrite Hhead, Hend, Hparse.
        replace (r <? 0) with false by (symmetry; apply Z.ltb_ge; lia).
        rewrite Hrec. destruct (ret <? 0); reflexivity.
  - intros Hend. apply Z.eqb_neq in Hend. unfold WriteSpecPart.
    rewrite Hwb. cbn [fst snd]. rewrite Hhead, Hend. reflexivity.
  - intros Hst H0. cbn [Write]. rewrite Hst.
    destruct (sfs_ st) as [|sf0 rest]; [discriminate|].
    injection H0 as ->. reflexivity.
Qed.

(** The object after [WriteSpecPart]: as before, or with the state
    [STOR_STATE_MFSPEC_SIZE_KNOWN], or as [ParseSpec] left it. *)
Lemma WriteSpecPart_object g sf buf nbyte offset st w r st' w' :
  WriteSpecPart (Write g) sf buf nbyte offset st w = Some (r, st', w') ->
  st' = st \/ st' = set_state STOR_STATE_MFSPEC_SIZE_KNOWN st \/
  exists w1,
    st' = (ParseSpec sf (set_state STOR_STATE_MFSPEC_COMPLETE st) w1).1.2.
Proof.
  unfold WriteSpecPart. intros H.
  destruct (WriteBuffer sf buf nbyte offset w) as [ht w1].
  destruct (ht.1 =? -1); [injection H as _ <- _; auto|].
  destruct (offset + ht.1 =? GetEnd sf + 1);
    [|injection H as _ <- _; auto].
  right. right. exists w1.
  destruct (ParseSpec sf (set_state STOR_STATE_MFSPEC_COMPLETE st) w1)
    as [[r0 st2] w2] eqn:Hparse.
  cbn [fst snd].
  destruct (r0 <? 0); [injection H as _ <- _; reflexivity|].
  destruct (Write g _ _ _ st2 w2) as [[[ret st3] w3]|] eqn:Hrec;
    [|discriminate].
  apply Write_terminal_object in Hrec as ->.
  - destruct (ret <? 0); injection H as _ <- _; reflexivity.
  - right. apply ParseSpec_state in Hparse. exact Hparse.
Qed.

Lemma Write_awaits_spec fuel buf nbyte offset st w r st' w' :
  awaits_spec st ->
  Write fuel buf nbyte offset st w = Some (r, st', w') ->
  (state_ st' = STOR_STATE_MFSPEC_COMPLETE -> parsed_from_spec_entry st') /\
  (state_ st' = STOR_STATE_MFSPEC_SIZE_KNOWN ->
   exists sf, sfs_ st' = [sf] /\ GetStart sf = 0).
Proof.
  intros Hpre H. destruct fuel as [|g]; [discriminate|].
  assert (Hspec : forall sf st1 w1,
             sfs_ st1 = [sf] -> GetStart sf = 0 ->
             state_ st1 <> STOR_STATE_MFSPEC_COMPLETE ->
             WriteSpecPart (Write g) sf buf nbyte offset st1 w1
             = Some (r, st', w') ->
             (state_ st' = STOR_STATE_MFSPEC_COMPLETE ->
              parsed_from_spec_entry st') /\
             (state_ st' = STOR_STATE_MFSPEC_SIZE_KNOWN ->
              exists sf, sfs_ st' = [sf] /\ GetStart sf = 0)).
  { intros sf st1 w1 Hone Hstart Hnc Hw.
    assert (Hsk : exists sf, sfs_ st1 = [sf] /\ GetStart sf = 0) by eauto.
    apply WriteSpecPart_object in Hw as [->|[->|[w2 ->]]].
    - split; [intros Hc; contradiction|intros _; exact Hsk].
    - split; [discriminate|]. intros _. exists sf. auto.
    - split.
      + intros _. exists sf, (set_state STOR_STATE_MFSPEC_COMPLETE st1), w2.
        auto.
      + intros Hs.
        destruct (ParseSpec sf _ w2) as [[r0 st2] w3] eqn:Hparse.
        apply ParseSpec_state in Hparse. cbn in Hs, Hparse. congruence. }
  cbn [Write] in H. destruct Hpre as [[Hst Hnil]|[Hst (sf & Hone & Hstart)]];
    rewrite Hst in H.
  - destruct (negb (offset =? 0)).
    { injection H as _ <- _. rewrite Hst. split; discriminate. }
    destruct (strncmp_eq buf MULTIFILE_PATHNAME).
    + destruct (negb (scan_count _ =? 1)).
      { injection H as _ <- _. cbn. rewrite Hst. split; discriminate. }
      destruct (new_StorageFile _ _ _ w) as [sf w1] eqn:Hnew.
      apply new_StorageFile_fields in Hnew as (_ & Hstart & _).
      apply Hspec in H; [exact H| | |]; cbn; rewrite ?Hst, ?Hnil; auto;
        discriminate.
    + pose proof (OpenSingleFile_state st w) as Hs.
      destruct (OpenSingleFile st w) as [[ret st1] w1]. cbn in Hs.
      destruct (ret <? 0).
      * injection H as _ <- _. rewrite Hs. split; discriminate.
      * apply Write_terminal_object in H as ->; [|left; exact Hs].
        rewrite Hs. split; discriminate.
  - rewrite Hone in H. apply Hspec in H; auto.
    rewrite Hst. discriminate.
Qed.

Lemma new_Storage_complete pathname readbuf w st w' :
  new_Storage pathname readbuf w = Some (st, w') ->
  state_ st = STOR_STATE_MFSPEC_COMPLETE ->
  exists sf st0 w0,
    sfs_ st0 = [sf] /\ GetStart sf = 0 /\ GetSpecPathName sf = pathname /\
    st = (ParseSpec sf st0 w0).1.2.
Proof.
  unfold new_Storage. intros H Hs.
  destruct (file_size_by_path pathname w) as [fsize w1].
  destruct ((fsize <? 0) && (errno w1 =? ENOENT)).
  { injection H as <- _. discriminate. }
  destruct (sys_fopen_rb pathname w1) as [[content|] w2]; [|discriminate].
  destruct (strncmp_eq _ _).
  - destruct (new_StorageFile pathname 0 fsize w2) as [sf w3] eqn:Hnew.
    apply new_StorageFile_fields in Hnew as (Hpath & Hstart & _).
    exists sf, (push_back sf
                 (set_state STOR_STATE_MFSPEC_COMPLETE (st_init pathname))),
      w3.
    split; [reflexivity|]. split; [exact Hstart|]. split; [exact Hpath|].
    destruct (ParseSpec sf _ w3) as [[r st3] w4].
    injection H as <- _. reflexivity.
  - pose proof (OpenSingleFile_state (st_init pathname) w2) as Ho.
    destruct (OpenSingleFile _ w2) as [[r st1] w3]. injection H as <- _.
    cbn in Ho. congruence.
Qed.

(** C2, amended.  A volume reaches [STOR_STATE_MFSPEC_COMPLETE] through
    [ParseSpec], run on an object whose [sfs_] holds the entry of the
    spec file alone, at start 0: in the constructor, and in a [Write] on
    a volume that is fresh or that knows the size of the spec and holds
    that entry (a [Write] that leaves such a volume in
    [STOR_STATE_MFSPEC_SIZE_KNOWN] leaves it with that entry alone).
    When the sizes of the spec that is parsed fit [int64_t] (none of
    them is negative and they add up to at most [INT64_MAX], see
    [sizes_fit]), [sfs_] is then sorted by start and contiguous, and its
    first entry is the entry of the spec file, at start 0. *)
Theorem complete_volume_sorted_contiguous :
  (forall sf st w,
     sfs_ st = [sf] -> GetStart sf = 0 ->
     sizes_fit sf (spec_lines sf w) 0 ->
     let st' := (ParseSpec sf st w).1.2 in
     sorted_by_start (sfs_ st') /\ contiguous (sfs_ st') /\
     sfs_ st' !! 0%nat = Some sf) /\
  (forall pathname readbuf w st w',
     new_Storage pathname readbuf w = Some (st, w') ->
     state_ st = STOR_STATE_MFSPEC_COMPLETE ->
     exists sf st0 w0,
       sfs_ st0 = [sf] /\ GetStart sf = 0 /\ GetSpecPathName sf = pathname /\
       st = (ParseSpec sf st0 w0).1.2 /\
       (sizes_fit sf (spec_lines sf w0) 0 ->
        sorted_by_start (sfs_ st) /\ contiguous (sfs_ st) /\
        sfs_ st !! 0%nat = Some sf)) /\
  (forall fuel buf nbyte offset st w r st' w',
     awaits_spec st ->
     Write fuel buf nbyte offset st w = Some (r, st', w') ->
     (state_ st' = STOR_STATE_MFSPEC_SIZE_KNOWN -> awaits_spec st') /\
     (state_ st' = STOR_STATE_MFSPEC_COMPLETE ->
      exists sf st0 w0,
        sfs_ st0 = [sf] /\ GetStart sf = 0 /\
        st' = (ParseSpec sf st0 w0).1.2 /\
        (sizes_fit sf (spec_lines sf w0) 0 ->
         sorted_by_start (sfs_ st') /\ contiguous (sfs_ st') /\
         sfs_ st' !! 0%nat = Some sf))).
Proof.
  split; [|split].
  - intros sf st w Hone Hstart Hfit st'. apply ParseSpec_invariant; assumption.
  - intros pathname readbuf w st w' H Hs.
    destruct (new_Storage_complete _ _ _ _ _ H Hs)
      as (sf & st0 & w0 & Hone & Hstart & Hpath & ->).
    exists sf, st0, w0. repeat (split; [assumption || reflexivity|]).
    apply ParseSpec_invariant; assumption.
  - intros fuel buf nbyte offset st w r st' w' Hpre H.
    destruct (Write_awaits_spec _ _ _ _ _ _ _ _ _ Hpre H) as [Hc Hk].
    split.
    + intros Hs. right. auto.
    + intros Hs. destruct (Hc Hs) as (sf & st0 & w0 & Hone & Hstart & ->).
      exists sf, st0, w0. repeat (split; [assumption || reflexivity|]).
      apply ParseSpec_invariant; assumption.
Qed.

End OpenAndWrite.

(** ** The postponed reservation *)

Section Reservation.
Context {P : Platform}.

Lemma ParseSpec_loop_reserved size sf lines offset st w :
  ParseSpec_loop sf lines offset (set_reserved_size size st) w
  = with_reserved size (ParseSpec_loop sf lines offset st w).
Proof.
  revert offset st w. induction lines as [|line rest IH]; intros offset st w.
  - reflexivity.
  - rewrite !ParseSpec_loop_cons. destruct (line_ok line); [|reflexivity].
    destruct (offset =? 0); [apply IH|].
    destruct (new_StorageFile _ _ _ w) as [sf' w1].
    change (push_back sf' (set_reserved_size size st))
      with (set_reserved_size size (push_back sf' st)).
    apply IH.
Qed.

Lemma ParseSpec_reserved size sf st w :
  ParseSpec sf (set_reserved_size size st) w
  = with_reserved size (ParseSpec sf st w).
Proof.
  unfold ParseSpec. destruct (sys_fopen_rb _ w) as [[content|] w1].
  - apply ParseSpec_loop_reserved.
  - reflexivity.
Qed.

Lemma WriteSpecPart_reserved size Write_rec sf buf nbyte offset st w :
  (forall b n o st0 w0,
     state_ st0 = STOR_STATE_MFSPEC_COMPLETE ->
     Write_rec b n o (set_reserved_size size st0) w0
     = option_map (with_reserved size) (Write_rec b n o st0 w0)) ->
  WriteSpecPart Write_rec sf buf nbyte offset (set_reserved_size size st) w
  = option_map (with_reserved size)
               (WriteSpecPart Write_rec sf buf nbyte offset st w).
Proof.
  intros Hrec. unfold WriteSpecPart.
  destruct (WriteBuffer sf buf nbyte offset w) as [ht w1].
  destruct (ht.1 =? -1); [reflexivity|].
  destruct (offset + ht.1 =? GetEnd sf + 1); [|reflexivity].
  change (set_state STOR_STATE_MFSPEC_COMPLETE (set_reserved_size size st))
    with (set_reserved_size size (set_state STOR_STATE_MFSPEC_COMPLETE st)).
  rewrite ParseSpec_reserved.
  destruct (ParseSpec sf (set_state STOR_STATE_MFSPEC_COMPLETE st) w1)
    as [[r st2] w2] eqn:Hparse.
  apply ParseSpec_state in Hparse. cbn in Hparse.
  unfold with_reserved at 1. cbn [fst snd].
  destruct (r <? 0); [reflexivity|].
  rewrite (Hrec _ _ _ _ _ Hparse).
  destruct (Write_rec _ _ _ st2 w2) as [[[ret st3] w3]|]; [|reflexivity].
  cbn. destruct (ret <? 0); reflexivity.
Qed.

(** Only the path of [Write] through [OpenSingleFile] reads
    [reserved_size_]. *)
Lemma Write_reserved size fuel buf nbyte offset st w :
  (state_ st = STOR_STATE_INIT -> strncmp_eq buf MULTIFILE_PATHNAME = true) ->
  Write fuel buf nbyte offset (set_reserved_size size st) w
  = option_map (with_reserved size) (Write fuel buf nbyte offset st w).
Proof.
  revert buf nbyte offset st w.
  induction fuel as [|g IH]; intros buf nbyte offset st w Hinit;
    [reflexivity|].
  assert (Hrec : forall b n o st0 w0,
             state_ st0 = STOR_STATE_MFSPEC_COMPLETE ->
             Write g b n o (set_reserved_size size st0) w0
             = option_map (with_reserved size) (Write g b n o st0 w0)).
  { intros b n o st0 w0 Hc. apply IH. rewrite Hc. discriminate. }
  cbn [Write]. cbn [set_reserved_size state_ sfs_ single_fd_ spec_size_].
  destruct (state_ st) eqn:Hst.
  - destruct (negb (offset =? 0)); [reflexivity|].
    rewrite (Hinit eq_refl).
    destruct (negb (scan_count _ =? 1)); [reflexivity|].
    destruct (new_StorageFile _ _ _ w) as [sf w1].
    apply (WriteSpecPart_reserved size (Write g) sf buf nbyte offset
             (push_back sf (set_spec_size _ st)) w1 Hrec).
  - destruct (sfs_ st) as [|sf rest]; [reflexivity|].
    apply (WriteSpecPart_reserved size (Write g) sf buf nbyte offset st w Hrec).
  - destruct (FindStorageFile (sfs_ st) offset) as [sf|]; [|reflexivity].
    destruct (WriteBuffer sf buf nbyte offset w) as [ht w1].
    destruct (ht.1 =? -1); [reflexivity|].
    destruct (ht.2 >? 0); [|reflexivity].
    rewrite (Hrec _ _ _ st w1 Hst).
    destruct (Write g _ _ _ st w1) as [[[ret st2] w2]|]; [|reflexivity].
    cbn. destruct (ret <? 0); reflexivity.
  - destruct (sys_pwrite _ _ _ _ _). reflexivity.
Qed.

Lemma OpenSingleFile_replays size st w r st' w' :
  file_resize_law -> reserved_size_ st = size -> size <> -1 ->
  OpenSingleFile st w = (r, st', w') -> 0 <= r ->
  state_ st' = STOR_STATE_SINGLE_FILE /\
  (file_size (single_fd_ st') w').1 = size.
Proof.
  intros Hlaw Hres Hsize H Hr. split.
  { pose proof (OpenSingleFile_state st w) as Hs. rewrite H in Hs. exact Hs. }
  unfold OpenSingleFile in H. destruct (sys_open _ w) as [fd w1].
  cbn [set_single_fd set_state reserved_size_] in H. rewrite Hres in H.
  apply Z.eqb_neq in Hsize. rewrite Hsize in H. cbn [negb] in H.
  unfold ResizeReserved in H. cbn in H.
  destruct (file_resize _ size w1) as [ret w2] eqn:Hresize.
  destruct (ret <? 0) eqn:Hret.
  - injection H as <- _ _. apply Z.ltb_lt in Hret. lia.
  - injection H as _ <- <-. cbn [single_fd_].
    apply (Hlaw _ _ _ _ _ Hresize). apply Z.ltb_ge in Hret. exact Hret.
Qed.

(** C8.  In [STOR_STATE_INIT], [ResizeReserved(size)] returns 0 and
    records [size] in [reserved_size_], nothing else changes.  An
    [OpenSingleFile] that follows and succeeds has resized the single file
    to [size]; a first [Write] at offset 0 of bytes that do not start with
    the name of the spec returns once there is fuel for two calls, and
    when it succeeds the volume is in [STOR_STATE_SINGLE_FILE] with a
    single file of at least [size] bytes.  Every other [Write] (in
    [STOR_STATE_INIT] one of bytes that start with the name of the spec,
    the way into the multi-file states, and any [Write] in the other
    states) returns what it returns without the recorded size and does
    the same to the system: the size is not replayed there. *)
Theorem postponed_reserve_replayed (size : Z) (st : Storage) (w : world) :
  file_resize_law -> pwrite_grows_law ->
  0 <= size -> state_ st = STOR_STATE_INIT ->
  let st1 := set_reserved_size size st in
  ResizeReserved size st w = (0, st1, w) /\
  (forall w0 r st' w',
     OpenSingleFile st1 w0 = (r, st', w') -> 0 <= r ->
     state_ st' = STOR_STATE_SINGLE_FILE /\
     (file_size (single_fd_ st') w').1 = size) /\
  (forall fuel buf nbyte w0,
     strncmp_eq buf MULTIFILE_PATHNAME = false ->
     is_Some (Write (S (S fuel)) buf nbyte 0 st1 w0) /\
     forall r st' w',
       Write (S (S fuel)) buf nbyte 0 st1 w0 = Some (r, st', w') -> 0 <= r ->
       state_ st' = STOR_STATE_SINGLE_FILE /\
       size <= (file_size (single_fd_ st') w').1) /\
  (forall fuel buf nbyte offset st0 w0,
     (state_ st0 = STOR_STATE_INIT ->
      strncmp_eq buf MULTIFILE_PATHNAME = true) ->
     Write fuel buf nbyte offset (set_reserved_size size st0) w0
     = option_map (with_reserved size) (Write fuel buf nbyte offset st0 w0)).
Proof.
  intros Hresize Hgrows Hsize Hinit st1. subst st1.
  split; [|split; [|split]].
  - unfold ResizeReserved. rewrite Hinit. reflexivity.
  - intros w0 r st' w' H Hr.
    apply (OpenSingleFile_replays size (set_reserved_size size st) w0 r st' w'
             Hresize eq_refl ltac:(lia) H Hr).
  - intros fuel buf nbyte w0 Hcmp.
    cbn [Write]. cbn [set_reserved_size state_]. rewrite Hinit, Hcmp.
    cbn [Z.eqb negb].
    destruct (OpenSingleFile (set_reserved_size size st) w0)
      as [[ret st2] w2] eqn:Hopen.
    destruct (ret <? 0) eqn:Hret.
    + split; [eauto|]. intros r st' w' H Hr. injection H as <- _ _. lia.
    + apply Z.ltb_ge in Hret.
      destruct (OpenSingleFile_replays size (set_reserved_size size st) w0
                  ret st2 w2 Hresize eq_refl ltac:(lia) Hopen Hret)
        as [Hs2 Hsz].
      rewrite Hs2.
      pose proof (Hgrows (single_fd_ st2) (single_fd_ st2) buf nbyte 0 w2)
        as Hg.
      destruct (sys_pwrite (single_fd_ st2) buf nbyte 0 w2) as [r1 w3].
      split; [eauto|]. intros r st' w' H Hr. injection H as _ <- <-.
      split; [exact Hs2|]. cbn in Hg. lia.
  - intros fuel buf nbyte offset st0 w0 Hcmp. apply Write_reserved. exact Hcmp.
Qed.

(** ** The round trip through a single file *)

(** C7.  In [STOR_STATE_SINGLE_FILE], after a [Write] of the [nbyte]
    bytes of [buf] at [offset] that returned [nbyte], a [Read] of [nbyte]
    bytes at [offset] returns [nbyte] and the bytes of [buf]. *)
Theorem single_file_round_trip (fuel fuel' : nat) (ht_size : Z)
  (buf : list byte) (nbyte offset : Z) (st st' : Storage) (w w' : world) :
  pwrite_pread_law ->
  state_ st = STOR_STATE_SINGLE_FILE ->
  Z.of_nat (length buf) = nbyte ->
  Write (S fuel) buf nbyte offset st w = Some (nbyte, st', w') ->
  exists w'',
    Read (S fuel') ht_size nbyte offset st' w' = Some (nbyte, buf, st', w'').
Proof.
  intros Hlaw Hst Hlen H.
  rewrite (Write_single_file _ _ _ _ _ _ Hst) in H.
  destruct (sys_pwrite (single_fd_ st) buf nbyte offset w) as [r w1] eqn:Hw.
  injection H as -> <- <-.
  rewrite (Read_single_file _ _ _ _ _ _ Hst).
  pose proof (Hlaw _ _ _ _ _ _ Hw Hlen) as Hr.
  destruct (sys_pread (single_fd_ st) nbyte offset w1) as [[r d] w2].
  cbn in Hr. injection Hr as -> ->. eauto.
Qed.

End Reservation.

(** ** The files in memory obey the laws *)

Lemma write_at_length c off data :
  length (MemFS.write_at c off data)
  = Nat.max (length c) (off + length data).
Proof.
  unfold MemFS.write_at.
  rewrite !length_app, length_take, length_drop, repeat_length. lia.
Qed.

Lemma write_at_read c off data :
  firstn (length data) (skipn off (MemFS.write_at c off data)) = data.
Proof.
  unfold MemFS.write_at.
  rewrite (app_assoc (firstn off c)).
  rewrite drop_app_length'
    by (rewrite length_app, length_take, repeat_length; lia).
  apply take_app_length.
Qed.

Lemma resize_to_length c size : length (MemFS.resize_to c size) = size.
Proof.
  unfold MemFS.resize_to. rewrite length_app, length_take, repeat_length. lia.
Qed.

Lemma file_of_with_err fd e w :
  MemFS.file_of fd (MemFS.with_err e w) = MemFS.file_of fd w.
Proof. reflexivity. Qed.

Lemma file_of_with_node fd p c c' w :
  MemFS.file_of fd w = Some (p, c) ->
  MemFS.file_of fd (MemFS.with_node p (MemFS.RegFile c') w) = Some (p, c').
Proof.
  unfold MemFS.file_of, MemFS.with_node. cbn.
  destruct (MemFS.fds w !! fd) as [q|]; [|discriminate].
  destruct (MemFS.nodes w !! q) as [[c0|]|]; try discriminate.
  intros H. injection H as -> ->. rewrite lookup_insert_eq. reflexivity.
Qed.

Lemma MemFS_pwrite_pread : @pwrite_pread_law MemPlatform.
Proof.
  intros fd buf nbyte offset w w' H Hlen.
  change (MemFS.pwrite fd buf nbyte offset w = (nbyte, w')) in H.
  change ((MemFS.pread fd nbyte offset w').1 = (nbyte, buf)).
  unfold MemFS.pwrite in H. unfold MemFS.pread.
  destruct (MemFS.file_of fd w) as [[p c]|] eqn:Hf.
  - destruct ((offset <? 0) || (nbyte <? 0)) eqn:Hneg.
    + injection H as H _. lia.
    + injection H as _ <-.
      rewrite (file_of_with_node _ _ _ _ _ Hf).
      assert (Hbuf : firstn (Z.to_nat nbyte) buf = buf)
        by (apply firstn_all2; lia).
      rewrite Hbuf.
      replace (Z.to_nat nbyte) with (length buf) by lia.
      rewrite write_at_read. cbn. f_equal. exact Hlen.
  - injection H as H _. lia.
Qed.

Lemma MemFS_file_resize : @file_resize_law MemPlatform.
Proof.
  intros fd size w r w' H Hr.
  change (MemFS.fresize fd size w = (r, w')) in H.
  change ((MemFS.fsize fd w').1 = size).
  unfold MemFS.fresize in H.
  destruct (MemFS.file_of fd w) as [[p c]|] eqn:Hf.
  - destruct (size <? 0) eqn:Hneg.
    + injection H as <- _. lia.
    + injection H as _ <-. unfold MemFS.fsize.
      rewrite (file_of_with_node _ _ _ _ _ Hf). cbn.
      rewrite resize_to_length. apply Z.ltb_ge in Hneg. lia.
  - injection H as <- _. lia.
Qed.

Lemma fsize_with_err fd e w :
  (MemFS.fsize fd (MemFS.with_err e w)).1 = (MemFS.fsize fd w).1.
Proof.
  unfold MemFS.fsize. rewrite file_of_with_err.
  destruct (MemFS.file_of fd w) as [[p c]|]; reflexivity.
Qed.

Lemma MemFS_pwrite_grows : @pwrite_grows_law MemPlatform.
Proof.
  intros fd fd' buf nbyte offset w.
  change ((MemFS.fsize fd w).1
          <= (MemFS.fsize fd (MemFS.pwrite fd' buf nbyte offset w).2).1).
  unfold MemFS.pwrite.
  destruct (MemFS.file_of fd' w) as [[p' c']|] eqn:Hf';
    [|cbn [snd]; rewrite fsize_with_err; reflexivity].
  destruct ((offset <? 0) || (nbyte <? 0));
    [cbn [snd]; rewrite fsize_with_err; reflexivity|].
  cbn [snd].
  unfold MemFS.fsize, MemFS.file_of, MemFS.with_node in *. cbn.
  destruct (MemFS.fds w !! fd') as [q'|]; [|discriminate].
  destruct (MemFS.nodes w !! q') as [[c0|]|] eqn:Hq'; try discriminate.
  injection Hf' as -> ->.
  destruct (MemFS.fds w !! fd) as [q|]; [|cbn; reflexivity].
  destruct (decide (q = p')) as [->|Hne].
  - rewrite lookup_insert_eq, Hq'. cbn. rewrite write_at_length. lia.
  - rewrite lookup_insert_ne by congruence.
    destruct (MemFS.nodes w !! q) as [[c|]|]; cbn; lia.
Qed.

(** ** The properties at work on the files in memory *)

(** C2, as stated, fails, in three ways.  A volume is opened on a spec
    file with the line "a -5": the parse succeeds (status 0), the volume
    is in the state [STOR_STATE_MFSPEC_COMPLETE], and the starts of its
    files are 0, 39 and 34 (their sizes are 39, -5 and 7).  A volume is
    opened on a spec file with a size of twenty digits: the parse
    succeeds, no size that was read is negative ([sscanf] stored
    [INT64_MAX]), the running offset wraps around and the third file
    starts below 0.  And a leecher is sent its first chunk twice: the
    first [Write] fails (a directory stands at the path of the spec
    file), returns -1 and leaves the volume in [STOR_STATE_INIT] with
    the entry of the spec file in [sfs_] (it no longer awaits the spec
    with an empty [sfs_]); the second [Write], after the directory was
    removed, adds a second entry for the spec file, the parse succeeds
    and all 48 bytes are written.  The volume is in
    [STOR_STATE_MFSPEC_COMPLETE], no size is negative, and two files of
    [sfs_] start at 0: it is not contiguous. *)
Lemma complete_volume_unsorted_or_gapped :
  (let '(sf, st, w) := at_parse "m.spec" negative_spec in
   sfs_ st = [sf] /\ GetStart sf = 0 /\
   seeded "m.spec" negative_spec
     = Some ((ParseSpec sf st w).1.2, (ParseSpec sf st w).2) /\
   (ParseSpec sf st w).1.1 = 0 /\
   state_ (ParseSpec sf st w).1.2 = STOR_STATE_MFSPEC_COMPLETE /\
   map GetStart (sfs_ (ParseSpec sf st w).1.2) = [0; 39; 34] /\
   map GetSize (sfs_ (ParseSpec sf st w).1.2) = [39; -5; 7] /\
   ~ sorted_by_start (sfs_ (ParseSpec sf st w).1.2)) /\
  (let '(sf, st, w) := at_parse "m.spec" overflow_spec in
   sfs_ st = [sf] /\ GetStart sf = 0 /\
   seeded "m.spec" overflow_spec
     = Some ((ParseSpec sf st w).1.2, (ParseSpec sf st w).2) /\
   (ParseSpec sf st w).1.1 = 0 /\
   state_ (ParseSpec sf st w).1.2 = STOR_STATE_MFSPEC_COMPLETE /\
   map line_fsize (spec_lines (P := MemPlatform) sf w)
     = [57; 9223372036854775807; 1] /\
   map GetStart (sfs_ (ParseSpec sf st w).1.2)
     = [0; 57; -9223372036854775752] /\
   ~ sorted_by_start (sfs_ (ParseSpec sf st w).1.2)) /\
  (Write 10 s2_chunk 48 0 (st_init "/tmp/m") spec_is_dir_world
     = Some (-1, failed_first_chunk.1, failed_first_chunk.2) /\
   state_ failed_first_chunk.1 = STOR_STATE_INIT /\
   map file_extent (sfs_ failed_first_chunk.1) = [(MULTIFILE_PATHNAME, 0, 39)] /\
   ~ awaits_spec failed_first_chunk.1 /\
   Write 10 s2_chunk 48 0 failed_first_chunk.1
         (MemFS_rmdir MULTIFILE_PATHNAME failed_first_chunk.2).2
     = Some (48, retried_volume.1, retried_volume.2) /\
   state_ retried_volume.1 = STOR_STATE_MFSPEC_COMPLETE /\
   map file_extent (sfs_ retried_volume.1)
     = [(MULTIFILE_PATHNAME, 0, 39); (MULTIFILE_PATHNAME, 0, 39);
        ("a/b"%string, 40, 42); ("c"%string, 43, 47)] /\
   map GetSize (sfs_ retried_volume.1) = [40; 40; 3; 5] /\
   ~ contiguous (sfs_ retried_volume.1)).
Proof.
  split; [|split].
  - vm_compute. repeat split; try reflexivity.
    intros (_ & H & _). apply H. reflexivity.
  - vm_compute. repeat split; try reflexivity.
    intros (_ & H & _). apply H. reflexivity.
  - vm_compute. repeat split; try reflexivity.
    + intros [[_ H]|[H _]]; discriminate H.
    + intros (H & _). discriminate H.
Qed.

(** The seeder of the spec [s2_spec]: the sizes of the spec fit, and
    [sfs_] is sorted and contiguous. *)
Lemma complete_volume_sorted_contiguous_witness :
  let x := at_parse "m.spec" s2_spec in
  let st' := (ParseSpec x.1.1 x.1.2 x.2).1.2 in
  sizes_fit x.1.1 (spec_lines (P := MemPlatform) x.1.1 x.2) 0 /\
  seeded "m.spec" s2_spec = Some (st', (ParseSpec x.1.1 x.1.2 x.2).2) /\
  state_ st' = STOR_STATE_MFSPEC_COMPLETE /\
  sorted_by_start (sfs_ st') /\ contiguous (sfs_ st') /\
  map file_extent (sfs_ st')
    = [("m.spec"%string, 0, 39); ("a/b"%string, 40, 42);
       ("c"%string, 43, 47)].
Proof.
  intros x st'.
  assert (Hfit : sizes_fit x.1.1 (spec_lines (P := MemPlatform) x.1.1 x.2) 0).
  { replace (spec_lines (P := MemPlatform) x.1.1 x.2)
      with [bytes ("META-INF-multifilespec.txt 40" ++ nl);
            bytes ("a/b 3" ++ nl); bytes ("c 5" ++ nl)]
      by (vm_compute; reflexivity).
    repeat split; vm_compute; intros H; discriminate H. }
  split; [exact Hfit|].
  destruct (proj1 (complete_volume_sorted_contiguous (P := MemPlatform))
              x.1.1 x.1.2 x.2 eq_refl eq_refl Hfit) as (H1 & H2 & _).
  split; [vm_compute; reflexivity|]. split; [vm_compute; reflexivity|].
  split; [exact H1|]. split; [exact H2|]. vm_compute. reflexivity.
Defined.

(** C3, as stated, fails.  A volume opened on the spec file [/tmp/s]
    (scenario S4) stores the entry of that file in [sfs_], and its path
    starts with [/]. *)
Lemma seed_absolute_path_stored :
  match seeded "/tmp/s" s2_spec with
  | Some (st, _) =>
      state_ st = STOR_STATE_MFSPEC_COMPLETE /\
      exists sf, sfs_ st !! 0%nat = Some sf /\ GetSpecPathName sf = "/tmp/s" /\
                 unsafe_path (spec_pathname_ sf)
  | None => False
  end.
Proof.
  vm_compute. split; [reflexivity|].
  eexists. split; [reflexivity|]. split; [reflexivity|].
  left. exists "tmp/s"%string. reflexivity.
Qed.

(** C4, as stated, fails.  The second line of the spec is "a -5": its
    size field is not a nonnegative decimal integer, [sscanf] returns 1
    with the size -5, and [ParseSpec] returns 0 after appending the file
    [a] with the size -5. *)
Lemma ParseSpec_accepts_negative_size :
  let '(sf, st, w) := at_parse "m.spec" negative_spec in
  line_sizestr (bytes ("a -5" ++ nl)) = ("-5" ++ nl)%string /\
  sscanf_lld ("-5" ++ nl) = ScanOK (-5) /\
  (ParseSpec sf st w).1.1 = 0 /\
  map (fun f => (GetSpecPathName f, GetSize f)) (sfs_ (ParseSpec sf st w).1.2)
    = [("m.spec"%string, 39); ("a"%string, -5); ("b"%string, 7)].
Proof. vm_compute. repeat split; reflexivity. Qed.

(** The same on a blank size field.  The second line of the spec is "a "
    and a newline: its size field is a lone newline, [sscanf] returns
    [EOF], and [ParseSpec] returns 0 after appending the file [a] with
    the size 0 (the test is [n == 0], where [Storage::Write] tests
    [n != 1] on the size of the spec). *)
Lemma ParseSpec_accepts_blank_size :
  let '(sf, st, w) := at_parse "m.spec" blank_size_spec in
  line_sizestr (bytes ("a " ++ nl)) = nl /\
  scan_count (sscanf_lld nl) = -1 /\
  (ParseSpec sf st w).1.1 = 0 /\
  map (fun f => (GetSpecPathName f, GetSize f)) (sfs_ (ParseSpec sf st w).1.2)
    = [("m.spec"%string, 33); ("a"%string, 0)].
Proof. vm_compute. repeat split; reflexivity. Qed.

(** The line "a x": its size field is not a number and the loop ends with
    -1. *)
Lemma ParseSpec_rejects_size_without_number_witness :
  let '(sf, st, w) := at_parse "m.spec" s2_spec in
  not_a_number (line_sizestr (bytes ("a x" ++ nl))) /\
  ParseSpec_loop sf [bytes ("a x" ++ nl)] 40 st w = (-1, st, w).
Proof.
  destruct (at_parse "m.spec" s2_spec) as [[sf st] w].
  assert (Hn : not_a_number (line_sizestr (bytes ("a x" ++ nl))))
    by reflexivity.
  split; [exact Hn|].
  exact (proj1 (ParseSpec_rejects_size_without_number (P := MemPlatform)
                  sf st w) _ [] 40 st w Hn).
Defined.

(** C1, as stated, fails.  In the volume [blocked_volume] the six bytes
    written at offset 42 reach from the file [c] into the file [a/b].
    The head of two bytes is written into [c]; the [Write] of the tail
    of four bytes at offset 44 returns -1; and the call returns -1, not
    the count 2 of the head. *)
Lemma Write_tail_failure_returns_error :
  let st := blocked_volume.1 in
  let w := blocked_volume.2 in
  let buf := bytes "HELLO!" in
  let sf := mkStorageFile "c" 40 43 4 in
  state_ st = STOR_STATE_MFSPEC_COMPLETE /\
  FindStorageFile (sfs_ st) 42 = Some sf /\
  (WriteBuffer sf buf 6 42 w).1 = (2, 4) /\
  MemFS.nodes (WriteBuffer sf buf 6 42 w).2 !! "c"%string
  = Some (MemFS.RegFile (bytes (String "000" (String "000" "HE")))) /\
  option_map (fun x => x.1.1)
    (Write 4 (skipn 2 buf) 4 44 st (WriteBuffer sf buf 6 42 w).2)
  = Some (-1) /\
  option_map (fun x => x.1.1) (Write 5 buf 6 42 st w) = Some (-1).
Proof. vm_compute. repeat split; reflexivity. Qed.

(** In [blocked_volume] the write of six bytes at offset 42 returns the
    status -1 of its tail. *)
Lemma Write_tail_failure_propagates_witness :
  let st := blocked_volume.1 in
  let w := blocked_volume.2 in
  exists st2 w2, Write 5 (bytes "HELLO!") 6 42 st w = Some (-1, st2, w2).
Proof.
  intros st w.
  destruct (FindStorageFile (sfs_ st) 42) as [sf|] eqn:Hfind;
    [|vm_compute in Hfind; discriminate].
  destruct (WriteBuffer (P := MemPlatform) sf (bytes "HELLO!") 6 42 w)
    as [[head tail] w1] eqn:Hwb.
  destruct (Write (P := MemPlatform) 4%nat (skipn (Z.to_nat head) (bytes "HELLO!"))
              tail (42 + head) st w1) as [[[ret st2] w2]|] eqn:Hrec.
  - assert (Hvals : head = 2 /\ tail = 4 /\ ret = -1).
    { pose proof Hfind as Hf. vm_compute in Hf. injection Hf as <-.
      pose proof Hwb as Hw. vm_compute in Hw. injection Hw as <- <- <-.
      pose proof Hrec as Hr. vm_compute in Hr. injection Hr as <- _ _.
      auto. }
    destruct Hvals as (Hh & Ht & Hr).
    exists st2, w2. rewrite <- Hr.
    apply (proj1 (Write_tail_failure_propagates (P := MemPlatform)) 4%nat
             (bytes "HELLO!") 6 42 st w sf head tail w1 ret st2 w2);
      try lia; auto.
  - exfalso.
    pose proof Hfind as Hf. vm_compute in Hf. injection Hf as <-.
    pose proof Hwb as Hw. vm_compute in Hw. injection Hw as <- <- <-.
    vm_compute in Hrec. discriminate.
Defined.


(** The line "../evil 4": its path is unsafe and the loop ends with -1. *)
Lemma ParseSpec_rejects_unsafe_paths_witness :
  let '(sf, st, w) := at_parse "m.spec" s2_spec in
  unsafe_path (line_specpath (bytes ("../evil 4" ++ nl))) /\
  ParseSpec_loop sf [bytes ("../evil 4" ++ nl)] 40 st w = (-1, st, w).
Proof.
  destruct (at_parse "m.spec" s2_spec) as [[sf st] w].
  assert (Hu : unsafe_path (line_specpath (bytes ("../evil 4" ++ nl)))).
  { right. exists ""%string, "/evil"%string. reflexivity. }
  split; [exact Hu|].
  exact (proj1 (ParseSpec_rejects_unsafe_paths (P := MemPlatform) sf st w)
           _ [] 40 st w Hu).
Defined.

(** Four calls on [s2_volume], which is in the state
    [STOR_STATE_MFSPEC_COMPLETE]: they return and the state is the same. *)
Lemma terminal_states_absorbing_witness :
  let st := s2_volume.1 in
  let w := s2_volume.2 in
  let cs := [CallWrite 5 (bytes "HELLO!") 6 42; CallRead 5 48 8 37;
             CallResizeReserved 100; CallGetReservedSize] in
  terminal (state_ st) /\
  exists st' w', do_calls cs st w = Some (st', w') /\ state_ st' = state_ st.
Proof.
  intros st w cs.
  assert (Hterm : terminal (state_ st)) by (right; reflexivity).
  split; [exact Hterm|].
  destruct (do_calls (P := MemPlatform) cs st w) as [[st' w']|] eqn:E;
    [|vm_compute in E; discriminate].
  exists st', w'. split; [reflexivity|].
  exact (proj1 (terminal_states_absorbing (P := MemPlatform) cs st w Hterm)
           st' w' E).
Defined.

(** A fresh volume on the path [d], which is a directory: [open] fails,
    and the first [Write] returns -1 leaving the state
    [STOR_STATE_SINGLE_FILE] and the descriptor -1. *)
Lemma OpenSingleFile_failure_is_terminal_witness :
  let st := st_init "d" in
  (sys_open (os_pathname_ st) dir_world).1 < 0 /\
  state_ (OpenSingleFile st dir_world).1.2 = STOR_STATE_SINGLE_FILE /\
  single_fd_ (OpenSingleFile st dir_world).1.2 = -1 /\
  Write 1 (bytes "ABCD") 4 0 st dir_world
  = Some (-1, (OpenSingleFile st dir_world).1.2,
          (OpenSingleFile st dir_world).2).
Proof.
  intros st.
  assert (Hfail : (sys_open (os_pathname_ st) dir_world).1 < 0)
    by (vm_compute; reflexivity).
  destruct (OpenSingleFile_failure_is_terminal (P := MemPlatform) st dir_world)
    as (Hs & _ & Himp).
  destruct (Himp Hfail) as (Hfd & _ & Hw & _).
  split; [exact Hfail|]. split; [exact Hs|]. split; [exact Hfd|].
  apply Hw; reflexivity.
Defined.

(** [s3_volume] knows the size of the spec; the [Write] of the other 16
    bytes of the chunk completes the spec and returns 16. *)
Lemma WriteSpecPart_transitions_witness :
  let st := s3_volume.1 in
  let w := s3_volume.2 in
  let buf := skipn 32 s2_chunk in
  state_ st = STOR_STATE_MFSPEC_SIZE_KNOWN /\
  exists st3 w3,
    Write 10 buf 16 32 st w = Some (16, st3, w3) /\
    state_ st3 = STOR_STATE_MFSPEC_COMPLETE.
Proof.
  intros st w buf.
  assert (Hst : state_ st = STOR_STATE_MFSPEC_SIZE_KNOWN) by reflexivity.
  split; [exact Hst|].
  destruct (sfs_ st !! 0%nat) as [sf|] eqn:H0; [|vm_compute in H0; discriminate].
  destruct (WriteBuffer (P := MemPlatform) sf buf 16 32 w)
    as [[head tail] w1] eqn:Hwb.
  assert (Hht : head = 8 /\ tail = 8 /\ GetEnd sf = 39).
  { pose proof H0 as H0'. vm_compute in H0'. injection H0' as <-.
    pose proof Hwb as Hw. vm_compute in Hw. injection Hw as <- <- _. auto. }
  destruct Hht as (Hh & Ht & He).
  destruct (WriteSpecPart_transitions (P := MemPlatform) 9%nat sf buf 16 32
              st w head tail w1 Hwb ltac:(lia))
    as (Hcomplete & _ & Hdispatch).
  destruct (Hcomplete ltac:(lia)) as (r & st2 & w2 & Hparse & _ & _ & Hok).
  assert (Hr : 0 <= r).
  { pose proof H0 as H0'. vm_compute in H0'. injection H0' as <-.
    pose proof Hwb as Hw. vm_compute in Hw. injection Hw as _ _ <-.
    vm_compute in Hparse. injection Hparse as <- _ _. lia. }
  destruct (Hok Hr ltac:(lia)) as (ret & st3 & w3 & Hrec & Hst3 & Hres).
  assert (Hret : ret = 8).
  { pose proof H0 as H0'. vm_compute in H0'. injection H0' as <-.
    pose proof Hwb as Hw. vm_compute in Hw. injection Hw as <- <- <-.
    pose proof Hparse as Hp. vm_compute in Hp. injection Hp as _ <- <-.
    vm_compute in Hrec. injection Hrec as <- _ _. reflexivity. }
  exists st3, w3. split; [|exact Hst3].
  rewrite (Hdispatch Hst H0), Hres, Hret, Hh. reflexivity.
Defined.

(** Four bytes written at offset 2 of the single file of [s1_volume] are
    read back. *)
Lemma single_file_round_trip_witness :
  let st := s1_volume.1 in
  let w := s1_volume.2 in
  state_ st = STOR_STATE_SINGLE_FILE /\
  exists st' w' w'',
    Write 1 (bytes "WXYZ") 4 2 st w = Some (4, st', w') /\
    Read 1 0 4 2 st' w' = Some (4, bytes "WXYZ", st', w'').
Proof.
  intros st w.
  assert (Hst : state_ st = STOR_STATE_SINGLE_FILE) by reflexivity.
  split; [exact Hst|].
  destruct (Write (P := MemPlatform) 1%nat (bytes "WXYZ") 4 2 st w)
    as [[[r st'] w']|] eqn:Hw;
    [|vm_compute in Hw; discriminate].
  assert (Hr : r = 4)
    by (pose proof Hw as H; vm_compute in H; injection H as <- _ _;
        reflexivity).
  subst r. exists st', w'.
  destruct (single_file_round_trip (P := MemPlatform) 0%nat 0%nat 0
              (bytes "WXYZ") 4 2 st st' w w' MemFS_pwrite_pread Hst eq_refl Hw)
    as [w'' Hread].
  exists w''. split; [reflexivity|exact Hread].
Defined.

(** A fresh volume with 16 bytes reserved: after the first [Write] of 8
    bytes the single file has at least 16 bytes. *)
Lemma postponed_reserve_replayed_witness :
  let st := st_init "/tmp/v" in
  let w := MemFS.init [] in
  ResizeReserved 16 st w = (0, set_reserved_size 16 st, w) /\
  exists r st' w',
    Write 2 (bytes "ABCDEFGH") 8 0 (set_reserved_size 16 st) w
    = Some (r, st', w') /\
    state_ st' = STOR_STATE_SINGLE_FILE /\
    16 <= (file_size (single_fd_ st') w').1.
Proof.
  intros st w.
  destruct (postponed_reserve_replayed (P := MemPlatform) 16 st w
              MemFS_file_resize MemFS_pwrite_grows ltac:(lia) eq_refl)
    as (H1 & _ & H3 & _).
  split; [exact H1|].
  destruct (H3 0%nat (bytes "ABCDEFGH") 8 w eq_refl)
    as [[[[r st'] w'] Hw] Hsz].
  exists r, st', w'. split; [exact Hw|].
  apply (Hsz r st' w' Hw).
  pose proof Hw as H. vm_compute in H. injection H as <- _ _. lia.
Defined.

(** * Further properties *)

(** ** Further properties of the offset index and of the writes *)

Lemma FindStorageFile_none_outside (sfs : list StorageFile) (o : Z) :
  (forall sf, sf ∈ sfs -> ~ contains sf o) -> FindStorageFile sfs o = None.
Proof.
  intros Hout. destruct (FindStorageFile sfs o) as [sf|] eqn:E; [|reflexivity].
  apply FindStorageFile_loop_sound in E as [Hel Hin].
  exfalso. exact (Hout sf Hel Hin).
Qed.

(** X3.  Whatever the vector holds, sorted or not, a file that
    [FindStorageFile] returns is a file of the vector and its interval
    contains the offset; on an empty vector the search returns NULL. *)
Theorem FindStorageFile_sound (sfs : list StorageFile) (o : Z) :
  (forall sf, FindStorageFile sfs o = Some sf -> sf ∈ sfs /\ contains sf o) /\
  FindStorageFile [] o = None.
Proof.
  split.
  - intros sf E. exact (FindStorageFile_loop_sound _ _ _ _ _ E).
  - apply FindStorageFile_none_outside. intros sf Hel.
    apply elem_of_nil in Hel. contradiction.
Qed.

Section WritesAndReads.
Context {P : Platform}.

(** The pair of [WriteBuffer]: (-1, -1), or a head and a tail that add
    up to [nbyte], the tail being 0 unless the bytes reach past the end
    of the file. *)
Lemma WriteBuffer_split sf buf nbyte offset w ht w1 :
  WriteBuffer sf buf nbyte offset w = (ht, w1) ->
  ht = (-1, -1) \/ (ht.1 + ht.2 = nbyte /\ (ht.2 <= 0 -> ht.2 = 0)).
Proof.
  unfold WriteBuffer. intros H.
  destruct (offset + nbyte <=? GetEnd sf + 1) eqn:Hle.
  - destruct (StorageFile_Write _ _ _ _ _) as [ret w'].
    destruct (ret <? 0); injection H as <- _; [left; reflexivity|].
    right. cbn. lia.
  - apply Z.leb_gt in Hle.
    destruct (StorageFile_Write _ _ _ _ _) as [ret w'].
    destruct (ret <? 0); injection H as <- _; [left; reflexivity|].
    right. cbn. lia.
Qed.

Lemma Write_complete_result fuel buf nbyte offset st w r st' w' :
  state_ st = STOR_STATE_MFSPEC_COMPLETE ->
  Write fuel buf nbyte offset st w = Some (r, st', w') ->
  r = -1 \/ r = nbyte.
Proof.
  intros Hst. revert buf nbyte offset w r st' w'.
  induction fuel as [|g IH]; intros buf nbyte offset w r st' w' H;
    [discriminate|].
  cbn [Write] in H. rewrite Hst in H.
  destruct (FindStorageFile (sfs_ st) offset) as [sf|];
    [|injection H as <- _ _; auto].
  destruct (WriteBuffer sf buf nbyte offset w) as [ht w1] eqn:Hwb.
  apply WriteBuffer_split in Hwb.
  destruct (ht.1 =? -1) eqn:Hfirst; [injection H as <- _ _; auto|].
  apply Z.eqb_neq in Hfirst.
  destruct Hwb as [->|[Hsum Htail]]; [cbn in Hfirst; lia|].
  destruct (ht.2 >? 0) eqn:Hsecond.
  - destruct (Write g _ _ _ st w1) as [[[ret st2] w2]|] eqn:E; [|discriminate].
    apply IH in E.
    destruct (ret <? 0) eqn:Hret; injection H as <- _ _.
    + apply Z.ltb_lt in Hret. lia.
    + apply Z.ltb_ge in Hret. lia.
  - injection H as <- _ _. right.
    assert (ht.2 <= 0) by (destruct (Z.gtb_spec ht.2 0); [discriminate|lia]).
    lia.
Qed.

(** Where the offset is not negative, the count fits [int] and the end
    of the file is below [INT64_MAX], the test of line 225 has on the
    machine the value it has in [Z]. *)
Lemma covers_unsigned_agrees sf nbyte offset :
  contains sf offset -> 0 <= offset -> 0 <= nbyte <= INT_MAX ->
  GetEnd sf < INT64_MAX ->
  covers_unsigned sf nbyte offset = (offset + nbyte <=? GetEnd sf + 1).
Proof.
  unfold contains, covers_unsigned, to_size_t, INT_MAX, INT64_MAX.
  intros [_ Hhi] Ho Hn He.
  rewrite !Z.mod_small by lia. reflexivity.
Qed.

(** A count from -1 to [INT_MAX] is the value an [int] holds of it. *)
Lemma to_int_small (x : Z) : -1 <= x <= INT_MAX -> to_int x = x.
Proof.
  unfold to_int, INT_MAX. intros H. rewrite Z.mod_small by lia. lia.
Qed.

(** The bounds on the offset and on the count hold again of the tail
    that [Write] passes on to itself. *)
Lemma WriteBuffer_tail_in_range sf buf nbyte offset w ht w1 :
  contains sf offset -> 0 <= offset -> 0 <= nbyte <= INT_MAX ->
  WriteBuffer sf buf nbyte offset w = (ht, w1) -> ht.1 <> -1 ->
  0 <= offset + ht.1 /\ 0 <= ht.2 <= INT_MAX.
Proof.
  unfold contains, WriteBuffer. intros [_ Hhi] Ho Hn H Hfirst.
  destruct (offset + nbyte <=? GetEnd sf + 1) eqn:Hle.
  - destruct (StorageFile_Write _ _ _ _ _) as [ret w'].
    destruct (ret <? 0); injection H as <- _; cbn in *; lia.
  - apply Z.leb_gt in Hle.
    destruct (StorageFile_Write _ _ _ _ _) as [ret w'].
    destruct (ret <? 0); injection H as <- _; cbn in *; lia.
Qed.

(** X1.  In [STOR_STATE_MFSPEC_COMPLETE] a [Write] of [nbyte] bytes, at
    an offset that is not negative and with a count that fits [int],
    returns once the fuel exceeds [nbyte], and what it returns is -1 or
    [nbyte]: never the count of a part, and whatever counts the writes
    to the files returned, as long as none was negative.  The result
    fits the [int ret] it is assigned to, and the object is left as it
    was.  (The bounds keep the machine in step with [Z]: they hold again
    of every tail, [WriteBuffer_tail_in_range], so that the test of line
    225 compares numbers that are not negative,
    [covers_unsigned_agrees], and no [int ret] is cut.) *)
Theorem Write_complete_all_or_error (fuel : nat) (buf : list byte)
  (nbyte offset : Z) (st : Storage) (w : world) :
  state_ st = STOR_STATE_MFSPEC_COMPLETE ->
  0 <= offset -> 0 <= nbyte <= INT_MAX ->
  ((Z.to_nat nbyte < fuel)%nat ->
   is_Some (Write fuel buf nbyte offset st w)) /\
  (forall r st' w',
     Write fuel buf nbyte offset st w = Some (r, st', w') ->
     (r = -1 \/ r = nbyte) /\ to_int r = r /\ st' = st).
Proof.
  intros Hst Ho Hn. split.
  - apply Write_complete_returns. exact Hst.
  - intros r st' w' H.
    pose proof (Write_complete_result _ _ _ _ _ _ _ _ _ Hst H) as Hr.
    split; [exact Hr|]. split.
    + apply to_int_small. lia.
    + apply (Write_terminal_object _ _ _ _ _ _ _ _ _ (or_intror Hst) H).
Qed.

(** X2.  An offset that no file of the volume contains (a negative one,
    one past the last file, one in a gap): in
    [STOR_STATE_MFSPEC_COMPLETE] [Write] returns -1 with [errno] set to
    [EINVAL], and so does [Read], there and in
    [STOR_STATE_MFSPEC_SIZE_KNOWN]; no file is touched and the object is
    left as it was. *)
Theorem offset_outside_files_rejected (fuel : nat) (ht_size : Z)
  (buf : list byte) (nbyte offset : Z) (st : Storage) (w : world) :
  (forall sf, sf ∈ sfs_ st -> ~ contains sf offset) ->
  (state_ st = STOR_STATE_MFSPEC_COMPLETE ->
   Write (S fuel) buf nbyte offset st w
   = Some (-1, st, set_errno EINVAL w)) /\
  (state_ st = STOR_STATE_MFSPEC_COMPLETE \/
   state_ st = STOR_STATE_MFSPEC_SIZE_KNOWN ->
   Read (S fuel) ht_size nbyte offset st w
   = Some (-1, [], st, set_errno EINVAL w)).
Proof.
  intros Hout. apply FindStorageFile_none_outside in Hout. split.
  - intros Hst. cbn [Write]. rewrite Hst, Hout. reflexivity.
  - intros [Hst|Hst]; cbn [Read]; rewrite Hst, Hout; reflexivity.
Qed.

(** X4.  [WriteBuffer] on a file that contains the offset, for a file
    that starts at 0 or above and ends below [INT64_MAX] and a count that
    fits [int] (the test of line 225 then has on the machine the value
    it has in [Z]), where [pwrite] returns -1 or at most the count
    it is given (the [int ret] then holds what the write returned): it
    passes the file one write, of
    [count = min(nbyte, end + 1 - offset)] bytes at the offset counted
    from the start of the file; the write begins inside the file and
    does not reach past the size of the file.  The pair returned is
    (-1, -1) when that write fails and [(count, nbyte - count)]
    otherwise. *)
Theorem WriteBuffer_clips_to_file (sf : StorageFile) (buf : list byte)
  (nbyte offset : Z) (w : world) :
  pwrite_bounded_law ->
  contains sf offset -> 0 <= GetStart sf -> GetEnd sf < INT64_MAX ->
  0 <= nbyte <= INT_MAX ->
  let count := Z.min nbyte (GetEnd sf + 1 - offset) in
  let local := offset - GetStart sf in
  covers_unsigned sf nbyte offset = (offset + nbyte <=? GetEnd sf + 1) /\
  0 <= local /\ 0 <= count /\ local + count <= GetSize sf /\
  to_int (StorageFile_Write sf buf count local w).1
  = (StorageFile_Write sf buf count local w).1 /\
  WriteBuffer sf buf nbyte offset w =
  let '(ret, w') := StorageFile_Write sf buf count local w in
  if ret <? 0 then ((-1, -1), w') else ((count, nbyte - count), w').
Proof.
  intros Hlaw Hin Hs He Hn count local.
  assert (Ho : 0 <= offset) by (destruct Hin; lia).
  split; [apply covers_unsigned_agrees; assumption|].
  destruct Hin as [Hlo Hhi]. subst count local.
  unfold GetSize, GetStart, GetEnd in *. repeat split; try lia.
  - apply to_int_small. unfold StorageFile_Write.
    destruct (Hlaw (fd_ sf) buf (Z.min nbyte (end_ sf + 1 - offset))
                (offset - start_ sf) w) as [->|H]; lia.
  - unfold WriteBuffer, GetStart, GetEnd.
    destruct (offset + nbyte <=? end_ sf + 1) eqn:Hle.
    + apply Z.leb_le in Hle. rewrite Z.min_l by lia.
      rewrite Z.sub_diag. reflexivity.
    + apply Z.leb_gt in Hle. rewrite Z.min_r by lia. reflexivity.
Qed.

(** X13.  [Read] in a multi-file state, at an offset that is not the
    size of the content, when [pread] on the file found for the offset
    returns 0 bytes (the file on disk ends at or before the offset) and
    leaves the system as it is: the call repeats itself with the same
    arguments and does not return, whatever stack it is given. *)
Theorem Read_empty_pread_never_returns (fuel : nat) (ht_size nbyte offset : Z)
  (st : Storage) (w : world) (sf : StorageFile) (data : list byte) :
  state_ st = STOR_STATE_MFSPEC_COMPLETE \/
  state_ st = STOR_STATE_MFSPEC_SIZE_KNOWN ->
  FindStorageFile (sfs_ st) offset = Some sf ->
  sys_pread (fd_ sf) nbyte (offset - GetStart sf) w = (0, data, w) ->
  0 < nbyte -> offset <> ht_size ->
  Read fuel ht_size nbyte offset st w = None.
Proof.
  intros Hst Hfind Hread Hn Hne.
  induction fuel as [|g IH]; [reflexivity|].
  assert (Hstep :
    match FindStorageFile (sfs_ st) offset with
    | None => Some (-1, [], st, set_errno EINVAL w)
    | Some sf =>
        let '(ret, data, w1) :=
          StorageFile_Read sf nbyte (offset - GetStart sf) w in
        if ret <? 0 then Some (ret, data, st, w1)
        else if (ret <? nbyte) && negb (offset + ret =? ht_size) then
          match Read g ht_size (nbyte - ret) (offset + ret) st w1 with
          | None => None
          | Some (newret, data', st2, w2) =>
              if newret <? 0 then Some (newret, data ++ data', st2, w2)
              else Some (ret + newret, data ++ data', st2, w2)
          end
        else Some (ret, data, st, w1)
    end = None).
  { rewrite Hfind. unfold StorageFile_Read. rewrite Hread.
    cbn [Z.ltb Z.compare].
    replace (0 <? nbyte) with true by (symmetry; apply Z.ltb_lt; lia).
    rewrite Z.add_0_r, Z.sub_0_r.
    replace (offset =? ht_size) with false by (symmetry; apply Z.eqb_neq; lia).
    cbn [andb negb]. rewrite IH. reflexivity. }
  cbn [Read]. destruct Hst as [Hst|Hst]; rewrite Hst; exact Hstep.
Qed.

End WritesAndReads.

(** ** Destruction *)

Section Destruction.
Context {P : Platform}.
Variable sys_close : Z -> world -> Z * world.

Lemma delete_loop_open_files (sfs : list StorageFile) (w : world) :
  Forall (fun sf => 0 <= fd_ sf) sfs -> delete_loop sys_close sfs w = w.
Proof.
  intros H. revert w. induction H as [|sf rest Hfd _ IH]; intros w;
    [reflexivity|].
  cbn [delete_loop]. unfold delete_StorageFile.
  replace (fd_ sf <? 0) with false by (symmetry; apply Z.ltb_ge; lia).
  apply IH.
Qed.

(** X16.  The destructor of [StorageFile] calls [close] when [fd_] is
    negative, that is, when there is nothing to close.  So the
    destructor of a volume whose files all hold a descriptor that [open]
    returned closes none of them: what it does to the system is the
    [close] of [single_fd_] when that is not -1, and nothing else. *)
Theorem destructor_closes_no_open_file (st : Storage) (w : world) :
  Forall (fun sf => 0 <= fd_ sf) (sfs_ st) ->
  (delete_Storage sys_close st w).2 =
  (if negb (single_fd_ st =? -1) then (sys_close (single_fd_ st) w).2 else w)
  /\ sfs_ (delete_Storage sys_close st w).1 = [].
Proof.
  intros H. unfold delete_Storage. cbn [fst snd sfs_].
  split; [|reflexivity]. apply delete_loop_open_files. exact H.
Qed.

End Destruction.

(** ** The fresh volume *)

Section FreshVolume.
Context {P : Platform}.

Lemma set_reserved_size_same st : set_reserved_size (reserved_size_ st) st = st.
Proof. destruct st; reflexivity. Qed.

Lemma do_call_fresh c st w :
  state_ st = STOR_STATE_INIT -> not_first_chunk c -> has_fuel c ->
  do_call c st w
  = Some (set_reserved_size (last_reserved [c] (reserved_size_ st)) st,
          Nat.iter (writes_and_reads [c]) (set_errno EINVAL) w).
Proof.
  intros Hst Hnot Hfuel.
  destruct c as [fuel buf nbyte offset|fuel ht nbyte offset|size|];
    cbn [do_call not_first_chunk has_fuel last_reserved writes_and_reads
         Nat.iter nat_rect] in *.
  - destruct fuel as [|g]; [lia|]. cbn [Write]. rewrite Hst.
    replace (offset =? 0) with false by (symmetry; apply Z.eqb_neq; lia).
    cbn [negb]. rewrite set_reserved_size_same. reflexivity.
  - destruct fuel as [|g]; [lia|]. cbn [Read]. rewrite Hst.
    rewrite set_reserved_size_same. reflexivity.
  - unfold ResizeReserved. rewrite Hst. reflexivity.
  - unfold GetReservedSize. rewrite Hst.
    rewrite set_reserved_size_same. reflexivity.
Qed.

Lemma set_reserved_size_twice size size' st :
  set_reserved_size size' (set_reserved_size size st)
  = set_reserved_size size' st.
Proof. reflexivity. Qed.

(** X5.  A volume in [STOR_STATE_INIT] waits for its first chunk: every
    sequence of calls that holds no [Write] at offset 0 returns, makes
    no system call (the system changes by one assignment of [EINVAL] to
    [errno] for each [Write] and each [Read], and by nothing else) and
    leaves the object as it was, but for [reserved_size_], which holds
    the size of the last [ResizeReserved] of the sequence; it holds
    what it held when the sequence has no [ResizeReserved]. *)
Theorem fresh_volume_waits_for_first_chunk (cs : list call) (st : Storage)
  (w : world) :
  state_ st = STOR_STATE_INIT ->
  Forall not_first_chunk cs -> Forall has_fuel cs ->
  do_calls cs st w
  = Some (set_reserved_size (last_reserved cs (reserved_size_ st)) st,
          Nat.iter (writes_and_reads cs) (set_errno EINVAL) w).
Proof.
  intros Hst Hnot. revert st w Hst.
  induction Hnot as [|c rest Hc _ IH]; intros st w Hst Hfuel.
  - cbn. rewrite set_reserved_size_same. reflexivity.
  - inversion Hfuel as [|? ? Hf Hrest]; subst.
    cbn [do_calls]. rewrite (do_call_fresh c st w Hst Hc Hf).
    rewrite (IH (set_reserved_size (last_reserved [c] (reserved_size_ st)) st)
               _ Hst Hrest).
    rewrite set_reserved_size_twice.
    f_equal. f_equal.
    + destruct c; reflexivity.
    + rewrite <- Nat.iter_add. f_equal.
      destruct c; cbn [writes_and_reads]; lia.
Qed.

(** X7.  The first chunk of a single file when the postponed resize
    fails: [open] gave the descriptor [fd], but [file_resize] to the
    reserved size returns a negative status.  [Write] then returns -1
    without writing the chunk (the system is as [file_resize] left it),
    and the volume is in [STOR_STATE_SINGLE_FILE] with the file open:
    the writes that follow are [pwrite] on [fd]. *)
Theorem postponed_resize_failure_drops_chunk (fuel : nat) (buf : list byte)
  (nbyte : Z) (st : Storage) (w : world) (fd : Z) (w1 : world) (ret : Z)
  (w2 : world) :
  state_ st = STOR_STATE_INIT ->
  strncmp_eq buf MULTIFILE_PATHNAME = false ->
  reserved_size_ st <> -1 ->
  sys_open (os_pathname_ st) w = (fd, w1) -> 0 <= fd ->
  file_resize fd (reserved_size_ st) w1 = (ret, w2) -> ret < 0 ->
  let st' := set_single_fd fd (set_state STOR_STATE_SINGLE_FILE st) in
  Write (S fuel) buf nbyte 0 st w = Some (-1, st', w2) /\
  (forall fuel' buf' nbyte' offset' w3,
     Write (S fuel') buf' nbyte' offset' st' w3 =
     let '(r, w4) := sys_pwrite fd buf' nbyte' offset' w3 in
     Some (r, st', w4)).
Proof.
  intros Hst Hcmp Hres Hopen Hfd Hresize Hret st'. split.
  - cbn [Write]. rewrite Hst, Hcmp. cbn [Z.eqb negb].
    unfold OpenSingleFile. cbn [set_state os_pathname_]. rewrite Hopen.
    replace (fd <? 0) with false by (symmetry; apply Z.ltb_ge; lia).
    cbn [set_single_fd set_state reserved_size_].
    replace (reserved_size_ st =? -1) with false
      by (symmetry; apply Z.eqb_neq; exact Hres).
    cbn [negb]. unfold ResizeReserved.
    cbn [set_single_fd set_state state_ single_fd_ reserved_size_].
    rewrite Hresize. apply Z.ltb_lt in Hret.
    rewrite Hret. cbv beta iota. rewrite Hret. reflexivity.
  - intros fuel' buf' nbyte' offset' w3.
    apply (Write_single_file fuel' buf' nbyte' offset' st' w3). reflexivity.
Qed.

End FreshVolume.

(** ** Further properties of the parser *)

Section ParserLayout.
Context {P : Platform}.

Lemma ParseSpec_loop_all_ok sf lines offset st w :
  forallb line_ok lines = true ->
  (ParseSpec_loop sf lines offset st w).1.1 = 0.
Proof.
  revert offset st w. induction lines as [|line rest IH]; intros offset st w H.
  - reflexivity.
  - cbn [forallb] in H. apply andb_true_iff in H as [Hok Hrest].
    rewrite ParseSpec_loop_cons, Hok.
    destruct (offset =? 0); [auto|].
    destruct (new_StorageFile _ _ _ w) as [sf' w']. auto.
Qed.

Lemma ParseSpec_loop_first_bad sf good bad rest offset st w :
  forallb line_ok good = true -> line_ok bad = false ->
  ParseSpec_loop sf (good ++ bad :: rest) offset st w =
  (-1, (ParseSpec_loop sf good offset st w).1.2,
   (ParseSpec_loop sf good offset st w).2).
Proof.
  intros Hgood Hbad. revert offset st w Hgood.
  induction good as [|line good IH]; intros offset st w Hgood.
  - cbn [app]. rewrite ParseSpec_loop_cons, Hbad. reflexivity.
  - cbn [forallb] in Hgood. apply andb_true_iff in Hgood as [Hok Hgood].
    cbn [app]. rewrite !ParseSpec_loop_cons, Hok.
    destruct (offset =? 0); [auto|].
    destruct (new_StorageFile _ _ _ w) as [sf' w']. auto.
Qed.

(** X8.  [ParseSpec] stops at the first line that does not pass its
    tests, with -1: the lines after it are not read, and nothing is
    undone, the object and the system are as the parse of the lines
    before it leaves them (the files of those lines are in [sfs_] and
    have been created). *)
Theorem ParseSpec_stops_at_first_bad_line (sf : StorageFile) (st : Storage)
  (w : world) (content : list byte) (w1 : world)
  (good : list (list byte)) (bad : list byte) (rest : list (list byte)) :
  sys_fopen_rb (GetSpecPathName sf) w = (Some content, w1) ->
  fgets_lines (length content) (MULTIFILE_MAX_LINE - 1) content
  = good ++ bad :: rest ->
  forallb line_ok good = true -> line_ok bad = false ->
  (ParseSpec_loop sf good 0 st w1).1.1 = 0 /\
  ParseSpec sf st w =
  (-1, (ParseSpec_loop sf good 0 st w1).1.2,
   (ParseSpec_loop sf good 0 st w1).2).
Proof.
  intros Hopen Hlines Hgood Hbad. split.
  - apply ParseSpec_loop_all_ok. exact Hgood.
  - unfold ParseSpec. rewrite Hopen, Hlines.
    apply ParseSpec_loop_first_bad; assumption.
Qed.

(** X9.  The status of [ParseSpec] is 0 or -1, and it is 0 exactly when
    the file of the spec can be opened and every line of it passes the
    three tests of the loop. *)
Theorem ParseSpec_status (sf : StorageFile) (st : Storage) (w : world) :
  ((ParseSpec sf st w).1.1 = 0 \/ (ParseSpec sf st w).1.1 = -1) /\
  ((ParseSpec sf st w).1.1 = 0 <->
   (sys_fopen_rb (GetSpecPathName sf) w).1 <> None /\
   forallb line_ok (spec_lines sf w) = true).
Proof.
  split.
  - destruct (ParseSpec sf st w) as [[r st'] w'] eqn:E.
    apply ParseSpec_appends in E as (_ & _ & _ & Hr). exact Hr.
  - unfold ParseSpec, spec_lines.
    destruct (sys_fopen_rb (GetSpecPathName sf) w) as [[content|] w1];
      cbn [fst snd].
    + set (lines := fgets_lines _ _ _). split.
      * intros H0. split; [discriminate|].
        destruct (forallb line_ok lines) eqn:Hall; [reflexivity|exfalso].
        assert (Hex : Exists (fun line => line_ok line = false) lines).
        { clear H0. induction lines as [|l ls IH]; [discriminate|].
          cbn [forallb] in Hall. destruct (line_ok l) eqn:Hl.
          - right. apply IH. exact Hall.
          - left. exact Hl. }
        pose proof (ParseSpec_loop_bad_line_fails sf lines 0 st w1 Hex).
        lia.
      * intros [_ Hall]. apply ParseSpec_loop_all_ok. exact Hall.
    + split; [intros H; discriminate|intros [H _]; contradiction].
Qed.

Lemma ParseSpec_loop_layout sf lines offset st w :
  forallb line_ok lines = true -> 0 < offset ->
  sizes_fit sf lines offset ->
  exists added,
    sfs_ (ParseSpec_loop sf lines offset st w).1.2 = sfs_ st ++ added /\
    map file_extent added = spec_layout lines offset /\
    Forall (fun f => offset <= GetStart f <= GetEnd f + 1 /\
                     GetEnd f < INT64_MAX) added.
Proof.
  revert offset st w.
  induction lines as [|line rest IH]; intros offset st w Hok Hpos Hfit.
  - exists []. rewrite app_nil_r. repeat split. constructor.
  - cbn [forallb] in Hok. apply andb_true_iff in Hok as [Hline Hrest].
    cbn [sizes_fit] in Hfit.
    rewrite ParseSpec_loop_cons, Hline.
    replace (offset =? 0) with false in *
      by (symmetry; apply Z.eqb_neq; lia).
    destruct Hfit as (Hsize & Hmax & Hfit).
    destruct (new_StorageFile _ _ _ w) as [sf' w'] eqn:Hnew.
    apply new_StorageFile_fields in Hnew as (Hpath & Hstart & Hend).
    rewrite to_int64_small in Hend by (unfold INT64_MIN; lia).
    rewrite to_int64_small by (unfold INT64_MIN; lia).
    destruct (IH (offset + line_fsize line) (push_back sf' st) w' Hrest
                ltac:(lia) Hfit) as (added & Hsfs & Hmap & Hrange).
    exists (sf' :: added). split; [|split].
    + rewrite Hsfs. cbn [push_back sfs_]. rewrite <- app_assoc. reflexivity.
    + cbn [map spec_layout]. rewrite Hmap. f_equal.
      unfold file_extent, GetSpecPathName, GetStart, GetEnd.
      rewrite Hpath, Hstart, Hend. reflexivity.
    + constructor.
      * unfold GetStart, GetEnd. rewrite Hstart, Hend. lia.
      * apply (Forall_impl _ _ _ Hrange). intros f Hf. lia.
Qed.

(** X10.  The layout of a well-formed spec.  When every line passes the
    tests, the entry of the spec has a positive size and the sizes fit
    [int64_t] (no line after the first holds a negative size, and with
    the size of the spec entry they add up to at most [INT64_MAX], so
    that [sscanf] stores them as they are written and no sum wraps
    around), the loop of [ParseSpec] returns 0 and appends one file for
    each line after the first, in the order of the lines: the file has
    the path of its line, the first of them starts at the size of the
    spec entry and each next one where the one before it ends; every
    start is positive and every end is below [INT64_MAX].  The size on
    the first line is not used. *)
Theorem ParseSpec_layout (sf : StorageFile) (first : list byte)
  (rest : list (list byte)) (st : Storage) (w : world) :
  forallb line_ok (first :: rest) = true ->
  0 < GetSize sf ->
  sizes_fit sf (first :: rest) 0 ->
  (ParseSpec_loop sf (first :: rest) 0 st w).1.1 = 0 /\
  exists added,
    sfs_ (ParseSpec_loop sf (first :: rest) 0 st w).1.2 = sfs_ st ++ added /\
    map file_extent added = spec_layout rest (GetSize sf) /\
    Forall (fun f => 0 < GetStart f <= GetEnd f + 1 /\
                     GetEnd f < INT64_MAX) added.
Proof.
  intros Hok Hsize Hfit. split.
  - apply ParseSpec_loop_all_ok. exact Hok.
  - cbn [forallb] in Hok. apply andb_true_iff in Hok as [Hfirst Hrest].
    cbn [sizes_fit Z.eqb Z.add] in Hfit. destruct Hfit as (_ & Hmax & Hfit).
    rewrite ParseSpec_loop_cons, Hfirst. cbn [Z.eqb Z.add].
    rewrite to_int64_small by (unfold INT64_MIN; lia).
    destruct (ParseSpec_loop_layout sf rest (GetSize sf) st w Hrest Hsize Hfit)
      as (added & Hsfs & Hmap & Hrange).
    exists added. split; [exact Hsfs|]. split; [exact Hmap|].
    apply (Forall_impl _ _ _ Hrange). intros f Hf. lia.
Qed.

End ParserLayout.

(** ** Round trips *)

Section RoundTrips.
Context {P : Platform}.

(** X14.  The round trip through a file of a multi-file volume.  In
    [STOR_STATE_MFSPEC_COMPLETE], for bytes that lie inside the file
    found for the offset, a file that starts at 0 or above and ends
    below [INT64_MAX], with a count that fits [int] (the test of line
    225 then succeeds on the machine as it does in [Z]):
    when the write to that file wrote them all, [Write] returns [nbyte]
    and a [Read] of [nbyte] bytes at the offset returns them. *)
Theorem multi_file_round_trip (fuel fuel' : nat) (ht_size : Z)
  (buf : list byte) (nbyte offset : Z) (st : Storage) (w w' : world)
  (sf : StorageFile) :
  pwrite_pread_law ->
  state_ st = STOR_STATE_MFSPEC_COMPLETE ->
  FindStorageFile (sfs_ st) offset = Some sf ->
  0 <= GetStart sf -> GetEnd sf < INT64_MAX -> nbyte <= INT_MAX ->
  offset + nbyte <= GetEnd sf + 1 ->
  Z.of_nat (length buf) = nbyte ->
  StorageFile_Write sf buf nbyte (offset - GetStart sf) w = (nbyte, w') ->
  covers_unsigned sf nbyte offset = true /\
  Write (S fuel) buf nbyte offset st w = Some (nbyte, st, w') /\
  exists w'',
    Read (S fuel') ht_size nbyte offset st w' = Some (nbyte, buf, st, w'').
Proof.
  intros Hlaw Hst Hfind Hs He Hmax Hin Hlen Hw.
  assert (Hn : 0 <= nbyte) by lia. split; [|split].
  - pose proof (FindStorageFile_loop_sound _ _ _ _ _ Hfind) as [_ Hc].
    assert (Ho : 0 <= offset) by (destruct Hc; lia).
    rewrite (covers_unsigned_agrees sf nbyte offset Hc Ho) by lia.
    apply Z.leb_le. exact Hin.
  - cbn [Write]. rewrite Hst, Hfind. unfold WriteBuffer.
    replace (offset + nbyte <=? GetEnd sf + 1) with true
      by (symmetry; apply Z.leb_le; lia).
    rewrite Hw.
    replace (nbyte <? 0) with false by (symmetry; apply Z.ltb_ge; lia).
    cbn [fst snd].
    replace (nbyte =? -1) with false by (symmetry; apply Z.eqb_neq; lia).
    reflexivity.
  - cbn [Read]. rewrite Hst, Hfind. unfold StorageFile_Read.
    unfold StorageFile_Write in Hw.
    pose proof (Hlaw _ _ _ _ _ _ Hw Hlen) as Hr.
    destruct (sys_pread (fd_ sf) nbyte (offset - GetStart sf) w')
      as [[r d] w''].
    cbn in Hr. injection Hr as -> ->.
    replace (nbyte <? 0) with false by (symmetry; apply Z.ltb_ge; lia).
    rewrite Z.ltb_irrefl. cbn [andb]. eauto.
Qed.

(** X15.  The round trip of the first chunk of a single file.  When a
    [Write] at offset 0 on a volume in [STOR_STATE_INIT], of [nbyte]
    bytes that do not start with the name of the spec, returns [nbyte],
    the volume is in [STOR_STATE_SINGLE_FILE] and a [Read] of [nbyte]
    bytes at offset 0 returns the bytes. *)
Theorem first_chunk_round_trip (fuel fuel' : nat) (ht_size : Z)
  (buf : list byte) (nbyte : Z) (st st' : Storage) (w w' : world) :
  pwrite_pread_law ->
  state_ st = STOR_STATE_INIT ->
  strncmp_eq buf MULTIFILE_PATHNAME = false ->
  Z.of_nat (length buf) = nbyte ->
  Write fuel buf nbyte 0 st w = Some (nbyte, st', w') ->
  state_ st' = STOR_STATE_SINGLE_FILE /\
  exists w'',
    Read (S fuel') ht_size nbyte 0 st' w' = Some (nbyte, buf, st', w'').
Proof.
  intros Hlaw Hst Hcmp Hlen H.
  destruct fuel as [|g]; [discriminate|].
  cbn [Write] in H. rewrite Hst, Hcmp in H. cbn [Z.eqb negb] in H.
  pose proof (OpenSingleFile_state st w) as Hs.
  destruct (OpenSingleFile st w) as [[ret st1] w1]. cbn [fst snd] in Hs.
  destruct (ret <? 0); [injection H as Hn _ _; lia|].
  destruct g as [|g]; [discriminate|].
  rewrite (Write_single_file _ _ _ _ _ _ Hs) in H.
  destruct (sys_pwrite (single_fd_ st1) buf nbyte 0 w1) as [r w2] eqn:Hw.
  injection H as -> <- <-. split; [exact Hs|].
  rewrite (Read_single_file _ _ _ _ _ _ Hs).
  pose proof (Hlaw _ _ _ _ _ _ Hw Hlen) as Hr.
  destruct (sys_pread (single_fd_ st1) nbyte 0 w2) as [[r d] w3].
  cbn in Hr. injection Hr as -> ->. eauto.
Qed.

End RoundTrips.

(** ** What every call keeps true of the volume *)

Lemma evolves_refl st : evolves st st.
Proof. unfold evolves. auto. Qed.

Lemma evolves_trans st1 st2 st3 :
  evolves st1 st2 -> evolves st2 st3 -> evolves st1 st3.
Proof.
  intros (Hp & Hs & Hk) (Hp' & Hs' & Hk'). split; [congruence|]. split.
  - etransitivity; eassumption.
  - auto.
Qed.

Lemma volume_ok_multi st :
  sfs_ st <> [] -> single_fd_ st = -1 -> volume_ok st.
Proof. intros Hne Hfd. split; auto. Qed.

Lemma volume_ok_single st :
  state_ st = STOR_STATE_SINGLE_FILE -> volume_ok st.
Proof.
  intros Hs. split.
  - intros [H|H]; congruence.
  - intros H. contradiction.
Qed.

Section Invariants.
Context {P : Platform}.

Lemma OpenSingleFile_object st w :
  exists fd,
    (OpenSingleFile st w).1.2
    = set_single_fd fd (set_state STOR_STATE_SINGLE_FILE st).
Proof.
  unfold OpenSingleFile. destruct (sys_open _ w) as [fd w1].
  exists (if fd <? 0 then -1 else fd).
  cbn [set_single_fd set_state reserved_size_].
  destruct (negb (reserved_size_ st =? -1)); [|reflexivity].
  unfold ResizeReserved.
  cbn [set_single_fd set_state state_ single_fd_ reserved_size_].
  destruct (file_resize _ _ w1) as [ret w2].
  destruct (ret <? 0); reflexivity.
Qed.

Lemma OpenSingleFile_evolves st w : evolves st (OpenSingleFile st w).1.2.
Proof.
  destruct (OpenSingleFile_object st w) as [fd ->].
  split; [reflexivity|]. split; [reflexivity|].
  intros _. apply volume_ok_single. reflexivity.
Qed.

Lemma ResizeReserved_object size st w :
  (ResizeReserved size st w).1.2 = st \/
  (ResizeReserved size st w).1.2 = set_reserved_size size st.
Proof.
  unfold ResizeReserved. destruct (state_ st); cbn [fst snd]; auto.
  - destruct (GetReservedSize st w) as [[cur st1] w1] eqn:Hg.
    apply GetReservedSize_object in Hg as ->.
    destruct (size >? cur); [|auto].
    destruct (ResizeReserved_loop _ _). auto.
  - destruct (file_resize _ _ _). auto.
Qed.

Lemma WriteSpecPart_evolves g sf buf nbyte offset st w r st' w' :
  WriteSpecPart (Write g) sf buf nbyte offset st w = Some (r, st', w') ->
  sfs_ st <> [] ->
  os_pathname_ st' = os_pathname_ st /\ sfs_ st `prefix_of` sfs_ st' /\
  (single_fd_ st = -1 -> volume_ok st').
Proof.
  intros H Hne. apply WriteSpecPart_object in H as [->|[->|[w1 ->]]].
  - split; [reflexivity|]. split; [reflexivity|].
    intros Hfd. apply volume_ok_multi; assumption.
  - split; [reflexivity|]. split; [reflexivity|].
    intros Hfd. apply volume_ok_multi; assumption.
  - destruct (ParseSpec sf (set_state STOR_STATE_MFSPEC_COMPLETE st) w1)
      as [[r0 st2] w2] eqn:Hparse.
    apply ParseSpec_appends in Hparse as (added & -> & _). cbn.
    split; [reflexivity|]. split; [apply prefix_app_r; reflexivity|].
    intros Hfd. apply volume_ok_multi; cbn; [|exact Hfd].
    destruct (sfs_ st); [contradiction|discriminate].
Qed.

Lemma Write_evolves fuel buf nbyte offset st w r st' w' :
  Write fuel buf nbyte offset st w = Some (r, st', w') -> evolves st st'.
Proof.
  intros H. destruct (state_ st) eqn:Hst.
  - destruct fuel as [|g]; [discriminate|].
    cbn [Write] in H. rewrite Hst in H.
    destruct (negb (offset =? 0)).
    { injection H as _ <- _. apply evolves_refl. }
    destruct (strncmp_eq buf MULTIFILE_PATHNAME).
    + destruct (negb (scan_count _ =? 1)).
      { injection H as _ <- _. split; [reflexivity|]. split; [reflexivity|].
        intros [Hk Hfd]. split; cbn; assumption. }
      destruct (new_StorageFile _ _ _ w) as [sf w1].
      apply WriteSpecPart_evolves in H as (Hp & Hs & Hk);
        [|cbn; destruct (sfs_ st); discriminate].
      split; [exact Hp|]. split.
      * etransitivity; [|exact Hs]. cbn. apply prefix_app_r. reflexivity.
      * intros [_ Hfd]. apply Hk. cbn. apply Hfd. rewrite Hst. discriminate.
    + pose proof (OpenSingleFile_evolves st w) as He.
      pose proof (OpenSingleFile_state st w) as Hs.
      destruct (OpenSingleFile st w) as [[ret st1] w1]. cbn [fst snd] in *.
      destruct (ret <? 0); [injection H as _ <- _; exact He|].
      apply Write_terminal_object in H as ->; [exact He|left; exact Hs].
  - destruct fuel as [|g]; [discriminate|].
    cbn [Write] in H. rewrite Hst in H.
    destruct (sfs_ st) as [|sf rest] eqn:Hsfs; [discriminate|].
    apply WriteSpecPart_evolves in H as (Hp & Hs & Hk);
      [|rewrite Hsfs; discriminate].
    split; [exact Hp|]. split; [exact Hs|].
    intros [_ Hfd]. apply Hk. apply Hfd. rewrite Hst. discriminate.
  - apply Write_terminal_object in H as ->; [apply evolves_refl|].
    right. exact Hst.
  - apply Write_terminal_object in H as ->; [apply evolves_refl|].
    left. exact Hst.
Qed.

Lemma do_call_evolves c st w st' w' :
  do_call c st w = Some (st', w') -> evolves st st'.
Proof.
  intros H. destruct c as [fuel buf nbyte offset|fuel ht nbyte offset|size|];
    cbn [do_call] in H.
  - destruct (Write fuel buf nbyte offset st w) as [[[r st1] w1]|] eqn:E;
      [|discriminate].
    injection H as <- _. exact (Write_evolves _ _ _ _ _ _ _ _ _ E).
  - destruct (Read fuel ht nbyte offset st w) as [[[[r d] st1] w1]|] eqn:E;
      [|discriminate].
    injection H as <- _. apply Read_object in E as ->. apply evolves_refl.
  - pose proof (ResizeReserved_object size st w) as Ho.
    destruct (ResizeReserved size st w) as [[r st1] w1].
    injection H as <- _. cbn [fst snd] in Ho. destruct Ho as [->| ->].
    + apply evolves_refl.
    + split; [reflexivity|]. split; [reflexivity|].
      intros [Hk Hfd]. split; cbn; assumption.
  - destruct (GetReservedSize st w) as [[r st1] w1] eqn:E.
    injection H as <- _. apply GetReservedSize_object in E as ->.
    apply evolves_refl.
Qed.

Lemma new_Storage_ok pathname readbuf w st w' :
  new_Storage pathname readbuf w = Some (st, w') ->
  volume_ok st /\ os_pathname_ st = pathname /\
  state_ st <> STOR_STATE_MFSPEC_SIZE_KNOWN.
Proof.
  unfold new_Storage. intros H.
  destruct (file_size_by_path pathname w) as [fsize w1].
  destruct ((fsize <? 0) && (errno w1 =? ENOENT)).
  { injection H as <- _. split; [|split; [reflexivity|discriminate]].
    split; [intros [Hs|Hs]; discriminate|reflexivity]. }
  destruct (sys_fopen_rb pathname w1) as [[content|] w2]; [|discriminate].
  destruct (strncmp_eq _ _).
  - destruct (new_StorageFile pathname 0 fsize w2) as [sf w3].
    destruct (ParseSpec sf _ w3) as [[r st3] w4] eqn:E.
    apply ParseSpec_appends in E as (added & -> & _).
    injection H as <- _. cbn.
    split; [|split; [reflexivity|discriminate]].
    apply volume_ok_multi; [discriminate|reflexivity].
  - destruct (OpenSingleFile_object (st_init pathname) w2) as [fd Ho].
    destruct (OpenSingleFile _ w2) as [[r st1] w3]. cbn [fst snd] in Ho.
    injection H as <- _. subst st1. cbn.
    split; [|split; [reflexivity|discriminate]].
    apply volume_ok_single. reflexivity.
Qed.

(** X11.  What the volume keeps true of itself.  The constructor leaves
    a volume on the path it was given that is not in
    [STOR_STATE_MFSPEC_SIZE_KNOWN], in which [sfs_] holds a file
    whenever the state is a multi-file one and [single_fd_] is -1
    outside [STOR_STATE_SINGLE_FILE].  Every sequence of calls of
    [Write], [Read], [ResizeReserved] and [GetReservedSize] keeps the
    path, only appends to [sfs_], and keeps these two facts: so the
    [sfs_[0]] of [Write] in [STOR_STATE_MFSPEC_SIZE_KNOWN] is an element
    of the vector. *)
Theorem volume_invariants :
  (forall pathname readbuf w st w',
     new_Storage pathname readbuf w = Some (st, w') ->
     volume_ok st /\ os_pathname_ st = pathname /\
     state_ st <> STOR_STATE_MFSPEC_SIZE_KNOWN) /\
  (forall cs st w st' w',
     do_calls cs st w = Some (st', w') -> evolves st st') /\
  (forall st, volume_ok st -> state_ st = STOR_STATE_MFSPEC_SIZE_KNOWN ->
              is_Some (sfs_ st !! 0%nat)).
Proof.
  split; [exact new_Storage_ok|]. split.
  - intros cs. induction cs as [|c rest IH]; intros st w st' w' H.
    + injection H as <- _. apply evolves_refl.
    + cbn [do_calls] in H.
      destruct (do_call c st w) as [[st1 w1]|] eqn:E; [|discriminate].
      apply do_call_evolves in E. apply IH in H.
      exact (evolves_trans _ _ _ E H).
  - intros st [Hk _] Hs. destruct (sfs_ st) eqn:Hsfs; [|eauto].
    exfalso. apply Hk; auto.
Qed.

(** X12.  Under a [pread] that returns a negative status or the number
    of bytes it stored, at most the number asked for: a [Read] that
    returns [r >= 0] has stored exactly [r] bytes, and [r <= nbyte].
    The recursion over the files of a multi-file volume never stores
    more than the caller asked for. *)
Theorem Read_within_request (fuel : nat) (ht_size nbyte offset : Z)
  (st : Storage) (w : world) (r : Z) (data : list byte) (st' : Storage)
  (w' : world) :
  pread_bounded_law ->
  Read fuel ht_size nbyte offset st w = Some (r, data, st', w') ->
  r < 0 \/ (r = Z.of_nat (length data) /\ r <= nbyte).
Proof.
  intros Hlaw. revert nbyte offset w r data st' w'.
  induction fuel as [|g IH]; intros nbyte offset w r data st' w' H;
    [discriminate|].
  cbn [Read] in H. destruct (state_ st).
  1: { injection H as <- _ _ _. left. lia. }
  3: { pose proof (Hlaw (single_fd_ st) nbyte offset w) as Hb.
       destruct (sys_pread _ _ _ w) as [[r0 d] w1].
       injection H as <- <- _ _. exact Hb. }
  all: destruct (FindStorageFile _ _) as [sf|];
    [|injection H as <- _ _ _; left; lia];
    unfold StorageFile_Read in H;
    pose proof (Hlaw (fd_ sf) nbyte (offset - GetStart sf) w) as Hb;
    destruct (sys_pread _ _ _ w) as [[ret d] w1];
    destruct (ret <? 0) eqn:Hneg; [injection H as <- <- _ _; exact Hb|];
    apply Z.ltb_ge in Hneg; destruct Hb as [Hb|[Hlen Hle]]; [lia|];
    destruct ((ret <? nbyte) && negb _);
      [|injection H as <- <- _ _; right; auto];
    destruct (Read g _ _ _ st w1) as [[[[newret d'] st2] w2]|] eqn:E;
      [|discriminate];
    apply IH in E;
    destruct (newret <? 0) eqn:Hn; injection H as <- <- _ _;
    [left; apply Z.ltb_lt in Hn; lia|];
    apply Z.ltb_ge in Hn; destruct E as [E|[El Ele]]; [lia|];
    right; rewrite length_app; lia.
Qed.

Lemma GetReservedSize_loop_sum sfs sizes total w :
  Forall2 (stat_gives w) sfs sizes ->
  GetReservedSize_loop sfs total w = (total + foldr Z.add 0 sizes, w).
Proof.
  intros H. revert total.
  induction H as [|sf s sfs sizes [Hs Hpos] _ IH]; intros total.
  - cbn. f_equal. lia.
  - cbn [GetReservedSize_loop foldr]. rewrite Hs.
    replace (s <? 0) with false by (symmetry; apply Z.ltb_ge; lia).
    rewrite IH. f_equal. lia.
Qed.

Lemma GetReservedSize_loop_fails before sf after sizes total w e w1 :
  Forall2 (stat_gives w) before sizes ->
  file_size_by_path (GetSpecPathName sf) w = (e, w1) -> e < 0 ->
  GetReservedSize_loop (before ++ sf :: after) total w = (e, w1).
Proof.
  intros H He Hneg. revert total.
  induction H as [|sf0 s sfs sizes [Hs Hpos] _ IH]; intros total.
  - cbn [app GetReservedSize_loop]. rewrite He.
    replace (e <? 0) with true by (symmetry; apply Z.ltb_lt; lia).
    reflexivity.
  - cbn [app GetReservedSize_loop]. rewrite Hs.
    replace (s <? 0) with false by (symmetry; apply Z.ltb_ge; lia).
    apply IH.
Qed.

(** X17.  [GetReservedSize] on a multi-file volume.  When [stat]
    succeeds on the path of every file, the result is the sum of the
    sizes on disk of the files of [sfs_], the file of the spec among
    them.  When it fails on one file, the result is the negative status
    of that [stat], whatever the sizes of the others. *)
Theorem GetReservedSize_multi_sums (st : Storage) (w : world) :
  state_ st = STOR_STATE_MFSPEC_COMPLETE ->
  (forall sizes,
     Forall2 (stat_gives w) (sfs_ st) sizes ->
     GetReservedSize st w = (foldr Z.add 0 sizes, st, w)) /\
  (forall before sf after sizes e w1,
     sfs_ st = before ++ sf :: after ->
     Forall2 (stat_gives w) before sizes ->
     file_size_by_path (GetSpecPathName sf) w = (e, w1) -> e < 0 ->
     GetReservedSize st w = (e, st, w1)).
Proof.
  intros Hst. split.
  - intros sizes H. unfold GetReservedSize. rewrite Hst.
    rewrite (GetReservedSize_loop_sum _ _ _ _ H). reflexivity.
  - intros before sf after sizes e w1 Hsfs H He Hneg.
    unfold GetReservedSize. rewrite Hst, Hsfs.
    rewrite (GetReservedSize_loop_fails _ _ _ _ _ _ _ _ H He Hneg).
    reflexivity.
Qed.

(** X18.  [ResizeReserved] on a multi-file volume only compares the
    size it is given with [GetReservedSize()]: a size that is not above
    it returns 0 and touches no file, and any two sizes above it have
    the same result and the same effect, each file being resized to its
    own size in the spec. *)
Theorem ResizeReserved_multi_compares_only (size size' : Z) (st : Storage)
  (w : world) :
  state_ st = STOR_STATE_MFSPEC_COMPLETE ->
  let cur := (GetReservedSize st w).1.1 in
  (size <= cur ->
   ResizeReserved size st w = (0, st, (GetReservedSize st w).2)) /\
  (cur < size -> cur < size' ->
   ResizeReserved size st w = ResizeReserved size' st w /\
   ResizeReserved size st w =
   let '(r, w2) := ResizeReserved_loop (sfs_ st) (GetReservedSize st w).2 in
   (r, st, w2)).
Proof.
  intros Hst cur. subst cur. unfold ResizeReserved. rewrite Hst.
  destruct (GetReservedSize st w) as [[cur st1] w1] eqn:Hg.
  apply GetReservedSize_object in Hg as ->. cbn [fst snd]. split.
  - intros Hle.
    replace (size >? cur) with false; [reflexivity|].
    symmetry. destruct (Z.gtb_spec size cur); [lia|reflexivity].
  - intros Hlt Hlt'.
    replace (size >? cur) with true
      by (symmetry; apply Z.gtb_lt; lia).
    replace (size' >? cur) with true
      by (symmetry; apply Z.gtb_lt; lia).
    split; reflexivity.
Qed.

End Invariants.

(** ** The lines of the spec *)

Lemma no_space_rfind (b : string) :
  ~ has_space b -> str_rfind " " b = None.
Proof.
  induction b as [|c b IH]; intros Hno; [reflexivity|].
  cbn [str_rfind]. rewrite IH.
  - destruct (Ascii.eqb c " ") eqn:Hc; [|reflexivity].
    apply Ascii.eqb_eq in Hc. subst c. exfalso. apply Hno.
    exists ""%string, b. reflexivity.
  - intros (x & y & ->). apply Hno. exists (String c x), y. reflexivity.
Qed.

Lemma append_String (c : ascii) (a s : string) :
  (String c a ++ s)%string = String c (a ++ s).
Proof. reflexivity. Qed.

Lemma append_assoc (a b c : string) :
  ((a ++ b) ++ c)%string = (a ++ (b ++ c))%string.
Proof.
  induction a as [|x a IH]; [reflexivity|].
  rewrite !append_String, IH. reflexivity.
Qed.

Lemma str_rfind_last (c : ascii) (a b : string) :
  str_rfind c b = None ->
  str_rfind c (a ++ String c b)%string = Some (String.length a).
Proof.
  intros Hb. induction a as [|x a IH].
  - change ("" ++ String c b)%string with (String c b).
    cbn [str_rfind String.length]. rewrite Hb, Ascii.eqb_refl. reflexivity.
  - rewrite append_String. cbn [str_rfind String.length]. rewrite IH.
    reflexivity.
Qed.

Lemma substring_whole (n : nat) (s : string) :
  (String.length s <= n)%nat -> substring 0 n s = s.
Proof.
  revert n. induction s as [|c s IH]; intros n Hn.
  - destruct n; reflexivity.
  - destruct n as [|n]; [cbn in Hn; lia|].
    cbn [substring]. rewrite IH; [reflexivity|]. cbn in Hn. lia.
Qed.

Lemma substring_head (a s : string) :
  substring 0 (String.length a) (a ++ s)%string = a.
Proof.
  induction a as [|c a IH]; [destruct s; reflexivity|].
  rewrite append_String. cbn [String.length substring]. rewrite IH.
  reflexivity.
Qed.

Lemma substring_skip (a s : string) (n : nat) :
  substring (String.length a) n (a ++ s)%string = substring 0 n s.
Proof.
  induction a as [|c a IH]; [reflexivity|].
  rewrite append_String. cbn [String.length substring]. exact IH.
Qed.

Lemma length_append (a b : string) :
  String.length (a ++ b)%string = (String.length a + String.length b)%nat.
Proof.
  induction a as [|c a IH]; [reflexivity|].
  rewrite append_String. cbn [String.length]. rewrite IH. reflexivity.
Qed.

(** X19.  The two fields of a line of the spec are cut at the last
    space of the line: the path is all that stands before it, spaces
    included, and the size field all that stands after it.  A line
    without a space is taken whole for both fields. *)
Theorem split_line_at_last_space :
  (forall a b : string,
     ~ has_space b -> split_line (a ++ " " ++ b)%string = (a, b)) /\
  (forall s : string, ~ has_space s -> split_line s = (s, s)).
Proof.
  split.
  - intros a b Hno. unfold split_line, substr.
    change (" " ++ b)%string with (String " " b).
    rewrite (str_rfind_last " " a b (no_space_rfind b Hno)).
    rewrite substring_head. f_equal.
    replace (String.length a + 1)%nat with (String.length (a ++ " ")%string)
      by (rewrite length_append; reflexivity).
    change (String " " b) with (" " ++ b)%string.
    rewrite <- append_assoc, substring_skip. apply substring_whole.
    rewrite !length_append. lia.
  - intros s Hno. unfold split_line. rewrite (no_space_rfind s Hno).
    reflexivity.
Qed.

Lemma fgets_split (n : nat) (s : list byte) :
  (fgets n s).1 ++ (fgets n s).2 = s /\
  (length (fgets n s).1 <= n)%nat /\
  (s <> [] -> (1 <= n)%nat -> (fgets n s).1 <> []) /\
  (forall i, (fgets n s).1 !! i = Some x0a -> S i = length (fgets n s).1).
Proof.
  revert s. induction n as [|n IH]; intros s.
  - cbn. repeat split; try lia; auto. intros i H. destruct i; discriminate.
  - destruct s as [|c s].
    + cbn. repeat split; try lia; auto. intros i H. destruct i; discriminate.
    + cbn [fgets]. destruct (Byte.eqb c x0a) eqn:Hc.
      * cbn. repeat split; try lia; try discriminate.
        intros i H. destruct i as [|i]; [reflexivity|].
        destruct i; discriminate.
      * destruct (IH s) as (Happ & Hlen & _ & Hnl).
        destruct (fgets n s) as [l r]. cbn [fst snd] in *.
        repeat split; try discriminate.
        -- cbn. rewrite Happ. reflexivity.
        -- cbn. lia.
        -- intros i H. destruct i as [|i].
           ++ injection H as ->. discriminate.
           ++ cbn in H. apply Hnl in H. cbn. lia.
Qed.

Lemma fgets_lines_cover (fuel n : nat) (s : list byte) :
  (1 <= n)%nat -> (length s <= fuel)%nat ->
  concat (fgets_lines fuel n s) = s /\
  Forall (fun l => (1 <= length l <= n)%nat /\
                   forall i, l !! i = Some x0a -> S i = length l)
         (fgets_lines fuel n s).
Proof.
  intros Hn. revert s. induction fuel as [|f IH]; intros s Hlen.
  - destruct s; [|cbn in Hlen; lia]. split; [reflexivity|constructor].
  - destruct s as [|c s]; [split; [reflexivity|constructor]|].
    cbn [fgets_lines].
    destruct (fgets_split n (c :: s)) as (Happ & Hl & Hne & Hnl).
    destruct (fgets n (c :: s)) as [l r]. cbn [fst snd] in *.
    assert (Hl1 : (1 <= length l)%nat).
    { destruct l; [exfalso; apply Hne; [discriminate|lia|reflexivity]|].
      cbn. lia. }
    assert (Hr : (length r <= f)%nat).
    { apply (f_equal (@length byte)) in Happ. rewrite length_app in Happ.
      cbn in Happ, Hlen. lia. }
    destruct (IH r Hr) as [Hcat Hall]. split.
    + cbn [concat]. rewrite Hcat. exact Happ.
    + constructor; [|exact Hall]. split; [lia|exact Hnl].
Qed.

Section SpecLines.
Context {P : Platform}.

(** X20.  The lines [ParseSpec] reads are the whole file of the spec,
    cut after every newline and after every [MULTIFILE_MAX_LINE - 1]
    bytes without one: their concatenation is the content of the file,
    no line is empty, none is longer than [MULTIFILE_MAX_LINE - 1]
    bytes, and a newline is the last byte of its line.  A line that is
    too long is not refused but read as two. *)
Theorem spec_lines_cover_file (sf : StorageFile) (w : world)
  (content : list byte) (w1 : world) :
  sys_fopen_rb (GetSpecPathName sf) w = (Some content, w1) ->
  (2 <= MULTIFILE_MAX_LINE)%nat ->
  concat (spec_lines sf w) = content /\
  Forall (fun l => (1 <= length l <= MULTIFILE_MAX_LINE - 1)%nat /\
                   forall i, l !! i = Some x0a -> S i = length l)
         (spec_lines sf w).
Proof.
  intros Hopen Hmax. unfold spec_lines. rewrite Hopen.
  apply fgets_lines_cover; lia.
Qed.

End SpecLines.

(** ** The directories of a file *)

Lemma substring_beyond (j n : nat) (p : string) :
  (String.length p <= j)%nat -> substring j n p = ""%string.
Proof.
  revert j. induction p as [|c p IH]; intros j Hj.
  - destruct j, n; reflexivity.
  - destruct j as [|j]; [cbn in Hj; lia|]. cbn. apply IH. cbn in Hj. lia.
Qed.

Lemma index_ge (n m : nat) (s1 s2 : string) :
  String.index n s1 s2 = Some m -> (n <= m)%nat.
Proof.
  revert n m. induction s2 as [|c s2 IH]; intros n m H.
  - destruct n; cbn in H; [|discriminate]. lia.
  - destruct n as [|n]; [lia|]. cbn in H.
    destruct (String.index n s1 s2) as [k|] eqn:E; [|discriminate].
    injection H as <-. apply IH in E. lia.
Qed.

Section Directories.
Context {P : Platform}.

Lemma sep_at_inside (p : string) (j : nat) :
  FILE_SEP <> ""%string -> sep_at p j -> (j < String.length p)%nat.
Proof.
  intros Hsep Hat. destruct (Nat.lt_ge_cases j (String.length p)) as [H|H];
    [exact H|].
  unfold sep_at, substr in Hat. rewrite substring_beyond in Hat by exact H.
  congruence.
Qed.

Lemma make_dirs_ancestors fuel p i w w' :
  dir_laws -> FILE_SEP <> ""%string ->
  (String.length p < fuel + i)%nat ->
  make_dirs fuel p i w = (true, w') ->
  (forall q, is_dir q w -> is_dir q w') /\
  (forall j, (i < j)%nat -> sep_at p j -> is_dir (substr p 0 j) w').
Proof.
  intros Hlaws Hsep. revert i w.
  induction fuel as [|f IH]; intros i w Hfuel H.
  - injection H as <-. split; [auto|].
    intros j Hj Hat. apply (sep_at_inside _ _ Hsep) in Hat. lia.
  - cbn [make_dirs] in H. unfold str_find in H.
    destruct (String.index (i + 1) FILE_SEP p) as [i'|] eqn:Hidx.
    + pose proof (index_ge _ _ _ _ Hidx) as Hge.
      pose proof (index_correct1 _ _ _ _ Hidx) as Hat'.
      pose proof (index_correct2 _ _ _ _ Hidx) as Hbefore.
      assert (Hin : (i' < String.length p)%nat)
        by (apply (sep_at_inside _ _ Hsep); exact Hat').
      pose proof (stat_status Hlaws (substr p 0 i') w) as Hstat.
      pose proof (stat_keeps Hlaws (substr p 0 i')) as Hkeep.
      unfold is_dir in Hkeep at 2.
      destruct (sys_stat (substr p 0 i') w) as [[ret isdir] w1] eqn:Es.
      cbn [fst snd] in Hstat, Hkeep.
      assert (Hsplit : forall w2,
                 (forall q, is_dir q w -> is_dir q w2) ->
                 is_dir (substr p 0 i') w2 ->
                 make_dirs f p i' w2 = (true, w') ->
                 (forall q, is_dir q w -> is_dir q w') /\
                 (forall j, (i < j)%nat -> sep_at p j ->
                            is_dir (substr p 0 j) w')).
      { intros w2 Hpres Hdir Hrec.
        destruct (IH i' w2 ltac:(lia) Hrec) as [Hp2 Hall]. split; [auto|].
        intros j Hj Hat.
        destruct (Nat.lt_trichotomy j i') as [Hlt|[->|Hgt]]; [|auto|auto].
        exfalso. apply (Hbefore j); [lia|exact Hlt|exact Hat]. }
      destruct ((ret <? 0) && (errno w1 =? ENOENT)) eqn:Hmissing.
      * pose proof (mkdir_makes Hlaws (substr p 0 i') w1) as Hmk.
        pose proof (mkdir_keeps Hlaws (substr p 0 i')) as Hmkeep.
        destruct (sys_mkdir (substr p 0 i') w1) as [ret' w2] eqn:Em.
        cbn [fst snd] in Hmk.
        destruct (ret' <? 0) eqn:Hret'; [discriminate|].
        apply Z.ltb_ge in Hret'. apply (Hsplit w2); auto.
        intros q Hq. specialize (Hmkeep q w1). rewrite Em in Hmkeep.
        apply Hmkeep. specialize (Hkeep q w). rewrite Es in Hkeep.
        apply Hkeep. exact Hq.
      * destruct ((ret =? 0) && negb isdir) eqn:Hfile; [discriminate|].
        assert (Hdir : ret = 0 /\ isdir = true).
        { destruct Hstat as [->|[Hneg He]].
          - split; [reflexivity|]. destruct isdir; [reflexivity|discriminate].
          - apply Z.ltb_lt in Hneg. apply Z.eqb_eq in He.
            rewrite Hneg, He in Hmissing. discriminate. }
        destruct Hdir as [-> ->].
        assert (Hpres : forall q, is_dir q w -> is_dir q w1).
        { intros q Hq. specialize (Hkeep q w). rewrite Es in Hkeep.
          apply Hkeep. exact Hq. }
        apply (Hsplit w1); auto.
        apply Hpres. unfold is_dir. rewrite Es. reflexivity.
    + injection H as <-. split; [auto|].
      intros j Hj Hat. exfalso.
      apply (index_correct3 _ j _ _ Hidx Hsep); [lia|exact Hat].
Qed.

(** X21.  The directories of a file.  On a platform where [stat] fails
    with [ENOENT] only and no call removes a directory: when the
    constructor of [StorageFile] ends with a descriptor that is not
    negative, every part of the path of the file that ends before a
    separator (the separator at position 0 apart) is a directory, and
    the directories that were there before are still there. *)
Theorem new_StorageFile_makes_directories (utf8path : string)
  (start size : Z) (w : world) (sf : StorageFile) (w' : world) :
  dir_laws -> FILE_SEP <> ""%string ->
  new_StorageFile utf8path start size w = (sf, w') ->
  0 <= fd_ sf ->
  (forall q, is_dir q w -> is_dir q w') /\
  (forall j, (0 < j)%nat -> sep_at (spec2ospn utf8path) j ->
             is_dir (substr (spec2ospn utf8path) 0 j) w').
Proof.
  intros Hlaws Hsep H Hfd. unfold new_StorageFile in H.
  set (p := spec2ospn utf8path) in *.
  pose proof (open_keeps Hlaws p) as Hopen.
  destruct (str_find FILE_SEP p 0) as [k|] eqn:Hfind.
  - destruct (make_dirs (S (String.length p)) p 0 w) as [ok w1] eqn:Hmk.
    destruct ok; [|injection H as <- _; cbn in Hfd; lia].
    destruct (make_dirs_ancestors (S (String.length p)) p 0%nat w w1
                Hlaws Hsep ltac:(lia) Hmk) as [Hpres Hall].
    destruct (sys_open p w1) as [fd w2] eqn:Eo. injection H as _ <-.
    split.
    + intros q Hq. specialize (Hopen q w1). rewrite Eo in Hopen. auto.
    + intros j Hj Hat. specialize (Hopen (substr p 0 j) w1).
      rewrite Eo in Hopen. auto.
  - destruct (sys_open p w) as [fd w2] eqn:Eo. injection H as _ <-.
    split.
    + intros q Hq. specialize (Hopen q w). rewrite Eo in Hopen. auto.
    + intros j Hj Hat. exfalso. unfold str_find in Hfind.
      apply (index_correct3 _ j _ _ Hfind Hsep); [lia|exact Hat].
Qed.

End Directories.

(** ** The round trip across the files of a volume in memory *)












(** ** The constructor *)

Section Constructor.
Context {P : Platform}.

Lemma strncmp_eq_head (content rest : list byte) (s : string) :
  (String.length s <= length content)%nat ->
  strncmp_eq (firstn (String.length s) content ++ rest) s
  = strncmp_eq content s.
Proof.
  intros Hlen. unfold strncmp_eq. f_equal. f_equal.
  set (n := String.length s) in *.
  replace n with (length (firstn n content)) at 1
    by (rewrite length_take; lia).
  apply take_app_length.
Qed.

(** X6.  What the constructor makes of the path it is given.  When
    [file_size_by_path] fails with [ENOENT] the volume is fresh
    ([STOR_STATE_INIT], nothing opened).  When the file exists and holds
    at least as many bytes as the name of the spec has, the volume is in
    [STOR_STATE_MFSPEC_COMPLETE] if the file starts with the name of the
    spec, whether the spec then parses or not, and in
    [STOR_STATE_SINGLE_FILE] otherwise, whether the file can be opened
    for writing or not; the bytes that were in [readbuf] play no
    part. *)
Theorem constructor_classifies (pathname : string) (readbuf : list byte)
  (w : world) (fsize : Z) (w1 : world) :
  file_size_by_path pathname w = (fsize, w1) ->
  ((fsize <? 0) && (errno w1 =? ENOENT) = true ->
   new_Storage pathname readbuf w = Some (st_init pathname, w1)) /\
  (forall content w2,
     (fsize <? 0) && (errno w1 =? ENOENT) = false ->
     sys_fopen_rb pathname w1 = (Some content, w2) ->
     (String.length MULTIFILE_PATHNAME <= length content)%nat ->
     exists st w',
       new_Storage pathname readbuf w = Some (st, w') /\
       state_ st = (if strncmp_eq content MULTIFILE_PATHNAME
                    then STOR_STATE_MFSPEC_COMPLETE
                    else STOR_STATE_SINGLE_FILE)).
Proof.
  intros Hsize. split.
  - intros Hmissing. unfold new_Storage. rewrite Hsize, Hmissing. reflexivity.
  - intros content w2 Hthere Hopen Hlen. unfold new_Storage.
    rewrite Hsize, Hthere, Hopen.
    rewrite (strncmp_eq_head content _ MULTIFILE_PATHNAME Hlen).
    destruct (strncmp_eq content MULTIFILE_PATHNAME).
    + destruct (new_StorageFile pathname 0 fsize w2) as [sf w3].
      destruct (ParseSpec sf _ w3) as [[r st3] w4] eqn:E.
      apply ParseSpec_state in E. eauto.
    + pose proof (OpenSingleFile_state (st_init pathname) w2) as Hs.
      destruct (OpenSingleFile _ w2) as [[r st1] w3]. eauto.
Qed.

End Constructor.

(** ** The files in memory obey the further laws *)

Lemma MemFS_is_dir (q : string) (w : MemFS.t) :
  @is_dir MemPlatform q w <-> MemFS.nodes w !! q = Some MemFS.Directory.
Proof.
  unfold is_dir. change (@sys_stat MemPlatform) with MemFS.stat.
  unfold MemFS.stat.
  destruct (MemFS.nodes w !! q) as [[c|]|]; cbn; split; intros H;
    try discriminate; reflexivity.
Qed.

Lemma MemFS_dir_laws : @dir_laws MemPlatform.
Proof.
  split.
  - intros path w. change (@sys_stat MemPlatform) with MemFS.stat.
    unfold MemFS.stat.
    destruct (MemFS.nodes w !! path) as [[c|]|]; cbn; auto.
    right. split; [lia|reflexivity].
  - intros path q w Hq. apply MemFS_is_dir. apply MemFS_is_dir in Hq.
    change (@sys_stat MemPlatform) with MemFS.stat. unfold MemFS.stat.
    destruct (MemFS.nodes w !! path) as [[c|]|]; exact Hq.
  - intros path w. change (@sys_mkdir MemPlatform) with MemFS.mkdir.
    unfold MemFS.mkdir. intros H. apply MemFS_is_dir.
    destruct (MemFS.nodes w !! path); cbn in *; [lia|].
    apply lookup_insert_eq.
  - intros path q w Hq. apply MemFS_is_dir. apply MemFS_is_dir in Hq.
    change (@sys_mkdir MemPlatform) with MemFS.mkdir. unfold MemFS.mkdir.
    destruct (MemFS.nodes w !! path) eqn:Hp; cbn; [exact Hq|].
    rewrite lookup_insert_ne; [exact Hq|]. intros ->. congruence.
  - intros path q w Hq. apply MemFS_is_dir. apply MemFS_is_dir in Hq.
    change (@sys_open MemPlatform) with MemFS.open. unfold MemFS.open.
    destruct (String.eqb path ""); [exact Hq|].
    destruct (MemFS.nodes w !! path) as [[c|]|] eqn:Hp; cbn; try exact Hq.
    rewrite lookup_insert_ne; [exact Hq|]. intros ->. congruence.
Qed.

Lemma MemFS_pread_bounded : @pread_bounded_law MemPlatform.
Proof.
  intros fd nbyte offset w. change (@sys_pread MemPlatform) with MemFS.pread.
  unfold MemFS.pread. destruct (MemFS.file_of fd w) as [[p c]|]; [|left; lia].
  destruct ((offset <? 0) || (nbyte <? 0)) eqn:E; [left; lia|].
  right. split; [reflexivity|].
  apply orb_false_iff in E as [_ E]. apply Z.ltb_ge in E.
  rewrite length_take. lia.
Qed.

Lemma MemFS_pwrite_bounded : @pwrite_bounded_law MemPlatform.
Proof.
  intros fd buf nbyte offset w. change (@sys_pwrite MemPlatform) with MemFS.pwrite.
  unfold MemFS.pwrite.
  destruct (MemFS.file_of fd w) as [[p c]|]; [|left; reflexivity].
  destruct ((offset <? 0) || (nbyte <? 0)) eqn:E; [left; reflexivity|].
  right. apply orb_false_iff in E as [_ E]. apply Z.ltb_ge in E.
  cbn [fst]. rewrite length_take. lia.
Qed.

(** ** The further properties on the scenarios *)

(** Six bytes at offset 42 of [s2_volume] go to the files [a/b] and [c];
    [Write] returns 6. *)
Lemma Write_complete_all_or_error_witness :
  let st := s2_volume.1 in
  let w := s2_volume.2 in
  state_ st = STOR_STATE_MFSPEC_COMPLETE /\
  exists w', Write 7 (bytes "HELLO!") 6 42 st w = Some (6, st, w').
Proof.
  intros st w.
  assert (Hst : state_ st = STOR_STATE_MFSPEC_COMPLETE) by reflexivity.
  split; [exact Hst|].
  destruct (Write_complete_all_or_error (P := MemPlatform) 7%nat
              (bytes "HELLO!") 6 42 st w Hst ltac:(lia)
              ltac:(unfold INT_MAX; lia)) as [Hret Hres].
  destruct (Hret ltac:(simpl; lia)) as [[[r st'] w'] Hw].
  assert (Hr : r = 6)
    by (pose proof Hw as H; vm_compute in H; injection H as <- _ _;
        reflexivity).
  destruct (Hres r st' w' Hw) as (_ & _ & ->).
  exists w'. rewrite Hw, Hr. reflexivity.
Defined.

(** No file of [s2_volume] contains the offset 48. *)
Lemma offset_outside_files_rejected_witness :
  let st := s2_volume.1 in
  let w := s2_volume.2 in
  (forall sf, sf ∈ sfs_ st -> ~ contains sf 48) /\
  Write 1 (bytes "AB") 2 48 st w = Some (-1, st, set_errno EINVAL w) /\
  Read 1 48 2 48 st w = Some (-1, [], st, set_errno EINVAL w).
Proof.
  intros st w.
  assert (Hout : forall sf, sf ∈ sfs_ st -> ~ contains sf 48).
  { apply Forall_forall.
    replace (sfs_ st)
      with [mkStorageFile "META-INF-multifilespec.txt" 0 39 3;
            mkStorageFile "a/b" 40 42 4; mkStorageFile "c" 43 47 5]
      by (vm_compute; reflexivity).
    repeat constructor; unfold contains; cbn; lia. }
  split; [exact Hout|].
  destruct (offset_outside_files_rejected (P := MemPlatform) 0%nat 48
              (bytes "AB") 2 48 st w Hout) as [Hw Hr].
  split; [apply Hw; reflexivity|apply Hr; left; reflexivity].
Defined.

(** Six bytes at offset 45 of the file [c], which ends at 47: three are
    written, three are the tail. *)
Lemma WriteBuffer_clips_to_file_witness :
  let sf := mkStorageFile "c" 43 47 5 in
  contains sf 45 /\
  (WriteBuffer sf (bytes "HELLO!") 6 45 s2_volume.2).1 = (3, 3).
Proof.
  intros sf.
  assert (Hin : contains sf 45) by (unfold contains; cbn; lia).
  split; [exact Hin|].
  destruct (WriteBuffer_clips_to_file (P := MemPlatform) sf (bytes "HELLO!")
              6 45 s2_volume.2 MemFS_pwrite_bounded Hin ltac:(cbn; lia)
              ltac:(unfold INT64_MAX; cbn; lia) ltac:(unfold INT_MAX; lia))
    as (_ & _ & _ & _ & _ & ->).
  vm_compute. reflexivity.
Defined.

(** [s3_volume] holds the first 32 bytes of a spec of 40: a [Read] at
    offset 32 does not return. *)
Lemma Read_empty_pread_never_returns_witness :
  let st := s3_volume.1 in
  let w := s3_volume.2 in
  state_ st = STOR_STATE_MFSPEC_SIZE_KNOWN /\
  Read 1000 48 8 32 st w = None.
Proof.
  intros st w. split; [reflexivity|].
  apply (Read_empty_pread_never_returns (P := MemPlatform) 1000%nat 48 8 32
           st w (mkStorageFile MULTIFILE_PATHNAME 0 39 3) []).
  - right. reflexivity.
  - vm_compute. reflexivity.
  - vm_compute. reflexivity.
  - lia.
  - lia.
Defined.

(** The files of [s2_volume] are open; its destructor leaves the system
    as it is, the descriptor 4 of [a/b] is still in the table. *)
Lemma destructor_closes_no_open_file_witness :
  let st := s2_volume.1 in
  let w := s2_volume.2 in
  Forall (fun sf => 0 <= fd_ sf) (sfs_ st) /\
  (delete_Storage MemFS_close st w).2 = w /\
  MemFS.fds (delete_Storage MemFS_close st w).2 !! 4 = Some "a/b"%string.
Proof.
  intros st w.
  assert (Hall : Forall (fun sf => 0 <= fd_ sf) (sfs_ st)).
  { replace (sfs_ st)
      with [mkStorageFile "META-INF-multifilespec.txt" 0 39 3;
            mkStorageFile "a/b" 40 42 4; mkStorageFile "c" 43 47 5]
      by (vm_compute; reflexivity).
    repeat constructor; cbn; lia. }
  split; [exact Hall|].
  rewrite (proj1 (destructor_closes_no_open_file (P := MemPlatform)
                    MemFS_close st w Hall)).
  split; [reflexivity|vm_compute; reflexivity].
Defined.

(** Five calls on a fresh volume, none of them a [Write] at offset 0:
    the size 4096 of the last [ResizeReserved] is left reserved, and
    [errno] was set for the [Read] and for the [Write]. *)
Lemma fresh_volume_waits_for_first_chunk_witness :
  let st := st_init "/tmp/v" in
  let cs := [CallResizeReserved 1024; CallRead 1 0 4 0;
             CallWrite 1 (bytes "ABCD") 4 1024;
             CallResizeReserved 4096; CallGetReservedSize] in
  do_calls cs st (MemFS.init [])
  = Some (set_reserved_size 4096 st,
          set_errno EINVAL (set_errno EINVAL (MemFS.init []))).
Proof.
  intros st cs.
  assert (Hnot : Forall not_first_chunk cs) by (repeat constructor; cbn; lia).
  assert (Hfuel : Forall has_fuel cs) by (repeat constructor; cbn; lia).
  exact (fresh_volume_waits_for_first_chunk (P := MemPlatform) cs st
           (MemFS.init []) eq_refl Hnot Hfuel).
Defined.

(** A fresh volume with the size -5 reserved: the resize fails, the
    first [Write] returns -1 and the file is open and empty. *)
Lemma postponed_resize_failure_drops_chunk_witness :
  let st := set_reserved_size (-5) (st_init "/tmp/v") in
  let w := MemFS.init [] in
  exists w2,
    Write 1 (bytes "ABCD") 4 0 st w
    = Some (-1, set_single_fd 3 (set_state STOR_STATE_SINGLE_FILE st), w2) /\
    MemFS.file_of 3 w2 = Some ("/tmp/v"%string, []).
Proof.
  intros st w.
  set (w1 := (MemFS.open "/tmp/v" w).2).
  set (w2 := (MemFS.fresize 3 (-5) w1).2).
  exists w2. split; [|vm_compute; reflexivity].
  assert (Hopen : @sys_open MemPlatform (os_pathname_ st) w = (3, w1))
    by (vm_compute; reflexivity).
  assert (Hres : @file_resize MemPlatform 3 (reserved_size_ st) w1
                 = (-1, w2))
    by (vm_compute; reflexivity).
  apply (proj1 (postponed_resize_failure_drops_chunk (P := MemPlatform) 0%nat
                  (bytes "ABCD") 4 st w 3 w1 (-1) w2 eq_refl
                  ltac:(vm_compute; reflexivity) ltac:(cbn; lia) Hopen
                  ltac:(lia) Hres ltac:(lia))).
Defined.

(** The parse of [unsafe_tail_spec] stops at its third line: the file
    [c] of the second line is in [sfs_], no file [d] is. *)
Lemma ParseSpec_stops_at_first_bad_line_witness :
  let x := at_parse "m.spec" unsafe_tail_spec in
  exists st' w',
    ParseSpec x.1.1 x.1.2 x.2 = (-1, st', w') /\
    map GetSpecPathName (sfs_ st') = ["m.spec"%string; "c"%string].
Proof.
  intros x.
  set (good := [bytes ("META-INF-multifilespec.txt 47" ++ nl);
                bytes ("c 4" ++ nl)]).
  destruct (ParseSpec_stops_at_first_bad_line (P := MemPlatform) x.1.1 x.1.2
              x.2 (bytes unsafe_tail_spec) x.2 good (bytes ("../x 4" ++ nl))
              [bytes ("d 4" ++ nl)]) as [_ ->].
  - vm_compute. reflexivity.
  - vm_compute. reflexivity.
  - vm_compute. reflexivity.
  - vm_compute. reflexivity.
  - eexists _, _. split; [reflexivity|]. vm_compute. reflexivity.
Defined.

(** The layout of [s2_spec]: [a/b] holds the offsets 40 to 42 and [c]
    the offsets 43 to 47. *)
Lemma ParseSpec_layout_witness :
  let x := at_parse "m.spec" s2_spec in
  let lines := [bytes ("META-INF-multifilespec.txt 40" ++ nl);
                bytes ("a/b 3" ++ nl); bytes ("c 5" ++ nl)] in
  sizes_fit x.1.1 lines 0 /\
  exists added,
    sfs_ (ParseSpec_loop x.1.1 lines 0 x.1.2 x.2).1.2 = sfs_ x.1.2 ++ added /\
    map file_extent added = [("a/b"%string, 40, 42); ("c"%string, 43, 47)].
Proof.
  intros x lines.
  assert (Hfit : sizes_fit x.1.1 lines 0)
    by (vm_compute; repeat split; intros H; discriminate H).
  split; [exact Hfit|].
  destruct (ParseSpec_layout (P := MemPlatform) x.1.1
              (bytes ("META-INF-multifilespec.txt 40" ++ nl))
              [bytes ("a/b 3" ++ nl); bytes ("c 5" ++ nl)] x.1.2 x.2)
    as (_ & added & Hsfs & Hmap & _).
  - vm_compute. reflexivity.
  - vm_compute. reflexivity.
  - exact Hfit.
  - exists added. split; [exact Hsfs|]. rewrite Hmap. vm_compute. reflexivity.
Defined.

(** Two bytes at offset 44 of [s2_volume], inside the file [c], are
    read back. *)
Lemma multi_file_round_trip_witness :
  let st := s2_volume.1 in
  let w := s2_volume.2 in
  exists w' w'',
    Write 1 (bytes "HI") 2 44 st w = Some (2, st, w') /\
    Read 1 48 2 44 st w' = Some (2, bytes "HI", st, w'').
Proof.
  intros st w.
  set (sf := mkStorageFile "c" 43 47 5).
  destruct (StorageFile_Write (P := MemPlatform) sf (bytes "HI") 2
              (44 - GetStart sf) w) as [r w'] eqn:Hw.
  assert (Hr : r = 2)
    by (pose proof Hw as H; vm_compute in H; injection H as <- _;
        reflexivity).
  rewrite Hr in Hw.
  destruct (multi_file_round_trip (P := MemPlatform) 0%nat 0%nat 48
              (bytes "HI") 2 44 st w w' sf MemFS_pwrite_pread eq_refl
              ltac:(vm_compute; reflexivity) ltac:(cbn; lia)
              ltac:(unfold INT64_MAX; cbn; lia) ltac:(unfold INT_MAX; lia)
              ltac:(cbn; lia) eq_refl Hw)
    as (_ & Hwr & w'' & Hrd).
  exists w', w''. split; assumption.
Defined.

(** The first chunk of a single file is read back. *)
Lemma first_chunk_round_trip_witness :
  let st := st_init "/tmp/v" in
  exists st' w' w'',
    Write 2 (bytes "ABCDEFGH") 8 0 st (MemFS.init []) = Some (8, st', w') /\
    state_ st' = STOR_STATE_SINGLE_FILE /\
    Read 1 8 8 0 st' w' = Some (8, bytes "ABCDEFGH", st', w'').
Proof.
  intros st.
  destruct (Write (P := MemPlatform) 2%nat (bytes "ABCDEFGH") 8 0 st
              (MemFS.init [])) as [[[r st'] w']|] eqn:Hw;
    [|vm_compute in Hw; discriminate].
  assert (Hr : r = 8)
    by (pose proof Hw as H; vm_compute in H; injection H as <- _ _;
        reflexivity).
  rewrite Hr in Hw.
  destruct (first_chunk_round_trip (P := MemPlatform) 2%nat 0%nat 8
              (bytes "ABCDEFGH") 8 st st' (MemFS.init []) w'
              MemFS_pwrite_pread eq_refl ltac:(vm_compute; reflexivity)
              eq_refl Hw) as [Hs [w'' Hrd]].
  exists st', w', w''. rewrite Hr. auto.
Defined.

(** A [Read] of 8 bytes at offset 37 of [s2_volume] runs over the three
    files and stores 8 bytes. *)
Lemma Read_within_request_witness :
  let st := s2_volume.1 in
  let w := s2_volume.2 in
  exists data st' w',
    Read 5 48 8 37 st w = Some (8, data, st', w') /\ length data = 8%nat.
Proof.
  intros st w.
  destruct (Read (P := MemPlatform) 5%nat 48 8 37 st w)
    as [[[[r data] st'] w']|] eqn:Hrd;
    [|vm_compute in Hrd; discriminate].
  assert (Hr : r = 8)
    by (pose proof Hrd as H; vm_compute in H; injection H as <- _ _ _;
        reflexivity).
  destruct (Read_within_request (P := MemPlatform) 5%nat 48 8 37 st w r data
              st' w' MemFS_pread_bounded Hrd) as [Hneg|[Hlen _]]; [lia|].
  exists data, st', w'. rewrite Hr. split; [reflexivity|lia].
Defined.

(** The files of [s2_volume] hold 40, 3 and 5 bytes. *)
Lemma GetReservedSize_multi_sums_witness :
  let st := s2_volume.1 in
  let w := s2_volume.2 in
  state_ st = STOR_STATE_MFSPEC_COMPLETE /\
  GetReservedSize st w = (48, st, w).
Proof.
  intros st w.
  assert (Hst : state_ st = STOR_STATE_MFSPEC_COMPLETE) by reflexivity.
  split; [exact Hst|].
  apply (proj1 (GetReservedSize_multi_sums (P := MemPlatform) st w Hst)
           [40; 3; 5]).
  replace (sfs_ st)
    with [mkStorageFile "META-INF-multifilespec.txt" 0 39 3;
          mkStorageFile "a/b" 40 42 4; mkStorageFile "c" 43 47 5]
    by (vm_compute; reflexivity).
  repeat constructor; try (vm_compute; reflexivity); lia.
Defined.

(** On [s2_volume], which holds 48 bytes: the size 10 is ignored, the
    sizes 100 and 200 have the same effect. *)
Lemma ResizeReserved_multi_compares_only_witness :
  let st := s2_volume.1 in
  let w := s2_volume.2 in
  ResizeReserved 10 st w = (0, st, (GetReservedSize st w).2) /\
  ResizeReserved 100 st w = ResizeReserved 200 st w.
Proof.
  intros st w.
  pose proof (ResizeReserved_multi_compares_only (P := MemPlatform) 10 10 st w
                eq_refl) as H10.
  pose proof (ResizeReserved_multi_compares_only (P := MemPlatform) 100 200
                st w eq_refl) as H100.
  cbv zeta in H10, H100.
  assert (Hcur : (GetReservedSize (P := MemPlatform) st w).1.1 = 48)
    by (vm_compute; reflexivity).
  rewrite Hcur in H10, H100. split.
  - apply (proj1 H10). lia.
  - apply (proj2 H100); lia.
Defined.

(** The three lines of [s2_spec]. *)
Lemma spec_lines_cover_file_witness :
  let x := at_parse "m.spec" s2_spec in
  concat (spec_lines x.1.1 x.2) = bytes s2_spec /\
  length (spec_lines x.1.1 x.2) = 3%nat.
Proof.
  intros x.
  destruct (spec_lines_cover_file (P := MemPlatform) x.1.1 x.2
              (bytes s2_spec) x.2) as [Hcat _].
  - vm_compute. reflexivity.
  - vm_compute. lia.
  - split; [exact Hcat|vm_compute; reflexivity].
Defined.

(** The file [a/b/c] on an empty system: [a] and [a/b] are made. *)
Lemma new_StorageFile_makes_directories_witness :
  let r := new_StorageFile "a/b/c" 0 4 (MemFS.init []) in
  0 <= fd_ r.1 /\ is_dir "a" r.2 /\ is_dir "a/b" r.2.
Proof.
  intros r.
  assert (Hfd : 0 <= fd_ r.1) by (vm_compute; intros ?; discriminate).
  split; [exact Hfd|].
  destruct (new_StorageFile_makes_directories (P := MemPlatform) "a/b/c" 0 4
              (MemFS.init []) r.1 r.2 MemFS_dir_laws ltac:(discriminate)
              ltac:(vm_compute; reflexivity) Hfd) as [_ Hall].
  split.
  - exact (Hall 1%nat ltac:(lia) eq_refl).
  - exact (Hall 3%nat ltac:(lia) eq_refl).
Defined.


(** The file [m.spec] holds [s2_spec]: the volume opened on it is in
    [STOR_STATE_MFSPEC_COMPLETE]. *)
Lemma constructor_classifies_witness :
  let w := MemFS.init [("m.spec"%string, bytes s2_spec)] in
  exists st w',
    new_Storage "m.spec" [] w = Some (st, w') /\
    state_ st = STOR_STATE_MFSPEC_COMPLETE.
Proof.
  intros w.
  assert (Hsize : @file_size_by_path MemPlatform "m.spec" w = (40, w))
    by (vm_compute; reflexivity).
  destruct (proj2 (constructor_classifies (P := MemPlatform) "m.spec" [] w 40
                     w Hsize) (bytes s2_spec) w)
    as (st & w' & Hnew & Hstate).
  - reflexivity.
  - vm_compute. reflexivity.
  - vm_compute. lia.
  - exists st, w'. split; [exact Hnew|]. rewrite Hstate.
    vm_compute. reflexivity.
Defined.

